(** * wordcat-transformer: the notebooks' numerical recipes, embedded in Rocq

    The repository holds two Jupyter notebooks.  The first one
    ("Word category formation using BERT predictions") pads a batch of
    tokenized sentences and extracts the best predictions for a masked
    word ([get_top_predictions]).  The second one ("Estimate sentence
    probability with BERT") scores a sentence by masking its tokens
    ([get_sentence_prob], [get_directional_prob]).

    Conventions of the embedding:
    - numpy / torch floating point numbers are exact reals ([R]):
      rounding, overflow and underflow are not modelled, so a statement
      about a value is a statement about the recipe in exact arithmetic;
    - Python integers used as indices, bounds and counts are [Z], so that
      negative indices and the slice rules of Python are written out;
    - Python list objects that are mutated or passed by reference live in a
      heap ([gmap] from locations to token lists);
    - exceptions are outcomes; [print], [exit()] and the calls to the
      model, to the softmax and to [np.log10] are recorded in a trace.
      The code runs in a notebook, where [exit()] is IPython's: it asks
      the kernel to shut down once the cell has run, and returns;
    - the pretrained model, the tokenizer and the two numpy index
      routines whose result order is not fixed by numpy ([argpartition],
      [argsort]) are the fields of the class [Globals]. *)

From Stdlib Require Import Reals Lra.
From stdpp Require Import gmap strings list sorting.

Local Open Scope Z_scope.

(** * Part I: the code of the notebooks *)

(** ** Outcomes of Python code *)

Inductive exn : Set :=
| IndexError
| ValueError
| Unallocated.   (* a location that holds no object: never reached by the notebooks *)

Inductive outcome (A : Type) : Type :=
| Ret (a : A)
| Raise (e : exn).
Arguments Ret {A} a.
Arguments Raise {A} e.

Definition obind {A B} (o : outcome A) (f : A → outcome B) : outcome B :=
  match o with
  | Ret a => f a
  | Raise e => Raise e
  end.

Definition of_option {A} (e : exn) (o : option A) : outcome A :=
  match o with
  | Some a => Ret a
  | None => Raise e
  end.

(** ** Python built-ins *)

Module Py.

(** [xs[i]]: a negative index counts from the end; out of range raises. *)
Definition getitem {A} (xs : list A) (i : Z) : outcome A :=
  let j := if i <? 0 then i + Z.of_nat (length xs) else i in
  if j <? 0 then Raise IndexError
  else of_option IndexError (xs !! Z.to_nat j).

(** [list(range(a, b))]. *)
Definition range (a b : Z) : list Z :=
  (λ k : nat, a + Z.of_nat k) <$> seq 0 (Z.to_nat (b - a)).

(** Normalisation of one slice bound against a length. *)
Definition clip (len : nat) (k : Z) : nat :=
  if k <? 0 then Z.to_nat (Z.max (k + Z.of_nat len) 0)
  else Nat.min (Z.to_nat k) len.

(** [xs[start:]]. *)
Definition getslice_from {A} (xs : list A) (start : Z) : list A :=
  drop (clip (length xs) start) xs.

(** The list after [xs[start:stop] = r]. *)
Definition setslice {A} (xs : list A) (start stop : Z) (r : list A) : list A :=
  let a := clip (length xs) start in
  let b := clip (length xs) stop in
  take a xs ++ r ++ drop (Nat.max a b) xs.

(** The list after [xs.insert(i, x)], for [0 <= i]. *)
Definition insert {A} (xs : list A) (i : nat) (x : A) : list A :=
  take i xs ++ x :: drop i xs.

(** [max(xs)] raises on an empty sequence. *)
Definition max (xs : list nat) : outcome nat :=
  match xs with
  | [] => Raise ValueError
  | x :: xs' => Ret (foldl Nat.max x xs')
  end.

(** [xs.index(x)]: first position of [x], raises when absent. *)
Fixpoint index (xs : list nat) (x : nat) : outcome nat :=
  match xs with
  | [] => Raise ValueError
  | y :: ys => if Nat.eqb y x then Ret 0%nat
               else obind (index ys x) (λ p, Ret (S p))
  end.

End Py.

(** ** numpy and torch numerics over exact reals

    The float32 and float64 operations of the notebooks as the real
    functions they round: a softmax component is never 0 here and
    [power10] inverts [log10] exactly, where the floating-point code can
    underflow to 0 and is off by rounding. *)

Module Np.
Local Open Scope R_scope.

(** [np.log10] on a positive argument. (Outside the positive reals numpy
    leaves the finite numbers; [ln] is then an arbitrary real, and the
    trace records every argument so that this case can be excluded.) *)
Definition log10 (x : R) : R := ln x / ln 10.

(** [np.power(10, x)]. *)
Definition power10 (x : R) : R := Rpower 10 x.

Definition sum_exp (v : list R) : R := foldr (λ x acc, exp x + acc) 0 v.

(** [torch.nn.Softmax(dim=0)] on a vector. *)
Definition softmax (v : list R) : list R := (λ x, exp x / sum_exp v) <$> v.

(** [xs[idx]] for an index array [idx]. *)
Fixpoint take_idx {A} (xs : list A) (idx : list nat) : outcome (list A) :=
  match idx with
  | [] => Ret []
  | j :: js =>
      obind (of_option IndexError (xs !! j)) (λ x,
      obind (take_idx xs js) (λ r, Ret (x :: r)))
  end.

(** [np.where(xs > thres)[0]], the positions counted from [j]. *)
Fixpoint where_gt (xs : list R) (thres : R) (j : nat) : list nat :=
  match xs with
  | [] => []
  | x :: xs' =>
      if Rlt_dec thres x then j :: where_gt xs' thres (S j)
      else where_gt xs' thres (S j)
  end.

(** [np.where(xs != 0, 1, 0)] on one row of ids. *)
Definition where_nonzero (row : list nat) : list nat :=
  (λ x, if Nat.eqb x 0 then 0%nat else 1%nat) <$> row.

End Np.

(** ** Heap, trace and the monad of notebook code *)

Abbreviation loc := nat (only parsing).

(** One argument of a [print] call. *)
Inductive printed : Type :=
| PStr (s : string)
| PTokens (ts : list string)
| PReal (x : R)
| PReals (xs : list R).

Inductive event : Type :=
| Print (items : list printed)
| ModelCall (input_ids : list nat)   (* model(masked_input) *)
| SmCall (logits : list R)           (* sm(predictions[0, i]) *)
| Log10Call (x : R)                  (* np.log10(x) *)
| ExitCall.                          (* exit(): the kernel is asked to shut down *)

Record state : Type := State {
  heap : gmap loc (list string);
  trace : list event
}.

Definition M (A : Type) : Type := state → outcome A * state.

Definition ret {A} (a : A) : M A := λ st, (Ret a, st).

Definition bind {A B} (m : M A) (f : A → M B) : M B :=
  λ st, match m st with
        | (Ret a, st') => f a st'
        | (Raise e, st') => (Raise e, st')
        end.

Declare Scope py_scope.
Delimit Scope py_scope with py.
Notation "x <~ m ; k" := (bind m (λ x, k))
  (at level 20, m at level 100, k at level 200, right associativity,
   format "'[v' x  <~  m ; '/' k ']'") : py_scope.
Notation "m ;~ k" := (bind m (λ _, k))
  (at level 100, k at level 200, right associativity,
   format "'[v' m ;~ '/' k ']'") : py_scope.
Local Open Scope py_scope.

Definition raise {A} (e : exn) : M A := λ st, (Raise e, st).

Definition lift {A} (o : outcome A) : M A := λ st, (o, st).

Definition emit (e : event) : M unit :=
  λ st, (Ret tt, State (heap st) (trace st ++ [e])).

Definition print (items : list printed) : M unit := emit (Print items).

(** A new list object holding [v]. *)
Definition alloc (v : list string) : M loc :=
  λ st, let l := fresh (dom (heap st)) in
        (Ret l, State (<[l := v]> (heap st)) (trace st)).

Definition deref (l : loc) : M (list string) :=
  λ st, (of_option Unallocated (heap st !! l), st).

(** In-place update of the object at [l]. *)
Definition modify (l : loc) (f : list string → list string) : M unit :=
  λ st, match heap st !! l with
        | Some v => (Ret tt, State (<[l := f v]> (heap st)) (trace st))
        | None => (Raise Unallocated, st)
        end.

Definition when (b : bool) (m : M unit) : M unit := if b then m else ret tt.

(** [for x in xs: s = body(x, s)]. *)
Fixpoint for_each {A S} (xs : list A) (body : A → S → M S) (s : S) : M S :=
  match xs with
  | [] => ret s
  | x :: xs' => s' <~ body x s; for_each xs' body s'
  end.

(** ** The globals of the notebooks *)

(** The pretrained tokenizer and model are opaque oracles, and so are the
    two numpy routines whose output order numpy leaves open. *)
Class Globals : Type := {
  (** [tokenizer.tokenize] *)
  tokenize : string → list string;
  (** [tokenizer.convert_tokens_to_ids] on one token *)
  convert_token_to_id : string → nat;
  (** [tokenizer.convert_ids_to_tokens] on one id *)
  convert_id_to_token : nat → string;
  (** [model(torch.tensor([ids]))[0][0]]: one logit vector per position *)
  model : list nat → list (list R);
  (** [np.argpartition(a, kth)]; [None] is numpy's ValueError *)
  argpartition : list R → Z → option (list nat);
  (** [np.argsort(a)] *)
  argsort : list R → list nat
}.

Definition BOS_TOKEN : string := "[CLS]".
Definition EOS_TOKEN : string := "[SEP]".
Definition MASK_TOKEN : string := "[MASK]".

Section Notebooks.
Context `{G : Globals}.

Definition convert_tokens_to_ids (tokens : list string) : list nat :=
  convert_token_to_id <$> tokens.

Definition convert_ids_to_tokens (ids : list nat) : list string :=
  convert_id_to_token <$> ids.

(** *** Notebook 1: word categories *)

(** [max_len = max(len(i) for i in input_ids)] *)
Definition max_len (input_ids : list (list nat)) : outcome nat :=
  Py.max (length <$> input_ids).

(** [mask_positions = [s.index(tok_MASK) for s in input_ids]] *)
Fixpoint mask_positions (input_ids : list (list nat)) (tok_MASK : nat)
  : outcome (list nat) :=
  match input_ids with
  | [] => Ret []
  | s :: rest =>
      obind (Py.index s tok_MASK) (λ p,
      obind (mask_positions rest tok_MASK) (λ ps, Ret (p :: ps)))
  end.

(** [padded_input = np.array([i + [0]* (max_len - len(i)) for i in input_ids])] *)
Definition padded_input (input_ids : list (list nat)) : outcome (list (list nat)) :=
  obind (max_len input_ids) (λ m,
  Ret ((λ i, i ++ replicate (m - length i)%nat 0%nat) <$> input_ids)).

(** [attention_mask = np.where(padded_input != 0, 1, 0)] *)
Definition attention_mask (padded : list (list nat)) : list (list nat) :=
  Np.where_nonzero <$> padded.

(** The tokenizing and padding cell, on the already encoded sentences:
    the values of [mask_positions], [padded_input] and [attention_mask]
    when the cell has run. *)
Definition padding_cell (input_ids : list (list nat)) (tok_MASK : nat)
  : outcome (list nat * list (list nat) * list (list nat)) :=
  obind (mask_positions input_ids tok_MASK) (λ mp,
  obind (padded_input input_ids) (λ padded,
  Ret (mp, padded, attention_mask padded))).

(** The three lines shared by [get_top_predictions] and
    [print_top_predictions]:
<<
    top_indexes = np.argpartition(probs, -k)[-k:]
    sorted_indexes = top_indexes[np.argsort(-probs[top_indexes])]
>> *)
Definition sorted_top_indexes (probs : list R) (k : Z) : outcome (list nat) :=
  obind (of_option ValueError (argpartition probs (- k))) (λ part,
  let top_indexes := Py.getslice_from part (- k) in
  obind (Np.take_idx probs top_indexes) (λ vals,
  Np.take_idx top_indexes (argsort (Ropp <$> vals)))).

(** [get_top_predictions(probs, k, thres)] *)
Definition get_top_predictions (probs : list R) (k : Z) (thres : R)
  : M (list string * list string) :=
  sorted_indexes <~ lift (sorted_top_indexes probs k);
  let top_tokens := convert_ids_to_tokens sorted_indexes in
  print [PStr "Ordered top predicted tokens: "; PTokens top_tokens];~
  vals <~ lift (Np.take_idx probs sorted_indexes);
  print [PStr "Ordered top predicted values: "; PReals vals; PStr "\n"];~
  let high_indexes := Np.where_gt probs thres 0 in
  let high_tokens := convert_ids_to_tokens high_indexes in
  ret (top_tokens, high_tokens).

(** *** Notebook 2: sentence probability *)

(** [print_top_predictions(probs, k=5)] *)
Definition print_top_predictions (probs : list R) (k : Z) : M unit :=
  sorted_indexes <~ lift (sorted_top_indexes probs k);
  let top_tokens := convert_ids_to_tokens sorted_indexes in
  print [PStr "Ordered top predicted tokens: "; PTokens top_tokens];~
  vals <~ lift (Np.take_idx probs sorted_indexes);
  print [PStr "Ordered top predicted values: "; PReals vals].

(** [get_directional_prob(sm, tokenized_input, i, direction, verbose)].
    [tokenized_input] is a reference to the caller's list;
    [current_tokens = tokenized_input[:]] is a new list object, and the
    slice assignments act on that object.  [exit()] is the one of the
    notebook's kernel: it records the request to shut down and returns,
    so the code after the [else] branch runs for every [direction]. *)
Definition get_directional_prob (sm : list R → list R)
    (tokenized_input : loc) (i : Z) (direction : string) (verbose : bool)
  : M (list R) :=
  toks <~ deref tokenized_input;
  current_tokens <~ alloc toks;
  (if String.eqb direction "backwards" then
     modify current_tokens (λ cur,
       Py.setslice cur 1 (i + 1) ((λ _, MASK_TOKEN) <$> Py.range 0 i))
   else if String.eqb direction "forward" then
     orig <~ deref tokenized_input;
     modify current_tokens (λ cur,
       Py.setslice cur i (-1)
         ((λ _, MASK_TOKEN) <$> Py.range 0 (Z.of_nat (length orig) - 1 - i)))
   else
     print [PStr "Direction can only be 'forward' or 'backwards'"];~
     emit ExitCall);~
  when verbose (
    print [];~
    cur <~ deref current_tokens;
    print [PTokens cur]);~
  cur <~ deref current_tokens;
  let masked_input := convert_tokens_to_ids cur in
  emit (ModelCall masked_input);~
  let predictions := model masked_input in
  logits <~ lift (Py.getitem predictions i);
  emit (SmCall logits);~
  let probs := sm logits in
  when verbose (print_top_predictions probs 5);~
  ret probs.

(** One round of the loop of [get_sentence_prob] at position [i]; the
    loop state is the pair
    [(log_sent_prob_forward, log_sent_prob_backwards)]. *)
Definition sentence_loop_body (sm : list R → list R)
    (tokenized_input : loc) (ids_input : list nat) (verbose : bool)
    (i : Z) (acc : R * R) : M (R * R) :=
  probs_forward <~ get_directional_prob sm tokenized_input i "forward" verbose;
  probs_backwards <~ get_directional_prob sm tokenized_input i "backwards" verbose;
  id_f <~ lift (Py.getitem ids_input i);
  p_forward <~ lift (Py.getitem probs_forward (Z.of_nat id_f));
  emit (Log10Call p_forward);~
  let log_prob_forward := Np.log10 p_forward in
  id_b <~ lift (Py.getitem ids_input i);
  p_backwards <~ lift (Py.getitem probs_backwards (Z.of_nat id_b));
  emit (Log10Call p_backwards);~
  let log_prob_backwards := Np.log10 p_backwards in
  let log_sent_prob_forward := (acc.1 + log_prob_forward)%R in
  let log_sent_prob_backwards := (acc.2 + log_prob_backwards)%R in
  when verbose (
    toks <~ deref tokenized_input;
    word <~ lift (Py.getitem toks i);
    print [PStr "Word: "; PTokens [word]; PStr " \t Log-Prob_forward: ";
           PReal log_prob_forward; PStr "; Log-Prob_backwards: ";
           PReal log_prob_backwards]);~
  ret (log_sent_prob_forward, log_sent_prob_backwards).

(** The accumulation loop of [get_sentence_prob]. *)
Definition sentence_loop (sm : list R → list R) (tokenized_input : loc)
    (ids_input : list nat) (verbose : bool) : M (R * R) :=
  toks <~ deref tokenized_input;
  for_each (Py.range 1 (Z.of_nat (length toks) - 1))
    (sentence_loop_body sm tokenized_input ids_input verbose) (0%R, 0%R).

(** [get_sentence_prob(sentence, verbose)].  ([sent_len] is assigned and
    never read in the source; it is left out.) *)
Definition get_sentence_prob (sentence : string) (verbose : bool) : M R :=
  tokenized_input <~ alloc (tokenize sentence);
  toks0 <~ deref tokenized_input;
  first <~ lift (Py.getitem toks0 0);
  when (negb (String.eqb first BOS_TOKEN))
    (modify tokenized_input (λ l, Py.insert l 0 BOS_TOKEN));~
  toks1 <~ deref tokenized_input;
  last <~ lift (Py.getitem toks1 (-1));
  when (negb (String.eqb last EOS_TOKEN))
    (modify tokenized_input (λ l, l ++ [EOS_TOKEN]));~
  toks <~ deref tokenized_input;
  let ids_input := convert_tokens_to_ids toks in
  print [PStr "Processing sentence: "; PTokens toks; PStr "\n"];~
  let sm := Np.softmax in
  logs <~ sentence_loop sm tokenized_input ids_input verbose;
  let log_geom_mean_sent_prob := (0.5 * (logs.1 + logs.2))%R in
  when verbose (
    print [PStr "Raw forward sentence probability: "; PReal logs.1];~
    print [PStr "Raw backward sentence probability: "; PReal logs.2; PStr "\n"];~
    print [PStr "Average normalized sentence prob: ";
           PReal log_geom_mean_sent_prob; PStr "\n"]);~
  let sentence_prob := Np.power10 log_geom_mean_sent_prob in
  print [PReal sentence_prob];~
  ret sentence_prob.

End Notebooks.

(** ** What the notebooks are meant to compute *)

Section Spec.
Context `{G : Globals}.
Local Open Scope R_scope.

(** The token list once [[CLS]] and [[SEP]] are in place. *)
Definition with_special_tokens (toks : list string) : list string :=
  let t1 := match toks with
            | t :: _ => if String.eqb t BOS_TOKEN then toks else BOS_TOKEN :: toks
            | [] => toks
            end in
  match last t1 with
  | Some t => if String.eqb t EOS_TOKEN then t1 else t1 ++ [EOS_TOKEN]
  | None => t1
  end.

(** Interior positions [1 .. n-2] of a token list of length [n]. *)
Definition interior (n : nat) : list nat := seq 1 (n - 2).

(** [toks] with the positions [lo <= j < hi] replaced by [[MASK]]. *)
Definition mask_span (toks : list string) (lo hi : nat) : list string :=
  imap (λ j t, if bool_decide (lo ≤ j < hi)%nat then MASK_TOKEN else t) toks.

Inductive direction : Set := Forward | Backwards.

Definition direction_name (d : direction) : string :=
  match d with Forward => "forward" | Backwards => "backwards" end.

(** Forward: position [i] and everything to its right, up to the last
    interior position, is hidden.  Backwards: position [i] and everything
    to its left, down to the first interior position, is hidden. *)
Definition masked (d : direction) (toks : list string) (i : nat) : list string :=
  match d with
  | Forward => mask_span toks i (length toks - 1)
  | Backwards => mask_span toks 1 (i + 1)
  end.

(** The reading of "masking one token at a time": only position [i]. *)
Definition masked_single (toks : list string) (i : nat) : list string :=
  <[i := MASK_TOKEN]> toks.

(** The logits the prediction head gives at position [i] of the masked input. *)
Definition head_logits (d : direction) (toks : list string) (i : nat) : list R :=
  default [] (model (convert_tokens_to_ids (masked d toks i)) !! i).

(** Probability of the original token at position [i]. *)
Definition token_prob (d : direction) (toks : list string) (i : nat) : R :=
  default 0 (Np.softmax (head_logits d toks i)
             !! convert_token_to_id (default EmptyString (toks !! i))).

Definition sum_R (xs : list R) : R := foldr Rplus 0 xs.

(** Pseudo-log-likelihood and pseudo-probability of one direction. *)
Definition log_likelihood (d : direction) (toks : list string) : R :=
  sum_R ((λ i, Np.log10 (token_prob d toks i)) <$> interior (length toks)).


(** The calls to the model, the softmax and [np.log10] made for position [i]. *)
Definition position_calls (toks : list string) (i : nat) : list event :=
  [ ModelCall (convert_tokens_to_ids (masked Forward toks i));
    SmCall (head_logits Forward toks i);
    ModelCall (convert_tokens_to_ids (masked Backwards toks i));
    SmCall (head_logits Backwards toks i);
    Log10Call (token_prob Forward toks i);
    Log10Call (token_prob Backwards toks i) ].

Definition is_print (e : event) : bool :=
  match e with Print _ => true | _ => false end.

(** A trace without its [print] events. *)
Definition calls (evs : list event) : list event :=
  filter (λ e, is_print e = false) evs.

Definition model_inputs (evs : list event) : list (list nat) :=
  omap (λ e, match e with ModelCall ids => Some ids | _ => None end) evs.

Definition softmax_inputs (evs : list event) : list (list R) :=
  omap (λ e, match e with SmCall v => Some v | _ => None end) evs.

Definition log10_args (evs : list event) : list R :=
  omap (λ e, match e with Log10Call x => Some x | _ => None end) evs.

(** An event is safe when it is not a logarithm, or the logarithm of a
    component of an [sm] output. *)
Definition ev_safe (sm : list R → list R) (e : event) : Prop :=
  match e with
  | Log10Call x => ∃ v, x ∈ sm v
  | _ => True
  end.

(** [m l] behaves in one way whatever the state it starts from, as long
    as the list object at [l] holds [toks]: one outcome [o], one
    sequence [evs] of new events, all of them safe; a returned value
    satisfies [Q]; and every object of the heap is as it was. *)
Definition uniform (sm : list R → list R) (toks : list string) {A}
    (m : loc → M A) (Q : A → Prop) : Prop :=
  ∃ (o : outcome A) (evs : list event),
    Forall (ev_safe sm) evs ∧
    (∀ a, o = Ret a → Q a) ∧
    ∀ l st, heap st !! l = Some toks →
            ∃ h', m l st = (o, State h' (trace st ++ evs)) ∧
                  heap st ⊆ h'.

(** The tokens [get_directional_prob] shows to the model, by the name of
    the direction. *)
Definition shown (toks : list string) (d : string) (i : Z) : list string :=
  if String.eqb d "backwards" then
    Py.setslice toks 1 (i + 1) ((λ _, MASK_TOKEN) <$> Py.range 0 i)
  else
    Py.setslice toks i (-1)
      ((λ _, MASK_TOKEN) <$> Py.range 0 (Z.of_nat (length toks) - 1 - i)).

(** Entry [j] of row [r] of a batch. *)
Definition entry (rows : list (list nat)) (r j : nat) : option nat :=
  rows !! r ≫= (.!! j).

(** Where [part[-k:]] starts in a [part] of length [n]: Python reads
    [-0] as [0]. *)
Definition cut (n k : nat) : nat := if decide (k = 0)%nat then 0%nat else (n - k)%nat.

(** *** Assumptions on the oracles *)

(** numpy's contract for [argpartition]: when [kth], counted from the
    end if negative, is a position of [a], the result lists every
    position once, nothing before position [kth] is larger and nothing
    after it is smaller than the value placed there. *)
Definition argpartition_contract : Prop :=
  ∀ (a : list R) (kth : Z),
    let n := Z.of_nat (length a) in
    let k' := (if kth <? 0 then kth + n else kth)%Z in
    (0 ≤ k' < n)%Z →
    ∃ idx, argpartition a kth = Some idx ∧
           idx ≡ₚ seq 0 (length a) ∧
           ∀ p j jk x xk,
             idx !! p = Some j → idx !! Z.to_nat k' = Some jk →
             a !! j = Some x → a !! jk = Some xk →
             ((p < Z.to_nat k')%nat → x <= xk) ∧
             ((Z.to_nat k' < p)%nat → xk <= x).

(** numpy's contract for [argsort]: a listing of the positions along
    which the values do not decrease. *)
Definition argsort_contract : Prop :=
  ∀ a : list R,
    argsort a ≡ₚ seq 0 (length a) ∧
    ∀ p q i j x y,
      (p ≤ q)%nat → argsort a !! p = Some i → argsort a !! q = Some j →
      a !! i = Some x → a !! j = Some y → x <= y.

(** The model answers with one logit vector of vocabulary size [V] per
    input position, and every token id is below [V]. *)
Record globals_ok (V : nat) : Prop := {
  model_rows : ∀ ids, length (model ids) = length ids;
  model_cols : ∀ ids v, v ∈ model ids → length v = V;
  vocab_bound : ∀ t, (convert_token_to_id t < V)%nat;
  numpy_argpartition : argpartition_contract;
  numpy_argsort : argsort_contract
}.

End Spec.

(** ** A small concrete instance of the globals

    Used to run the notebooks' code on concrete sentences: a whitespace
    tokenizer over a seven-word vocabulary, a model that scores the token
    it is shown, and merge sort for the two numpy routines. *)

Module Toy.

#[export] Instance Rle_decision (x y : R) : Decision (x <= y)%R := Rle_dec x y.

(** The value a position is sorted by. *)
Definition key (a : list R) (j : nat) : R := default 0%R (a !! j).

Definition ref_argsort (a : list R) : list nat :=
  merge_sort (λ i j, (key a i <= key a j)%R) (seq 0 (length a)).

Definition ref_argpartition (a : list R) (kth : Z) : option (list nat) :=
  let n := Z.of_nat (length a) in
  let k' := if kth <? 0 then kth + n else kth in
  if bool_decide (0 ≤ k' < n) then Some (ref_argsort a) else None.

Fixpoint split_words (s cur : string) : list string :=
  match s with
  | EmptyString => if String.eqb cur EmptyString then [] else [cur]
  | String c s' =>
      if Ascii.eqb c (Ascii.ascii_of_nat 32) then
        (if String.eqb cur EmptyString then split_words s' EmptyString
         else cur :: split_words s' EmptyString)
      else split_words s' (cur +:+ String c EmptyString)
  end.

Definition vocab : list string :=
  ["[CLS]"; "[SEP]"; "[MASK]"; "the"; "cat"; "sat"; "[UNK]"].

Fixpoint position (t : string) (l : list string) : option nat :=
  match l with
  | [] => None
  | x :: l' => if String.eqb x t then Some 0%nat else S <$> position t l'
  end.

Definition token_id (t : string) : nat := default 6%nat (position t vocab).

Definition id_token (j : nat) : string := default "[UNK]"%string (vocab !! j).

Definition one_hot (j : nat) : list R :=
  (λ c, if Nat.eqb c j then 1%R else 0%R) <$> seq 0 (length vocab).

Definition predict (ids : list nat) : list (list R) := one_hot <$> ids.

#[export] Instance globals : Globals := {|
  tokenize s := split_words s EmptyString;
  convert_token_to_id := token_id;
  convert_id_to_token := id_token;
  model := predict;
  argpartition := ref_argpartition;
  argsort := ref_argsort
|}.

Definition start : state := State ∅ [].

End Toy.

(** * Part I, continued: the rest of the notebooks

    The cells of the first notebook around [get_top_predictions] (placing
    the [[MASK]] tokens, reading the embeddings, collecting the tokens above
    the threshold, forming the word categories), and the search for a
    target word in the notebook [Bank_embeddings].  The clustering itself
    is the work of a library; its answer, [estimator.labels_], is an input
    here. *)

From stdpp Require Import pretty.

Local Open Scope Z_scope.

(** ** More Python built-ins *)

Module PySeq.

(** [xs[start:stop]]. *)
Definition getslice {A} (xs : list A) (start stop : Z) : list A :=
  let a := Py.clip (length xs) start in
  let b := Py.clip (length xs) stop in
  take (b - a) (drop a xs).

(** [list(enumerate(xs))]. *)
Definition enumerate {A} (xs : list A) : list (nat * A) :=
  zip (seq 0 (length xs)) xs.

(** [sum((xss[i] for i in idx), [])]. *)
Fixpoint sum_lists {A} (xss : list (list A)) (idx : list nat) : outcome (list A) :=
  match idx with
  | [] => Ret []
  | i :: rest =>
      obind (Py.getitem xss (Z.of_nat i)) (λ xs,
      obind (sum_lists xss rest) (λ ys, Ret (xs ++ ys)))
  end.

End PySeq.

Module PyStr.

Definition newline : Ascii.ascii := Ascii.ascii_of_nat 10.

(** [s.split(sep)] for a separator of one character. *)
Fixpoint split (sep : Ascii.ascii) (s : string) : list string :=
  match s with
  | EmptyString => [EmptyString]
  | String c s' =>
      if Ascii.eqb c sep then EmptyString :: split sep s'
      else match split sep s' with
           | piece :: pieces => String c piece :: pieces
           | [] => [String c EmptyString]
           end
  end.

(** [sep.join(pieces)]. *)
Fixpoint join (sep : string) (pieces : list string) : string :=
  match pieces with
  | [] => EmptyString
  | [piece] => piece
  | piece :: rest => piece +:+ sep +:+ join sep rest
  end.

End PyStr.

(** ** The regular expression of notebook 1

    [re.sub(r'\b_+\b', '[MASK]', text)] on ASCII text.  [\w] is a letter, a
    digit or the underscore, and [\b] is a place between a [\w] and a
    non-[\w] character or an end of the text.  The underscore being a
    [\w] itself, a match is a maximal run of underscores that has no
    letter or digit next to it, on either side. *)

Module Re.

Definition underscore : Ascii.ascii := Ascii.ascii_of_nat 95.

Definition is_word (c : Ascii.ascii) : bool :=
  let n := Ascii.nat_of_ascii c in
  ((48 <=? n) && (n <=? 57) || (65 <=? n) && (n <=? 90)
   || (97 <=? n) && (n <=? 122) || (n =? 95))%nat.

(** Where the scan stands: outside a candidate run, knowing whether the
    last character was a [\w]; or inside a run of [n] underscores that
    began at a [\b]. *)
Inductive scan : Set :=
| Out (prev_word : bool)
| Run (n : nat).

Fixpoint underscores (n : nat) : string :=
  match n with
  | O => EmptyString
  | S m => String underscore (underscores m)
  end.

Fixpoint sub_from (st : scan) (s : string) : string :=
  match s with
  | EmptyString =>
      match st with
      | Out _ => EmptyString
      | Run _ => MASK_TOKEN
      end
  | String c s' =>
      match st with
      | Out prev_word =>
          if Ascii.eqb c underscore && negb prev_word then sub_from (Run 1) s'
          else String c (sub_from (Out (is_word c)) s')
      | Run n =>
          if Ascii.eqb c underscore then sub_from (Run (S n)) s'
          else if is_word c then
            underscores n +:+ String c (sub_from (Out true) s')
          else MASK_TOKEN +:+ String c (sub_from (Out false) s')
      end
  end.

(** [re.sub(r'\b_+\b', '[MASK]', text)] *)
Definition sub_blanks (text : string) : string := sub_from (Out false) text.

End Re.

(** ** Words for statements about text *)

Module Text.

Definition first (s : string) : option Ascii.ascii :=
  match s with
  | EmptyString => None
  | String c _ => Some c
  end.

Fixpoint last (s : string) : option Ascii.ascii :=
  match s with
  | EmptyString => None
  | String c EmptyString => Some c
  | String _ s' => last s'
  end.

(** A letter or a digit: a [\w] that is not the underscore. *)
Definition is_alnum (o : option Ascii.ascii) : bool :=
  match o with
  | Some c => Re.is_word c && negb (Ascii.eqb c Re.underscore)
  | None => false
  end.

(** [c in s] *)
Fixpoint mem (c : Ascii.ascii) (s : string) : bool :=
  match s with
  | EmptyString => false
  | String d s' => Ascii.eqb d c || mem c s'
  end.

(** [s.count(c)] *)
Fixpoint count (c : Ascii.ascii) (s : string) : nat :=
  match s with
  | EmptyString => 0%nat
  | String d s' => ((if Ascii.eqb d c then 1 else 0) + count c s')%nat
  end.

End Text.

Section MoreCells.
Context `{G : Globals}.

(** *** Notebook 1: the remaining cells *)

(** [sentences = re.sub(r'\b_+\b', '[MASK]', text_sentences).split('\n')] *)
Definition sentences (text_sentences : string) : list string :=
  PyStr.split PyStr.newline (Re.sub_blanks text_sentences).

(** [[lh[m].numpy() for lh, m in pairs]] *)
Fixpoint rows_at (pairs : list (list (list R) * nat)) : outcome (list (list R)) :=
  match pairs with
  | [] => Ret []
  | lhm :: rest =>
      obind (Py.getitem lhm.1 (Z.of_nat lhm.2)) (λ e,
      obind (rows_at rest) (λ es, Ret (e :: es)))
  end.

(** [embeddings = [lh[m].numpy()
                   for lh, m in zip(last_hidden_states[0], mask_positions)]];
    [hidden] is [last_hidden_states[0]]. *)
Definition embeddings_cell (hidden : list (list (list R))) (mask_pos : list nat)
  : outcome (list (list R)) :=
  rows_at (zip hidden mask_pos).

(** The cell that turns the last hidden states into probabilities:
<<
    sm = torch.nn.Softmax(dim=0)
    all_high_tokens = []
    i = 0
    for lh, m in zip(last_hidden_states[0], mask_positions):
        print("Sentence:")
        print(sentences[i])
        i += 1
        probs = sm(lh[m])
        _, high_tokens = get_top_predictions(probs)
        all_high_tokens.append(high_tokens)
>>
    [hidden] is [last_hidden_states[0]]: for each sentence, one logit
    vector per position.  The loop state is [(i, all_high_tokens)]. *)
Definition high_tokens_cell (sentence_list : list string)
    (hidden : list (list (list R))) (mask_pos : list nat)
  : M (Z * list (list string)) :=
  let sm := Np.softmax in
  for_each (zip hidden mask_pos)
    (λ (row : list (list R) * nat) (acc : Z * list (list string)),
       print [PStr "Sentence:"];~
       s <~ lift (Py.getitem sentence_list acc.1);
       print [PStr s];~
       logits <~ lift (Py.getitem row.1 (Z.of_nat row.2));
       emit (SmCall logits);~
       let probs := sm logits in
       preds <~ get_top_predictions probs 5 0.01%R;
       ret (acc.1 + 1, acc.2 ++ [preds.2]))
    (0, []).

(** [np.where(labels == cl)[0]], the positions counted from [j]. *)
Fixpoint where_eq (labels : list Z) (cl : Z) (j : nat) : list nat :=
  match labels with
  | [] => []
  | x :: rest =>
      if Z.eqb x cl then j :: where_eq rest cl (S j)
      else where_eq rest cl (S j)
  end.

(** The cell that forms the word categories:
<<
    word_categories = {}
    for cl in range(k):
        cluster_members = np.where(estimator.labels_ == cl)
        word_categories[cl] = sum((all_high_tokens[i] for i in cluster_members[0]), [])
        word_categories[cl] = set(word_categories[cl])
        print(f"Category {cl}:")
        print(", ".join(word_categories[cl]) + "\n")
>>
    [labels] is [estimator.labels_], the answer of the clustering
    library.  The dict is a [gmap], a Python set a [gset]; the order in
    which Python walks a set is not fixed, the printed line lists the
    members in the order of [elements]. *)
Definition word_categories_cell (labels : list Z)
    (all_high_tokens : list (list string)) (k : Z)
  : M (gmap Z (gset string)) :=
  for_each (Py.range 0 k)
    (λ (cl : Z) (word_categories : gmap Z (gset string)),
       let cluster_members := where_eq labels cl 0 in
       members <~ lift (PySeq.sum_lists all_high_tokens cluster_members);
       let category : gset string := list_to_set members in
       print [PStr ("Category " +:+ pretty cl +:+ ":")];~
       print [PStr (PyStr.join ", " (elements category) +:+ "\n")];~
       ret (<[cl := category]> word_categories))
    ∅.

(** *** Notebook 3: embeddings of a target word *)

(** [matches = [target_ids == inputs_list[i:i+target_len]
                for i in range(len(inputs_list) - target_len + 1)]] *)
Definition matches (target_ids inputs_list : list nat) : list bool :=
  let target_len := Z.of_nat (length target_ids) in
  (λ i, bool_decide (target_ids = PySeq.getslice inputs_list i (i + target_len)))
    <$> Py.range 0 (Z.of_nat (length inputs_list) - target_len + 1).

(** [matches_id = [j for j, val in enumerate(matches) if val]] *)
Definition matches_id (target_ids inputs_list : list nat) : list nat :=
  fst <$> filter (λ jv, jv.2 = true) (PySeq.enumerate (matches target_ids inputs_list)).

(** [for match in matches_id: print(outputs[0][0][match])], with
    [embeddings] for [outputs[0][0]], one vector per input position. *)
Definition print_matches (embeddings : list (list R)) (ids : list nat) : M unit :=
  for_each ids
    (λ (m : nat) (_ : unit),
       v <~ lift (Py.getitem embeddings (Z.of_nat m));
       print [PReals v])
    tt.

End MoreCells.

(** * Part II: facts and claims *)

(** ** Python slices and indices on small inputs *)

Example getitem_negative : Py.getitem [10; 20; 30]%nat (-1) = Ret 30%nat.
Proof. reflexivity. Qed.

Example getitem_out_of_range : Py.getitem [10; 20; 30]%nat 3 = Raise IndexError.
Proof. reflexivity. Qed.

Example range_interior : Py.range 1 (5 - 1) = [1; 2; 3].
Proof. reflexivity. Qed.

Example getslice_last_two : Py.getslice_from [1; 2; 3; 4]%nat (- 2) = [3; 4]%nat.
Proof. reflexivity. Qed.

(** [xs[-0:]] is [xs[0:]]. *)
Example getslice_minus_zero :
  Py.getslice_from [1; 2; 3; 4]%nat (- 0) = [1; 2; 3; 4]%nat.
Proof. reflexivity. Qed.

Example setslice_forward_example :
  Py.setslice ["[CLS]"; "the"; "cat"; "sat"; "[SEP]"]%string 2 (-1)
    ((λ _, MASK_TOKEN) <$> Py.range 0 (5 - 1 - 2))
  = ["[CLS]"; "the"; "[MASK]"; "[MASK]"; "[SEP]"]%string.
Proof. reflexivity. Qed.

Example setslice_backwards_example :
  Py.setslice ["[CLS]"; "the"; "cat"; "sat"; "[SEP]"]%string 1 (2 + 1)
    ((λ _, MASK_TOKEN) <$> Py.range 0 2)
  = ["[CLS]"; "[MASK]"; "[MASK]"; "sat"; "[SEP]"]%string.
Proof. reflexivity. Qed.

Example with_special_tokens_example :
  with_special_tokens (tokenize (Globals := Toy.globals) "the cat sat")
  = ["[CLS]"; "the"; "cat"; "sat"; "[SEP]"]%string.
Proof. reflexivity. Qed.

Example padding_cell_example :
  padding_cell [[101; 7; 103; 102]; [101; 103; 102]]%nat 103%nat
  = Ret ([2; 1]%nat,
         [[101; 7; 103; 102]; [101; 103; 102; 0]]%nat,
         [[1; 1; 1; 1]; [1; 1; 1; 0]]%nat).
Proof. reflexivity. Qed.

Example padding_cell_empty_batch : padding_cell [] 103%nat = Raise ValueError.
Proof. reflexivity. Qed.

(** ** Facts about the Python built-ins *)

Section PyFacts.
Context {A : Type}.
Implicit Types xs : list A.

Lemma getitem_of_nat xs (i : nat) :
  Py.getitem xs (Z.of_nat i) = of_option IndexError (xs !! i).
Proof.
  unfold Py.getitem.
  destruct (Z.ltb_spec (Z.of_nat i) 0) as [?|_]; [lia|].
  destruct (Z.ltb_spec (Z.of_nat i) 0) as [?|_]; [lia|].
  by rewrite Nat2Z.id.
Qed.

Lemma getitem_minus_one xs :
  Py.getitem xs (-1) = of_option IndexError (last xs).
Proof.
  unfold Py.getitem. change (-1 <? 0) with true. cbv iota.
  destruct (last xs) as [x|] eqn:Hl.
  - apply last_Some in Hl as [ys ->]. rewrite length_app. simpl length.
    destruct (Z.ltb_spec (-1 + Z.of_nat (length ys + 1)) 0) as [?|_]; [lia|].
    replace (Z.to_nat (-1 + Z.of_nat (length ys + 1))) with (length ys) by lia.
    by rewrite lookup_app_r, Nat.sub_diag by lia.
  - apply last_None in Hl as ->. done.
Qed.

Lemma getitem_Ret xs i x :
  Py.getitem xs i = Ret x →
  ∃ j : nat, xs !! j = Some x ∧
             (j = Z.to_nat (if i <? 0 then i + Z.of_nat (length xs) else i)).
Proof.
  unfold Py.getitem. case_match; [done|]. intros Hx.
  eexists. split; [|done].
  destruct (xs !! _) eqn:E; simpl in Hx; by simplify_eq.
Qed.

Lemma range_of_nat (a : nat) (b : Z) :
  Py.range (Z.of_nat a) b = Z.of_nat <$> seq a (Z.to_nat (b - Z.of_nat a)).
Proof.
  unfold Py.range. generalize (Z.to_nat (b - Z.of_nat a)). intros n.
  replace (seq a n) with (seq (a + 0) n) by (f_equal; lia).
  rewrite <- (fmap_add_seq a 0 n), <- list_fmap_compose.
  apply list_fmap_ext. intros _ k _. simpl. lia.
Qed.

Lemma const_range (x : A) (n : Z) :
  (λ _, x) <$> Py.range 0 n = replicate (Z.to_nat n) x.
Proof.
  unfold Py.range. rewrite Z.sub_0_r, <- list_fmap_compose.
  generalize 0%nat. induction (Z.to_nat n) as [|m IH]; intros s; simpl; [done|].
  by rewrite IH.
Qed.

Lemma getslice_from_neg xs (k : nat) :
  (0 < k ≤ length xs)%nat →
  Py.getslice_from xs (- Z.of_nat k) = drop (length xs - k) xs.
Proof.
  intros Hk. unfold Py.getslice_from, Py.clip.
  destruct (Z.ltb_spec (- Z.of_nat k) 0) as [_|?]; [|lia].
  f_equal. lia.
Qed.

End PyFacts.

Lemma max_spec (ls : list nat) m :
  Py.max ls = Ret m → m ∈ ls ∧ ∀ x, x ∈ ls → (x ≤ m)%nat.
Proof.
  destruct ls as [|x ls]; [done|]. simpl. intros [= <-].
  revert x. induction ls as [|y ls IH]; intros x; simpl.
  - split; [by left|]. intros z ->%list_elem_of_singleton. done.
  - destruct (IH (x `max` y)%nat) as [Hin Hle]. split.
    + apply elem_of_cons in Hin as [Heq|Hin].
      * rewrite Heq. destruct (Nat.max_spec x y) as [[_ ->]|[_ ->]];
          [right; left|left].
      * by do 2 right.
    + intros z Hz. apply elem_of_cons in Hz as [->|Hz].
      * etrans; [|apply Hle; left]. lia.
      * apply elem_of_cons in Hz as [->|Hz].
        -- etrans; [|apply Hle; left]. lia.
        -- apply Hle. by right.
Qed.

Lemma index_defined (xs : list nat) x :
  x ∈ xs → ∃ p, Py.index xs x = Ret p.
Proof.
  induction 1 as [x l|x y l _ [p IH]]; simpl.
  - rewrite Nat.eqb_refl. by eexists.
  - destruct (y =? x)%nat; [by eexists|]. rewrite IH. by eexists.
Qed.

(** ** Masking by slice assignment *)

Lemma mask_span_slices (toks : list string) (lo hi : nat) :
  (lo ≤ hi ≤ length toks)%nat →
  mask_span toks lo hi =
  take lo toks ++ replicate (hi - lo) MASK_TOKEN ++ drop hi toks.
Proof.
  intros Hb. apply list_eq. intros j. unfold mask_span.
  rewrite list_lookup_imap.
  destruct (decide (j < lo)%nat) as [Hj|Hj].
  - rewrite lookup_app_l by (rewrite length_take; lia).
    rewrite lookup_take_lt by lia.
    rewrite bool_decide_eq_false_2 by lia. by destruct (toks !! j).
  - rewrite lookup_app_r by (rewrite length_take; lia).
    rewrite length_take_le by lia.
    destruct (decide (j < hi)%nat) as [Hh|Hh].
    + rewrite lookup_app_l by (rewrite length_replicate; lia).
      rewrite lookup_replicate_2 by lia.
      rewrite bool_decide_eq_true_2 by lia.
      destruct (lookup_lt_is_Some_2 toks j) as [t ->]; [lia|done].
    + rewrite lookup_app_r by (rewrite length_replicate; lia).
      rewrite length_replicate, lookup_drop.
      rewrite bool_decide_eq_false_2 by lia.
      replace (hi + (j - lo - (hi - lo)))%nat with j by lia.
      by destruct (toks !! j).
Qed.

Lemma setslice_forward (toks : list string) (i : nat) :
  (i < length toks)%nat →
  Py.setslice toks (Z.of_nat i) (-1)
    ((λ _, MASK_TOKEN) <$> Py.range 0 (Z.of_nat (length toks) - 1 - Z.of_nat i))
  = masked Forward toks i.
Proof.
  intros Hi. unfold masked. rewrite mask_span_slices by lia.
  rewrite const_range. unfold Py.setslice, Py.clip.
  destruct (Z.ltb_spec (Z.of_nat i) 0) as [?|_]; [lia|].
  change (-1 <? 0) with true. cbv iota.
  rewrite Nat2Z.id, Nat.min_l by lia.
  repeat f_equal; lia.
Qed.

Lemma setslice_backwards (toks : list string) (i : nat) :
  (i < length toks)%nat →
  Py.setslice toks 1 (Z.of_nat i + 1)
    ((λ _, MASK_TOKEN) <$> Py.range 0 (Z.of_nat i))
  = masked Backwards toks i.
Proof.
  intros Hi. unfold masked. rewrite mask_span_slices by lia.
  rewrite const_range. unfold Py.setslice, Py.clip.
  destruct (Z.ltb_spec (Z.of_nat i + 1) 0) as [?|_]; [lia|].
  change (1 <? 0) with false. cbv iota.
  rewrite Nat2Z.id.
  replace (Z.to_nat 1 `min` length toks)%nat with 1%nat by lia.
  repeat f_equal; lia.
Qed.

Lemma length_masked d (toks : list string) i : length (masked d toks i) = length toks.
Proof. destruct d; apply length_imap. Qed.

(** The special tokens at both ends are never hidden, and an interior
    position hides exactly its span. *)
Lemma masked_lookup d (toks : list string) (i j : nat) t :
  toks !! j = Some t →
  masked d toks i !! j =
  Some (if match d with
           | Forward => bool_decide (i ≤ j < length toks - 1)%nat
           | Backwards => bool_decide (1 ≤ j ≤ i)%nat
           end
        then MASK_TOKEN else t).
Proof.
  intros Hj. destruct d; unfold masked, mask_span;
    rewrite list_lookup_imap, Hj; simpl; repeat case_bool_decide; try done; lia.
Qed.

(** ** Softmax, logarithms and powers *)

Section Numerics.
Local Open Scope R_scope.

Lemma sum_exp_nonneg v : 0 <= Np.sum_exp v.
Proof.
  induction v as [|x v IH]; simpl; [lra|]. pose proof (exp_pos x). lra.
Qed.

Lemma sum_exp_pos v : v ≠ [] → 0 < Np.sum_exp v.
Proof.
  destruct v as [|x v]; [done|]. intros _. simpl.
  pose proof (exp_pos x). pose proof (sum_exp_nonneg v). lra.
Qed.

Lemma length_softmax v : length (Np.softmax v) = length v.
Proof. apply length_fmap. Qed.

Lemma softmax_lookup v j p :
  Np.softmax v !! j = Some p → ∃ x, v !! j = Some x ∧ p = exp x / Np.sum_exp v.
Proof.
  unfold Np.softmax. rewrite list_lookup_fmap.
  destruct (v !! j) as [x|]; simpl; [|done]. intros [= <-]. eauto.
Qed.

(** Every component of a softmax output is strictly positive. *)
Lemma softmax_pos v p : p ∈ Np.softmax v → 0 < p.
Proof.
  intros [j Hj]%list_elem_of_lookup.
  apply softmax_lookup in Hj as (x & Hx & ->).
  apply Rdiv_lt_0_compat; [apply exp_pos|].
  apply sum_exp_pos. intros ->. done.
Qed.

Lemma sum_R_fmap_div (xs : list R) c :
  sum_R ((λ x, x / c) <$> xs) = sum_R xs / c.
Proof.
  unfold sum_R. induction xs as [|x xs IH]; simpl; [lra|].
  fold (fmap (M := list) (λ x, x / c) xs). rewrite IH. lra.
Qed.

(** ... and the components add up to one. *)
Lemma softmax_sum v : v ≠ [] → sum_R (Np.softmax v) = 1.
Proof.
  intros Hv. unfold Np.softmax.
  assert (sum_R (exp <$> v) = Np.sum_exp v) as Hs.
  { clear. unfold sum_R. induction v as [|x v IH]; simpl; [done|].
    fold (fmap (M := list) exp v). by rewrite IH. }
  pose proof (sum_exp_pos v Hv) as Hp.
  transitivity (sum_R ((λ y, y / Np.sum_exp v) <$> (exp <$> v))).
  { by rewrite <- list_fmap_compose. }
  rewrite sum_R_fmap_div, Hs. field. lra.
Qed.

Lemma ln_10_pos : 0 < ln 10.
Proof. rewrite <- ln_1. apply ln_increasing; lra. Qed.



Lemma power10_0 : Np.power10 0 = 1.
Proof. apply Rpower_O. lra. Qed.

Lemma power10_pos x : 0 < Np.power10 x.
Proof. apply exp_pos. Qed.



End Numerics.

(** ** Index arrays *)

Section TakeIdx.
Context {A : Type}.
Implicit Types (xs : list A) (idx : list nat).
Local Open Scope nat_scope.

Lemma take_idx_Ret xs idx vals :
  Np.take_idx xs idx = Ret vals ↔ Forall2 (λ j x, xs !! j = Some x) idx vals.
Proof.
  revert vals. induction idx as [|j idx IH]; intros vals; simpl.
  - split; [intros [= <-]; constructor|by intros ->%Forall2_nil_inv_l].
  - destruct (xs !! j) as [x|] eqn:Hj; simpl.
    + destruct (Np.take_idx xs idx) as [r|e]; simpl.
      * split.
        -- intros [= <-]. constructor; [done|]. by apply IH.
        -- intros (y & r' & Hy & Hr & ->)%Forall2_cons_inv_l.
           apply IH in Hr. by simplify_eq.
      * split; [done|].
        intros (y & r' & Hy & Hr & ->)%Forall2_cons_inv_l.
        by apply IH in Hr.
    + split; [done|].
      intros (y & r' & Hy & Hr & ->)%Forall2_cons_inv_l. by simplify_eq.
Qed.

Lemma take_idx_defined xs idx :
  Forall (λ j, j < length xs) idx → ∃ vals, Np.take_idx xs idx = Ret vals.
Proof.
  induction 1 as [|j idx Hj _ [r IH]]; simpl; [by eexists|].
  destruct (lookup_lt_is_Some_2 xs j Hj) as [x ->]. simpl.
  rewrite IH. by eexists.
Qed.

Lemma take_idx_omap xs idx vals :
  Np.take_idx xs idx = Ret vals → vals = omap (λ j, xs !! j) idx.
Proof.
  intros Hv%take_idx_Ret.
  induction Hv as [|j x idx vals Hj _ IH]; simpl; [done|].
  by rewrite Hj, IH.
Qed.

Lemma omap_lookup_seq pre xs :
  omap (λ j, (pre ++ xs) !! j) (seq (length pre) (length xs)) = xs.
Proof.
  revert pre. induction xs as [|x xs IH]; intros pre; simpl; [done|].
  rewrite lookup_app_r, Nat.sub_diag by lia. simpl. f_equal.
  specialize (IH (pre ++ [x])).
  rewrite length_app, <- app_assoc in IH. simpl in IH.
  by rewrite Nat.add_1_r in IH.
Qed.

(** Reading a list along a listing of all its positions permutes it. *)
Lemma take_idx_Permutation xs idx vals :
  idx ≡ₚ seq 0 (length xs) → Np.take_idx xs idx = Ret vals → vals ≡ₚ xs.
Proof.
  intros Hp ->%take_idx_omap.
  trans (omap (λ j, xs !! j) (seq 0 (length xs))).
  - by apply omap_Permutation.
  - pose proof (omap_lookup_seq [] xs) as Hall. simpl in Hall. by rewrite Hall.
Qed.

End TakeIdx.

Lemma where_gt_spec (xs : list R) (thres : R) (s j : nat) :
  j ∈ Np.where_gt xs thres s ↔
  (s ≤ j)%nat ∧ ∃ x, xs !! (j - s)%nat = Some x ∧ (thres < x)%R.
Proof.
  revert s. induction xs as [|x xs IH]; intros s; simpl.
  - split; [by intros ?%elem_of_nil|by intros (_ & ? & ? & _)].
  - assert (j ∈ Np.where_gt xs thres (S s) ↔
            (s < j)%nat ∧ ∃ y, (x :: xs) !! (j - s)%nat = Some y ∧ (thres < y)%R)
      as Htail.
    { rewrite IH. split.
      - intros (Hs & y & Hy & Hlt). split; [lia|]. exists y. split; [|done].
        replace (j - s)%nat with (S (j - S s)) by lia. done.
      - intros (Hs & y & Hy & Hlt). split; [lia|]. exists y. split; [|done].
        replace (j - s)%nat with (S (j - S s)) in Hy by lia. done. }
    destruct (Rlt_dec thres x) as [Hx|Hx].
    + rewrite elem_of_cons, Htail. split.
      * intros [->|(Hs & y & Hy & Hlt)].
        -- split; [lia|]. exists x. by rewrite Nat.sub_diag.
        -- split; [lia|]. eauto.
      * intros (Hs & y & Hy & Hlt).
        destruct (decide (j = s)) as [->|Hne]; [by left|right].
        split; [lia|]. eauto.
    + rewrite Htail. split.
      * intros (Hs & y & Hy & Hlt). split; [lia|]. eauto.
      * intros (Hs & y & Hy & Hlt).
        destruct (decide (j = s)) as [->|Hne].
        -- rewrite Nat.sub_diag in Hy. simpl in Hy. by simplify_eq.
        -- split; [lia|]. eauto.
Qed.

(** ** The best [k] predictions *)

Section TopK.
Context `{G : Globals}.
Hypothesis Hpart : argpartition_contract.
Hypothesis Hsort : argsort_contract.
Local Open Scope nat_scope.

Lemma sorted_top_indexes_spec (probs : list R) (k : nat) :
  k ≤ length probs → 0 < length probs →
  ∃ part sorted,
    argpartition probs (- Z.of_nat k) = Some part ∧
    part ≡ₚ seq 0 (length probs) ∧
    (∀ p j jk x xk,
       part !! p = Some j → part !! cut (length probs) k = Some jk →
       probs !! j = Some x → probs !! jk = Some xk →
       (p < cut (length probs) k → (x <= xk)%R) ∧
       (cut (length probs) k < p → (xk <= x)%R)) ∧
    sorted_top_indexes probs (Z.of_nat k) = Ret sorted ∧
    sorted ≡ₚ drop (cut (length probs) k) part ∧
    (∀ p q i j x y,
       p ≤ q → sorted !! p = Some i → sorted !! q = Some j →
       probs !! i = Some x → probs !! j = Some y → (y <= x)%R).
Proof.
  intros Hk Hn. unfold sorted_top_indexes.
  pose proof (Hpart probs (- Z.of_nat k)) as Hp. simpl in Hp.
  set (n := length probs) in *.
  assert ((if (- Z.of_nat k <? 0)%Z then (- Z.of_nat k + Z.of_nat n)%Z
           else (- Z.of_nat k)%Z) = Z.of_nat (cut n k)) as Hk'.
  { unfold cut. destruct (decide (k = 0)) as [->|Hne]; [done|].
    destruct (Z.ltb_spec (- Z.of_nat k) 0); lia. }
  rewrite Hk' in Hp.
  destruct Hp as (part & Hpart_eq & Hperm & Hprop).
  { unfold cut. destruct (decide (k = 0)); lia. }
  rewrite Nat2Z.id in Hprop.
  assert (length part = n) as Hlen.
  { by rewrite Hperm, length_seq. }
  rewrite Hpart_eq. simpl.
  assert (Py.getslice_from part (- Z.of_nat k) = drop (cut n k) part) as ->.
  { unfold cut. destruct (decide (k = 0)) as [->|Hne]; [done|].
    rewrite getslice_from_neg by lia. by rewrite Hlen. }
  set (top := drop (cut n k) part).
  assert (Forall (λ j, j < n) top) as Htop.
  { apply Forall_forall. intros j Hj.
    assert (j ∈ part) as Hj'
      by (eapply elem_of_submseteq; [exact Hj|apply submseteq_drop]).
    rewrite Hperm in Hj'. apply elem_of_seq in Hj'. lia. }
  destruct (take_idx_defined probs top Htop) as [vals Hvals].
  rewrite Hvals. simpl.
  pose proof Hvals as Hf2%take_idx_Ret.
  destruct (Hsort (Ropp <$> vals)) as [Hoperm Hosort].
  rewrite length_fmap, <- (Forall2_length _ _ _ Hf2) in Hoperm.
  destruct (take_idx_defined top (argsort (Ropp <$> vals))) as [sorted Hsorted].
  { apply Forall_forall. intros o Ho. rewrite Hoperm in Ho.
    apply elem_of_seq in Ho. lia. }
  exists part, sorted. split_and!; try done.
  - by eapply take_idx_Permutation.
  - intros p q i j x y Hpq Hi Hj Hx Hy.
    apply take_idx_Ret in Hsorted.
    destruct (Forall2_lookup_r _ _ _ _ _ Hsorted Hi) as (o1 & Ho1 & Ht1).
    destruct (Forall2_lookup_r _ _ _ _ _ Hsorted Hj) as (o2 & Ho2 & Ht2).
    destruct (Forall2_lookup_l _ _ _ _ _ Hf2 Ht1) as (x' & Hx' & Hpx).
    destruct (Forall2_lookup_l _ _ _ _ _ Hf2 Ht2) as (y' & Hy' & Hpy).
    simplify_eq.
    assert (- x <= - y)%R; [|lra].
    eapply (Hosort p q o1 o2); [done..| |];
      by rewrite list_lookup_fmap; (rewrite Hx' || rewrite Hy').
Qed.

End TopK.

(** ** The concrete instance satisfies the assumptions on the oracles *)

Section ToyFacts.
Import Toy.
Local Open Scope nat_scope.

Lemma StronglySorted_lookup {A} (Rel : relation A) (l : list A) p q x y :
  StronglySorted Rel l → p < q → l !! p = Some x → l !! q = Some y → Rel x y.
Proof.
  intros Hs. revert p q. induction Hs as [|a l Hs IH Hall]; intros p q Hpq Hp Hq.
  - done.
  - destruct q as [|q]; [lia|]. simpl in Hq. destruct p as [|p]; simpl in Hp.
    + simplify_eq. rewrite Forall_forall in Hall. apply Hall.
      by eapply list_elem_of_lookup_2.
    + eapply (IH p q); [lia|done..].
Qed.

Lemma ref_argsort_sorted (a : list R) :
  StronglySorted (λ i j, (key a i <= key a j)%R) (ref_argsort a).
Proof.
  assert (Transitive (λ i j, (key a i <= key a j)%R))
    by (intros i j l; apply Rle_trans).
  assert (Total (λ i j, (key a i <= key a j)%R)).
  { intros i j. destruct (Rle_dec (key a i) (key a j)); [by left|right; lra]. }
  apply (StronglySorted_merge_sort _).
Qed.

Lemma ref_argsort_ordered (a : list R) p q i j x y :
  p ≤ q → ref_argsort a !! p = Some i → ref_argsort a !! q = Some j →
  a !! i = Some x → a !! j = Some y → (x <= y)%R.
Proof.
  intros Hpq Hi Hj Hx Hy.
  destruct (decide (p = q)) as [->|Hne]; [simplify_eq; lra|].
  pose proof (StronglySorted_lookup _ _ p q i j (ref_argsort_sorted a)) as Hs.
  unfold key in Hs. rewrite Hx, Hy in Hs. simpl in Hs. apply Hs; [lia|done..].
Qed.

Lemma toy_argsort_contract : argsort_contract.
Proof.
  intros a. split.
  - apply merge_sort_Permutation.
  - apply ref_argsort_ordered.
Qed.

Lemma toy_argpartition_contract : argpartition_contract.
Proof.
  intros a kth n k' Hb. simpl. unfold ref_argpartition. fold n. fold k'.
  rewrite bool_decide_eq_true_2 by done.
  exists (ref_argsort a). split_and!; [done|apply merge_sort_Permutation|].
  intros p j jk x xk Hj Hjk Hx Hxk. split; intros Hlt.
  - eapply (ref_argsort_ordered a p (Z.to_nat k')); [lia|done..].
  - eapply (ref_argsort_ordered a (Z.to_nat k') p); [lia|done..].
Qed.

Lemma position_bound t l p : position t l = Some p → p < length l.
Proof.
  revert p. induction l as [|x l IH]; intros p; simpl; [done|].
  destruct (String.eqb x t); [intros [= <-]; lia|].
  destruct (position t l) as [q|]; simpl; [|done].
  intros [= <-]. specialize (IH q eq_refl). lia.
Qed.

Lemma toy_globals_ok : globals_ok 7.
Proof.
  split.
  - intros ids. apply length_fmap.
  - intros ids v (id & -> & _)%list_elem_of_fmap.
    unfold one_hot. by rewrite length_fmap, length_seq.
  - intros t. simpl. unfold token_id.
    destruct (position t vocab) as [p|] eqn:Hp; simpl; [|lia].
    by apply position_bound in Hp.
  - apply toy_argpartition_contract.
  - apply toy_argsort_contract.
Qed.

End ToyFacts.

(** ** Notebook 1: padding and attention mask *)

Section Padding.
Local Open Scope nat_scope.

Lemma padding_cell_Ret (input_ids : list (list nat)) tok_MASK mp padded att :
  padding_cell input_ids tok_MASK = Ret (mp, padded, att) →
  ∃ m, max_len input_ids = Ret m ∧
       padded = (λ s, s ++ replicate (m - length s) 0) <$> input_ids ∧
       att = attention_mask padded.
Proof.
  unfold padding_cell, padded_input.
  destruct (mask_positions input_ids tok_MASK) as [mp'|]; simpl; [|done].
  destruct (max_len input_ids) as [m|]; simpl; [|done].
  intros [= <- <- <-]. eauto.
Qed.

(** The cell runs to its end on a non-empty batch in which every
    sentence holds the mask token. *)
Lemma padding_cell_defined (input_ids : list (list nat)) tok_MASK :
  input_ids ≠ [] → Forall (λ s, tok_MASK ∈ s) input_ids →
  ∃ r, padding_cell input_ids tok_MASK = Ret r.
Proof.
  intros Hne Hall. unfold padding_cell, padded_input, max_len.
  assert (∃ mp, mask_positions input_ids tok_MASK = Ret mp) as [mp ->].
  { clear Hne. induction Hall as [|s l Hs _ [mp IH]]; simpl; [by eexists|].
    destruct (index_defined s tok_MASK Hs) as [p ->]. simpl.
    rewrite IH. by eexists. }
  destruct input_ids as [|s l]; [done|]. simpl. by eexists.
Qed.

Lemma where_nonzero_lookup (row : list nat) j x :
  row !! j = Some x →
  Np.where_nonzero row !! j = Some (if decide (x = 0) then 0 else 1).
Proof.
  intros Hx. unfold Np.where_nonzero. rewrite list_lookup_fmap, Hx. simpl.
  destruct (Nat.eqb_spec x 0); by case_decide.
Qed.

End Padding.

(** C9. After the padding step every row of [padded_input] has the length
    [max_len], the largest length of the original id lists; a row is its
    original list followed by zeros; [attention_mask] has the same shape,
    holds 1 exactly where the padded id is not 0 and 0 elsewhere, and so
    it is 0 on every padding position. *)
Theorem padding_rows_and_attention_mask
    (input_ids : list (list nat)) (tok_MASK : nat) mp padded att :
  padding_cell input_ids tok_MASK = Ret (mp, padded, att) →
  ∃ m : nat,
    max_len input_ids = Ret m ∧
    m ∈ (length <$> input_ids) ∧
    (∀ s, s ∈ input_ids → (length s ≤ m)%nat) ∧
    Forall (λ row, length row = m) padded ∧
    Forall (λ row, length row = m) att ∧
    length att = length padded ∧
    Forall2 (λ s row, row = s ++ replicate (m - length s) 0%nat) input_ids padded ∧
    (∀ r j x, entry padded r j = Some x →
              entry att r j = Some (if decide (x = 0%nat) then 0%nat else 1%nat)) ∧
    (∀ r j s, input_ids !! r = Some s → (length s ≤ j < m)%nat →
              entry padded r j = Some 0%nat ∧ entry att r j = Some 0%nat).
Proof.
  intros (m & Hm & -> & ->)%padding_cell_Ret.
  exists m. pose proof Hm as [Hin Hle]%max_spec.
  assert (∀ s, s ∈ input_ids → (length s ≤ m)%nat) as Hle'.
  { intros s Hs. apply Hle. by apply list_elem_of_fmap_2. }
  assert (∀ r j x,
    entry ((λ s, s ++ replicate (m - length s) 0%nat) <$> input_ids) r j = Some x →
    entry (attention_mask ((λ s, s ++ replicate (m - length s) 0%nat) <$> input_ids)) r j
    = Some (if decide (x = 0%nat) then 0%nat else 1%nat)) as Hatt.
  { intros r j x. unfold entry, attention_mask.
    rewrite !list_lookup_fmap.
    destruct (input_ids !! r) as [s|]; simpl; [|done].
    apply where_nonzero_lookup. }
  split_and!; try done.
  - apply Forall_fmap, Forall_forall. intros s Hs. simpl.
    rewrite length_app, length_replicate. specialize (Hle' s Hs). lia.
  - unfold attention_mask. rewrite <- list_fmap_compose.
    apply Forall_fmap, Forall_forall. intros s Hs. simpl.
    unfold Np.where_nonzero.
    rewrite length_fmap, length_app, length_replicate. specialize (Hle' s Hs). lia.
  - unfold attention_mask. by rewrite length_fmap.
  - apply Forall2_fmap_r, Forall_Forall2_diag, Forall_forall. done.
  - intros r j s Hs Hj.
    assert (entry ((λ s, s ++ replicate (m - length s) 0%nat) <$> input_ids) r j
            = Some 0%nat) as Hpad.
    { unfold entry. rewrite list_lookup_fmap, Hs. simpl.
      rewrite lookup_app_r by lia. apply lookup_replicate_2. lia. }
    split; [done|]. by rewrite (Hatt _ _ _ Hpad).
Qed.

Lemma padding_rows_and_attention_mask_witness :
  ∃ m : nat,
    max_len [[101; 7; 103; 102]; [101; 103; 102]]%nat = Ret m ∧
    m ∈ (length <$> [[101; 7; 103; 102]; [101; 103; 102]]%nat) ∧
    (∀ s, s ∈ [[101; 7; 103; 102]; [101; 103; 102]]%nat → (length s ≤ m)%nat) ∧
    Forall (λ row, length row = m) [[101; 7; 103; 102]; [101; 103; 102; 0]]%nat ∧
    Forall (λ row, length row = m) [[1; 1; 1; 1]; [1; 1; 1; 0]]%nat ∧
    length [[1; 1; 1; 1]; [1; 1; 1; 0]]%nat
      = length [[101; 7; 103; 102]; [101; 103; 102; 0]]%nat ∧
    Forall2 (λ s row, row = s ++ replicate (m - length s) 0%nat)
      [[101; 7; 103; 102]; [101; 103; 102]]%nat
      [[101; 7; 103; 102]; [101; 103; 102; 0]]%nat ∧
    (∀ r j x, entry [[101; 7; 103; 102]; [101; 103; 102; 0]]%nat r j = Some x →
              entry [[1; 1; 1; 1]; [1; 1; 1; 0]]%nat r j
              = Some (if decide (x = 0%nat) then 0%nat else 1%nat)) ∧
    (∀ r j s, [[101; 7; 103; 102]; [101; 103; 102]]%nat !! r = Some s →
              (length s ≤ j < m)%nat →
              entry [[101; 7; 103; 102]; [101; 103; 102; 0]]%nat r j = Some 0%nat ∧
              entry [[1; 1; 1; 1]; [1; 1; 1; 0]]%nat r j = Some 0%nat).
Proof.
  apply (padding_rows_and_attention_mask
           [[101; 7; 103; 102]; [101; 103; 102]]%nat 103%nat [2; 1]%nat).
  reflexivity.
Defined.

(** ** Notebook 1: [get_top_predictions] *)

Section TopPredictions.
Context `{G : Globals}.
Hypothesis Hpart : argpartition_contract.
Hypothesis Hsort : argsort_contract.
Local Open Scope nat_scope.

(** On a non-empty [probs] and [0 <= k <= len(probs)] the function
    returns; [sorted] are the positions behind its first component. *)
Lemma get_top_predictions_run (probs : list R) (k : nat) (thres : R) st :
  k ≤ length probs → 0 < length probs →
  ∃ sorted vals,
    sorted_top_indexes probs (Z.of_nat k) = Ret sorted ∧
    get_top_predictions probs (Z.of_nat k) thres st
    = (Ret (convert_ids_to_tokens sorted,
            convert_ids_to_tokens (Np.where_gt probs thres 0)),
       State (heap st)
         (trace st ++
          [Print [PStr "Ordered top predicted tokens: ";
                  PTokens (convert_ids_to_tokens sorted)];
           Print [PStr "Ordered top predicted values: "; PReals vals;
                  PStr "\n"]])).
Proof.
  intros Hk Hn.
  destruct (sorted_top_indexes_spec Hpart Hsort probs k Hk Hn)
    as (part & sorted & _ & Hperm & _ & Hrun & Hsp & _).
  destruct (take_idx_defined probs sorted) as [vals Hvals].
  { apply Forall_forall. intros j Hj. rewrite Hsp in Hj.
    assert (j ∈ part) as Hj'
      by (eapply elem_of_submseteq; [exact Hj|apply submseteq_drop]).
    rewrite Hperm in Hj'. apply elem_of_seq in Hj'. lia. }
  exists sorted, vals. split; [done|].
  unfold get_top_predictions, bind, lift, print, emit, ret.
  rewrite Hrun. simpl. rewrite Hvals. simpl.
  by rewrite <- app_assoc.
Qed.

(** With [1 <= k <= len(probs)] the first component lists [k] distinct
    positions by non-increasing probability, none of the positions left
    out has a larger probability than a listed one, and the second
    component lists exactly the positions above the threshold. *)
Lemma get_top_predictions_top_k (probs : list R) (k : nat) (thres : R) st :
  1 ≤ k ≤ length probs →
  ∃ sorted st',
    get_top_predictions probs (Z.of_nat k) thres st
    = (Ret (convert_ids_to_tokens sorted,
            convert_ids_to_tokens (Np.where_gt probs thres 0)), st') ∧
    length sorted = k ∧ NoDup sorted ∧
    Forall (λ j, j < length probs) sorted ∧
    (∀ p q i j x y,
       p ≤ q → sorted !! p = Some i → sorted !! q = Some j →
       probs !! i = Some x → probs !! j = Some y → (y <= x)%R) ∧
    (∀ i j x y,
       i ∈ sorted → j ∉ sorted →
       probs !! i = Some x → probs !! j = Some y → (y <= x)%R) ∧
    (∀ j, j ∈ Np.where_gt probs thres 0 ↔
          ∃ x, probs !! j = Some x ∧ (thres < x)%R).
Proof.
  intros [Hk1 Hk].
  destruct (get_top_predictions_run probs k thres st) as (sorted & vals & Hs & Hrun);
    [lia..|].
  destruct (sorted_top_indexes_spec Hpart Hsort probs k)
    as (part & sorted' & _ & Hperm & Hprop & Hrun' & Hsp & Hdesc); [lia..|].
  rewrite Hs in Hrun'. simplify_eq.
  assert (cut (length probs) k = length probs - k) as Hcut.
  { unfold cut. case_decide; lia. }
  rewrite Hcut in *.
  assert (length part = length probs) as Hlen by (by rewrite Hperm, length_seq).
  eexists _, _. split_and!; [done|..].
  - rewrite Hsp, length_drop. lia.
  - rewrite Hsp. eapply sublist_NoDup; [|apply sublist_drop].
    rewrite Hperm. apply NoDup_seq.
  - apply Forall_forall. intros j Hj. rewrite Hsp in Hj.
    assert (j ∈ part) as Hj'
      by (eapply elem_of_submseteq; [exact Hj|apply submseteq_drop]).
    rewrite Hperm in Hj'. apply elem_of_seq in Hj'. lia.
  - done.
  - intros i j x y Hi Hj Hx Hy.
    rewrite Hsp in Hi, Hj.
    apply list_elem_of_lookup in Hi as [p Hp]. rewrite lookup_drop in Hp.
    assert (j ∈ part) as [q Hq]%list_elem_of_lookup.
    { rewrite Hperm. apply elem_of_seq. apply lookup_lt_Some in Hy. lia. }
    assert (q < length probs - k) as Hqc.
    { destruct (decide (q < length probs - k)) as [|Hge]; [done|].
      exfalso. apply Hj. apply list_elem_of_lookup.
      exists (q - (length probs - k)). rewrite lookup_drop.
      by replace (length probs - k + (q - (length probs - k))) with q by lia. }
    destruct (lookup_lt_is_Some_2 part (length probs - k)) as [jk Hjk]; [lia|].
    destruct (lookup_lt_is_Some_2 probs jk) as [xk Hxk].
    { assert (jk ∈ part) as Hin by (by eapply list_elem_of_lookup_2).
      rewrite Hperm in Hin. apply elem_of_seq in Hin. lia. }
    destruct (Hprop _ _ _ _ _ Hq Hjk Hy Hxk) as [Hlow _].
    destruct (Hprop _ _ _ _ _ Hp Hjk Hx Hxk) as [_ Hhigh].
    specialize (Hlow Hqc).
    destruct (decide (p = 0)) as [->|Hp0].
    + rewrite Nat.add_0_r in Hp. by simplify_eq.
    + etrans; [exact Hlow|]. apply Hhigh. lia.
  - intros j. rewrite where_gt_spec, Nat.sub_0_r. split.
    + by intros [_ ?].
    + intros ?. split; [lia|done].
Qed.

(** With [k = 0] the slice [[-k:]] is the whole array: every position of
    [probs] is returned. *)
Lemma get_top_predictions_zero (probs : list R) (thres : R) st :
  0 < length probs →
  ∃ sorted st',
    get_top_predictions probs 0 thres st
    = (Ret (convert_ids_to_tokens sorted,
            convert_ids_to_tokens (Np.where_gt probs thres 0)), st') ∧
    sorted ≡ₚ seq 0 (length probs) ∧
    (∀ p q i j x y,
       p ≤ q → sorted !! p = Some i → sorted !! q = Some j →
       probs !! i = Some x → probs !! j = Some y → (y <= x)%R).
Proof.
  intros Hn.
  destruct (get_top_predictions_run probs 0 thres st) as (sorted & vals & Hs & Hrun);
    [lia..|].
  destruct (sorted_top_indexes_spec Hpart Hsort probs 0)
    as (part & sorted' & _ & Hperm & _ & Hrun' & Hsp & Hdesc); [lia..|].
  simpl in *. rewrite Hs in Hrun'. simplify_eq.
  eexists _, _. split_and!; [done| |done].
  by rewrite Hsp, <- Hperm.
Qed.

End TopPredictions.

(** On the same [probs], [k = 1] gives the single best token. *)
Lemma get_top_predictions_k_one :
  ∃ st',
    get_top_predictions (G := Toy.globals) [0.2; 0.8]%R 1 0.5%R Toy.start
    = (Ret (["[SEP]"]%string, ["[SEP]"]%string), st').
Proof.
  destruct (get_top_predictions_top_k (G := Toy.globals)
              toy_argpartition_contract toy_argsort_contract
              [0.2; 0.8]%R 1 0.5%R Toy.start)
    as (sorted & st' & Hrun & Hlen & _ & Hrange & _ & Htop & _); [simpl; lia|].
  exists st'. change (Z.of_nat 1) with 1%Z in Hrun. rewrite Hrun. repeat f_equal.
  - destruct sorted as [|j [|? ?]]; simplify_eq/=.
    apply Forall_cons in Hrange as [Hj _]. simpl in Hj.
    destruct j as [|[|j]]; [|done|lia].
    exfalso. assert (0.8 <= 0.2)%R; [|lra].
    apply (Htop 0 1)%nat; [by left| |done..].
    by intros ?%list_elem_of_singleton.
  - simpl. destruct (Rlt_dec 0.5 0.2) as [?|_]; [lra|].
    destruct (Rlt_dec 0.5 0.8) as [_|?]; [|lra]. reflexivity.
Qed.

(** C8 (the code misses the case [k = 0]).  On [probs = [0.2, 0.8]] and
    [k = 0] the first component of [get_top_predictions] holds both
    tokens, the more probable one first, where the [k] best tokens would
    be none: the slice [[-k:]] of the partitioned positions is the whole
    array when [k] is [0]. *)
Theorem get_top_predictions_k_zero_returns_all :
  ∃ st',
    get_top_predictions (G := Toy.globals) [0.2; 0.8]%R 0 0.5%R Toy.start
    = (Ret (["[SEP]"; "[CLS]"]%string, ["[SEP]"]%string), st').
Proof.
  destruct (get_top_predictions_zero (G := Toy.globals)
              toy_argpartition_contract toy_argsort_contract
              [0.2; 0.8]%R 0.5%R Toy.start)
    as (sorted & st' & Hrun & Hperm & Hdesc); [simpl; lia|].
  exists st'. rewrite Hrun. repeat f_equal.
  - simpl in Hperm. symmetry in Hperm.
    apply Permutation_length_2_inv in Hperm as [->| ->].
    + exfalso.
      assert (0.8 <= 0.2)%R; [|lra].
      by apply (Hdesc 0 1 0 1)%nat; [lia|..].
    + reflexivity.
  - simpl. destruct (Rlt_dec 0.5 0.2) as [?|_]; [lra|].
    destruct (Rlt_dec 0.5 0.8) as [_|?]; [|lra]. reflexivity.
Qed.

(** ** Runs that do not depend on the state *)

Section Uniform.
Context (sm : list R → list R) (toks : list string).

Lemma uniform_ret {A} (a : A) (Q : A → Prop) :
  Q a → uniform sm toks (λ _, ret a) Q.
Proof.
  intros HQ. exists (Ret a), []. split_and!; [done|by intros ? [= <-]|].
  intros l st Hl. exists (heap st). rewrite app_nil_r. by destruct st.
Qed.

Lemma uniform_lift {A} (o : outcome A) (Q : A → Prop) :
  (∀ a, o = Ret a → Q a) → uniform sm toks (λ _, lift o) Q.
Proof.
  intros HQ. exists o, []. split_and!; [done..|].
  intros l st Hl. exists (heap st). rewrite app_nil_r. by destruct st.
Qed.

Lemma uniform_emit (e : event) :
  ev_safe sm e → uniform sm toks (λ _, emit e) (λ _, True).
Proof.
  intros He. exists (Ret tt), [e]. split_and!; [by constructor|done|].
  intros l st Hl. by exists (heap st).
Qed.

Lemma uniform_print items : uniform sm toks (λ _, print items) (λ _, True).
Proof. by apply uniform_emit. Qed.

Lemma uniform_deref : uniform sm toks deref (λ v, v = toks).
Proof.
  exists (Ret toks), []. split_and!; [done|by intros ? [= <-]|].
  intros l st Hl. exists (heap st). unfold deref. rewrite Hl, app_nil_r.
  by destruct st.
Qed.

Lemma uniform_bind {A B} (m : loc → M A) (f : loc → A → M B)
    (Q : A → Prop) (Q' : B → Prop) :
  uniform sm toks m Q →
  (∀ a, Q a → uniform sm toks (λ l, f l a) Q') →
  uniform sm toks (λ l, bind (m l) (f l)) Q'.
Proof.
  intros (o1 & evs1 & Hs1 & HQ1 & Hrun1) Hf. destruct o1 as [a|e].
  - destruct (Hf a (HQ1 a eq_refl)) as (o2 & evs2 & Hs2 & HQ2 & Hrun2).
    exists o2, (evs1 ++ evs2). split_and!; [by apply Forall_app|done|].
    intros l st Hl. destruct (Hrun1 l st Hl) as (h1 & Hm & Hl1).
    destruct (Hrun2 l (State h1 (trace st ++ evs1))) as (h2 & Hk & Hl2).
    { by eapply lookup_weaken. }
    exists h2. unfold bind. rewrite Hm, Hk. simpl. rewrite app_assoc.
    split; [done|]. by etrans.
  - exists (Raise e), evs1. split_and!; [done..|].
    intros l st Hl. destruct (Hrun1 l st Hl) as (h1 & Hm & Hl1).
    exists h1. unfold bind. by rewrite Hm.
Qed.

Lemma uniform_when (b : bool) (m : loc → M unit) :
  uniform sm toks m (λ _, True) →
  uniform sm toks (λ l, when b (m l)) (λ _, True).
Proof. destruct b; [done|]. intros _. by apply uniform_ret. Qed.

Lemma uniform_for_each {X S} (xs : list X) (body : loc → X → S → M S)
    (Inv : S → Prop) :
  (∀ x s, Inv s → uniform sm toks (λ l, body l x s) Inv) →
  ∀ s, Inv s → uniform sm toks (λ l, for_each xs (body l) s) Inv.
Proof.
  intros Hbody. induction xs as [|x xs IH]; intros s Hs; simpl.
  - by apply uniform_ret.
  - eapply (uniform_bind (λ l, body l x s) (λ l, for_each xs (body l))); eauto.
Qed.

End Uniform.

(** ** Stepping through notebook code *)

Section Steps.
Context {A B : Type}.
Implicit Types (f : A → M B) (st : state).

Lemma bind_ret (a : A) f st : bind (ret a) f st = f a st.
Proof. done. Qed.

Lemma bind_lift_Ret (a : A) f st : bind (lift (Ret a)) f st = f a st.
Proof. done. Qed.

Lemma bind_lift_Raise e f st : bind (lift (Raise e)) f st = (Raise e, st).
Proof. done. Qed.

Lemma bind_run_Ret (m : M A) f st a st' :
  m st = (Ret a, st') → bind m f st = f a st'.
Proof. unfold bind. by intros ->. Qed.

Lemma bind_assoc {C} (m : M C) (g : C → M A) f st :
  bind (bind m g) f st = bind m (λ c, bind (g c) f) st.
Proof. unfold bind. by destruct (m st) as [[c|e] st']. Qed.

End Steps.

Section HeapSteps.
Context {B : Type}.
Implicit Types (st : state).

Lemma bind_deref l v (f : list string → M B) st :
  heap st !! l = Some v → bind (deref l) f st = f v st.
Proof. unfold bind, deref. by intros ->. Qed.

Lemma bind_alloc v (f : loc → M B) st :
  bind (alloc v) f st
  = f (fresh (dom (heap st)))
      (State (<[fresh (dom (heap st)) := v]> (heap st)) (trace st)).
Proof. done. Qed.

Lemma bind_modify l v g (f : unit → M B) st :
  heap st !! l = Some v →
  bind (modify l g) f st = f tt (State (<[l := g v]> (heap st)) (trace st)).
Proof. unfold bind, modify. by intros ->. Qed.

Lemma bind_emit e (f : unit → M B) st :
  bind (emit e) f st = f tt (State (heap st) (trace st ++ [e])).
Proof. done. Qed.

Lemma bind_print items (f : unit → M B) st :
  bind (print items) f st = f tt (State (heap st) (trace st ++ [Print items])).
Proof. done. Qed.

End HeapSteps.

Lemma fresh_loc_ne (h : gmap loc (list string)) l v :
  h !! l = Some v → l ≠ fresh (dom h).
Proof.
  intros Hl ->. apply (is_fresh (dom h)). apply elem_of_dom. by eexists.
Qed.

(** ** [print_top_predictions] and [get_directional_prob] *)

Section Directional.
Context `{G : Globals}.
Context (sm : list R → list R) (toks : list string).

Lemma uniform_print_top_predictions probs k :
  uniform sm toks (λ _, print_top_predictions probs k) (λ _, True).
Proof.
  unfold print_top_predictions.
  eapply uniform_bind; [by apply (uniform_lift _ _ _ (λ _, True))|].
  intros sorted _.
  eapply uniform_bind; [apply uniform_print|]. intros _ _.
  eapply uniform_bind; [by apply (uniform_lift _ _ _ (λ _, True))|].
  intros vals _. apply uniform_print.
Qed.

(** What [get_directional_prob] does once the masked tokens [cur] are
    read back: it does not touch the heap any more. *)
Lemma uniform_predict (cur : list string) (i : Z) (verbose : bool) :
  uniform sm toks
    (λ _, emit (ModelCall (convert_tokens_to_ids cur));~
          logits <~ lift (Py.getitem (model (convert_tokens_to_ids cur)) i);
          emit (SmCall logits);~
          when verbose (print_top_predictions (sm logits) 5);~
          ret (sm logits))
    (λ probs, ∃ logits, probs = sm logits).
Proof.
  eapply uniform_bind; [by apply uniform_emit|]. intros _ _.
  eapply uniform_bind; [by apply (uniform_lift _ _ _ (λ _, True))|].
  intros logits _.
  eapply uniform_bind; [by apply uniform_emit|]. intros _ _.
  eapply uniform_bind;
    [apply uniform_when, uniform_print_top_predictions|].
  intros _ _. apply uniform_ret. by eexists.
Qed.

Lemma gdp_to_predict l i d verbose st :
  heap st !! l = Some toks →
  String.eqb d "backwards" || String.eqb d "forward" = true →
  get_directional_prob sm l i d verbose st
  = (emit (ModelCall (convert_tokens_to_ids (shown toks d i)));~
     logits <~ lift (Py.getitem (model (convert_tokens_to_ids (shown toks d i))) i);
     emit (SmCall logits);~
     when verbose (print_top_predictions (sm logits) 5);~
     ret (sm logits))
      (State (<[fresh (dom (heap st)) := shown toks d i]> (heap st))
         (trace st ++
          if verbose then [Print []; Print [PTokens (shown toks d i)]] else [])).
Proof.
  intros Hl Hd. unfold get_directional_prob.
  rewrite (bind_deref _ _ _ _ Hl), bind_alloc.
  set (l' := fresh (dom (heap st))).
  assert (l ≠ l') as Hne by (by eapply fresh_loc_ne).
  unfold shown.
  destruct (String.eqb d "backwards") eqn:Hb.
  - rewrite (bind_modify l' toks) by apply lookup_insert_eq.
    simpl heap. simpl trace. rewrite insert_insert_eq.
    destruct verbose; simpl when.
    + rewrite bind_assoc, bind_print, bind_assoc.
      rewrite (bind_deref l' _) by apply lookup_insert_eq.
      rewrite bind_print. simpl heap. simpl trace.
      rewrite (bind_deref l' _) by apply lookup_insert_eq.
      by rewrite <- app_assoc.
    + rewrite bind_ret. rewrite (bind_deref l' _) by apply lookup_insert_eq.
      by rewrite app_nil_r.
  - simpl in Hd. rewrite Hd.
    rewrite bind_assoc.
    rewrite (bind_deref l toks) by (by simpl; rewrite lookup_insert_ne).
    rewrite (bind_modify l' toks) by apply lookup_insert_eq.
    simpl heap. simpl trace. rewrite insert_insert_eq.
    destruct verbose; simpl when.
    + rewrite bind_assoc, bind_print, bind_assoc.
      rewrite (bind_deref l' _) by apply lookup_insert_eq.
      rewrite bind_print. simpl heap. simpl trace.
      rewrite (bind_deref l' _) by apply lookup_insert_eq.
      by rewrite <- app_assoc.
    + rewrite bind_ret. rewrite (bind_deref l' _) by apply lookup_insert_eq.
      by rewrite app_nil_r.
Qed.

(** On any other [direction] the message is printed, the kernel is asked
    to shut down, and the function goes on with the unmasked copy. *)
Lemma gdp_bad_direction l i d verbose st :
  heap st !! l = Some toks →
  String.eqb d "backwards" || String.eqb d "forward" = false →
  get_directional_prob sm l i d verbose st
  = (emit (ModelCall (convert_tokens_to_ids toks));~
     logits <~ lift (Py.getitem (model (convert_tokens_to_ids toks)) i);
     emit (SmCall logits);~
     when verbose (print_top_predictions (sm logits) 5);~
     ret (sm logits))
      (State (<[fresh (dom (heap st)) := toks]> (heap st))
         (trace st ++
          [Print [PStr "Direction can only be 'forward' or 'backwards'"]; ExitCall]
          ++ if verbose then [Print []; Print [PTokens toks]] else [])).
Proof.
  intros Hl [Hb Hf]%orb_false_elim. unfold get_directional_prob.
  rewrite (bind_deref _ _ _ _ Hl), bind_alloc, Hb, Hf.
  set (l' := fresh (dom (heap st))).
  rewrite !bind_assoc, bind_print, bind_emit.
  simpl heap. simpl trace.
  destruct verbose; simpl when.
  - rewrite bind_assoc, bind_print, bind_assoc.
    rewrite (bind_deref l' _) by apply lookup_insert_eq.
    rewrite bind_print. simpl heap. simpl trace.
    rewrite (bind_deref l' _) by apply lookup_insert_eq.
    by rewrite <- !app_assoc.
  - rewrite bind_ret. rewrite (bind_deref l' _) by apply lookup_insert_eq.
    by rewrite app_nil_r, <- !app_assoc.
Qed.

Lemma uniform_get_directional_prob i d verbose :
  uniform sm toks (λ l, get_directional_prob sm l i d verbose)
    (λ probs, ∃ logits, probs = sm logits).
Proof.
  destruct (String.eqb d "backwards" || String.eqb d "forward") eqn:Hd.
  - destruct (uniform_predict (shown toks d i) i verbose)
      as (o & evs & Hs & HQ & Hrun).
    exists o, ((if verbose then [Print []; Print [PTokens (shown toks d i)]] else [])
               ++ evs).
    split_and!.
    + apply Forall_app. split; [|done]. destruct verbose; by repeat constructor.
    + done.
    + intros l st Hl. rewrite (gdp_to_predict _ _ _ _ _ Hl Hd).
      assert (l ≠ fresh (dom (heap st))) as Hne by (by eapply fresh_loc_ne).
      edestruct (Hrun l) as (h' & -> & Hl'); [|exists h'; split].
      * simpl. by rewrite lookup_insert_ne.
      * simpl. by rewrite app_assoc.
      * etrans; [|exact Hl']. simpl. apply insert_subseteq.
        apply not_elem_of_dom, is_fresh.
  - destruct (uniform_predict toks i verbose) as (o & evs & Hs & HQ & Hrun).
    exists o, (([Print [PStr "Direction can only be 'forward' or 'backwards'"];
                 ExitCall]
                ++ if verbose then [Print []; Print [PTokens toks]] else [])
               ++ evs).
    split_and!.
    + apply Forall_app. split; [|done].
      destruct verbose; by repeat constructor.
    + done.
    + intros l st Hl. rewrite (gdp_bad_direction _ _ _ _ _ Hl Hd).
      assert (l ≠ fresh (dom (heap st))) as Hne by (by eapply fresh_loc_ne).
      edestruct (Hrun l) as (h' & -> & Hl'); [|exists h'; split].
      * simpl. by rewrite lookup_insert_ne.
      * simpl. by rewrite <- !app_assoc.
      * etrans; [|exact Hl']. simpl. apply insert_subseteq.
        apply not_elem_of_dom, is_fresh.
Qed.

End Directional.

(** ** Runs on well-formed oracles *)

Section Success.
Context `{G : Globals} (V : nat).
Hypothesis Hok : globals_ok V.
Local Open Scope nat_scope.

Lemma calls_app evs1 evs2 : calls (evs1 ++ evs2) = calls evs1 ++ calls evs2.
Proof. apply filter_app. Qed.

Lemma print_top_predictions_success (probs : list R) st :
  5 ≤ length probs →
  ∃ evs, print_top_predictions probs 5 st
         = (Ret tt, State (heap st) (trace st ++ evs)) ∧
         calls evs = [].
Proof.
  intros Hn.
  destruct (sorted_top_indexes_spec (numpy_argpartition _ Hok)
              (numpy_argsort _ Hok) probs 5)
    as (part & sorted & _ & Hperm & _ & Hrun & Hsp & _); [lia..|].
  destruct (take_idx_defined probs sorted) as [vals Hvals].
  { apply Forall_forall. intros j Hj. rewrite Hsp in Hj.
    assert (j ∈ part) as Hj'
      by (eapply elem_of_submseteq; [exact Hj|apply submseteq_drop]).
    rewrite Hperm in Hj'. apply elem_of_seq in Hj'. lia. }
  eexists. unfold print_top_predictions. change 5%Z with (Z.of_nat 5).
  rewrite Hrun, bind_lift_Ret, bind_print, Hvals, bind_lift_Ret.
  unfold print, emit. simpl. rewrite <- app_assoc. done.
Qed.

Lemma head_logits_length d (toks : list string) i :
  i < length toks → length (head_logits d toks i) = V.
Proof.
  intros Hi. unfold head_logits.
  destruct (lookup_lt_is_Some_2
              (model (convert_tokens_to_ids (masked d toks i))) i) as [v Hv].
  { rewrite (model_rows _ Hok). unfold convert_tokens_to_ids.
    by rewrite length_fmap, length_masked. }
  rewrite Hv. simpl. eapply (model_cols _ Hok).
  by eapply list_elem_of_lookup_2.
Qed.

Lemma getitem_head_logits d (toks : list string) i :
  i < length toks →
  Py.getitem (model (convert_tokens_to_ids (masked d toks i))) (Z.of_nat i)
  = Ret (head_logits d toks i).
Proof.
  intros Hi. rewrite getitem_of_nat. unfold head_logits.
  destruct (lookup_lt_is_Some_2
              (model (convert_tokens_to_ids (masked d toks i))) i) as [v ->];
    [|done].
  rewrite (model_rows _ Hok). unfold convert_tokens_to_ids.
  by rewrite length_fmap, length_masked.
Qed.

Lemma shown_masked d (toks : list string) i :
  i < length toks →
  shown toks (direction_name d) (Z.of_nat i) = masked d toks i.
Proof.
  intros Hi. destruct d; unfold shown; simpl.
  - by apply setslice_forward.
  - by apply setslice_backwards.
Qed.

Lemma get_directional_prob_success d l (toks : list string) i verbose st :
  (verbose = true → 5 ≤ V) →
  heap st !! l = Some toks → i < length toks →
  ∃ h' evs,
    get_directional_prob Np.softmax l (Z.of_nat i) (direction_name d) verbose st
    = (Ret (Np.softmax (head_logits d toks i)),
       State h' (trace st ++ evs)) ∧
    heap st ⊆ h' ∧
    calls evs = [ModelCall (convert_tokens_to_ids (masked d toks i));
                 SmCall (head_logits d toks i)].
Proof.
  intros Hv Hl Hi.
  rewrite (gdp_to_predict _ _ _ _ _ _ _ Hl) by (by destruct d).
  rewrite shown_masked by done.
  rewrite bind_emit, getitem_head_logits, bind_lift_Ret, bind_emit by done.
  simpl heap. simpl trace.
  assert (heap st ⊆ <[fresh (dom (heap st)) := masked d toks i]> (heap st))
    as Hsub by apply insert_subseteq, not_elem_of_dom, is_fresh.
  destruct verbose; simpl when.
  - edestruct print_top_predictions_success as (evs & Hp & Hc);
      [|erewrite bind_run_Ret by exact Hp].
    { rewrite length_softmax, head_logits_length by done. by apply Hv. }
    eexists _, _. split_and!; [|done|].
    + unfold ret. simpl. rewrite <- !app_assoc. done.
    + rewrite !calls_app, Hc. done.
  - rewrite bind_ret. eexists _, _. split_and!; [|done|].
    + unfold ret. rewrite <- !app_assoc. done.
    + done.
Qed.

Lemma getitem_token_prob d (toks : list string) i t :
  toks !! i = Some t →
  Py.getitem (Np.softmax (head_logits d toks i))
    (Z.of_nat (convert_token_to_id t))
  = Ret (token_prob d toks i).
Proof.
  intros Ht. rewrite getitem_of_nat. unfold token_prob. rewrite Ht. simpl.
  destruct (lookup_lt_is_Some_2 (Np.softmax (head_logits d toks i))
              (convert_token_to_id t)) as [p ->]; [|done].
  rewrite length_softmax, head_logits_length by (by eapply lookup_lt_Some).
  apply (vocab_bound _ Hok).
Qed.

Lemma token_prob_pos d (toks : list string) i :
  i < length toks → (0 < token_prob d toks i)%R.
Proof.
  intros Hi. destruct (lookup_lt_is_Some_2 toks i Hi) as [t Ht].
  pose proof (getitem_token_prob d toks i t Ht) as Hg.
  rewrite getitem_of_nat in Hg.
  destruct (Np.softmax (head_logits d toks i) !! convert_token_to_id t)
    as [p|] eqn:Hp; simpl in Hg; [|done].
  injection Hg as <-. eapply softmax_pos. by eapply list_elem_of_lookup_2.
Qed.

Lemma sentence_loop_body_success l (toks : list string) i verbose acc st :
  (verbose = true → 5 ≤ V) →
  heap st !! l = Some toks → i < length toks →
  ∃ h' evs,
    sentence_loop_body Np.softmax l (convert_tokens_to_ids toks) verbose
      (Z.of_nat i) acc st
    = (Ret ((acc.1 + Np.log10 (token_prob Forward toks i))%R,
            (acc.2 + Np.log10 (token_prob Backwards toks i))%R),
       State h' (trace st ++ evs)) ∧
    heap st ⊆ h' ∧
    calls evs = position_calls toks i.
Proof.
  intros Hv Hl Hi. unfold sentence_loop_body.
  destruct (lookup_lt_is_Some_2 toks i Hi) as [t Ht].
  destruct (get_directional_prob_success Forward l toks i verbose st)
    as (h1 & evs1 & Hrun1 & Hsub1 & Hc1); [done..|].
  change "forward"%string with (direction_name Forward).
  rewrite (bind_run_Ret _ _ _ _ _ Hrun1).
  destruct (get_directional_prob_success Backwards l toks i verbose
              (State h1 (trace st ++ evs1)))
    as (h2 & evs2 & Hrun2 & Hsub2 & Hc2); [done|by eapply lookup_weaken|done|].
  change "backwards"%string with (direction_name Backwards).
  rewrite (bind_run_Ret _ _ _ _ _ Hrun2).
  assert (Py.getitem (convert_tokens_to_ids toks) (Z.of_nat i)
          = Ret (convert_token_to_id t)) as Hid.
  { rewrite getitem_of_nat. unfold convert_tokens_to_ids.
    by rewrite list_lookup_fmap, Ht. }
  rewrite Hid, bind_lift_Ret.
  rewrite (getitem_token_prob Forward toks i t Ht), bind_lift_Ret, bind_emit.
  rewrite bind_lift_Ret.
  rewrite (getitem_token_prob Backwards toks i t Ht), bind_lift_Ret, bind_emit.
  simpl heap. simpl trace.
  assert (heap st ⊆ h2) as Hsub by (by etrans).
  destruct verbose; simpl when.
  - rewrite bind_assoc.
    rewrite (bind_deref l toks) by (by eapply lookup_weaken).
    rewrite bind_assoc, getitem_of_nat, Ht. simpl of_option.
    rewrite bind_lift_Ret, bind_print.
    eexists _, _. split_and!; [|done|].
    + unfold ret. simpl. rewrite <- !app_assoc. done.
    + rewrite !calls_app, Hc1, Hc2. done.
  - rewrite bind_ret. eexists _, _. split_and!; [|done|].
    + unfold ret. simpl. rewrite <- !app_assoc. done.
    + rewrite !calls_app, Hc1, Hc2. done.
Qed.

End Success.

(** ** [get_directional_prob] on every direction *)

Section AnyDirection.
Context `{G : Globals} (V : nat).
Hypothesis Hok : globals_ok V.
Local Open Scope nat_scope.

Lemma getitem_model_row (toks : list string) i :
  i < length toks →
  ∃ logits, model (convert_tokens_to_ids toks) !! i = Some logits ∧
            Py.getitem (model (convert_tokens_to_ids toks)) (Z.of_nat i) = Ret logits ∧
            length logits = V.
Proof.
  intros Hi.
  destruct (lookup_lt_is_Some_2 (model (convert_tokens_to_ids toks)) i)
    as [logits Hlog].
  { rewrite (model_rows _ Hok). unfold convert_tokens_to_ids.
    by rewrite length_fmap. }
  exists logits. split_and!; [done| |].
  - by rewrite getitem_of_nat, Hlog.
  - eapply (model_cols _ Hok). by eapply list_elem_of_lookup_2.
Qed.

(** A [direction] that is neither of the two names: the function prints
    the message, asks the kernel to shut down, and returns the softmax
    of the prediction for the unmasked tokens. *)
Lemma get_directional_prob_bad_direction l (toks : list string) i d verbose st :
  (verbose = true → 5 ≤ V) →
  heap st !! l = Some toks → i < length toks →
  d ≠ "forward"%string → d ≠ "backwards"%string →
  ∃ logits h' evs,
    model (convert_tokens_to_ids toks) !! i = Some logits ∧
    get_directional_prob Np.softmax l (Z.of_nat i) d verbose st
    = (Ret (Np.softmax logits),
       State h' (trace st ++
                 Print [PStr "Direction can only be 'forward' or 'backwards'"]
                 :: ExitCall :: evs)) ∧
    heap st ⊆ h' ∧
    calls evs = [ModelCall (convert_tokens_to_ids toks); SmCall logits].
Proof.
  intros Hv Hl Hi Hf Hb.
  assert (String.eqb d "backwards" || String.eqb d "forward" = false) as Hd.
  { apply orb_false_intro; by apply String.eqb_neq. }
  destruct (getitem_model_row toks i Hi) as (logits & Hlog & Hget & Hlen).
  exists logits.
  rewrite (gdp_bad_direction _ _ _ _ _ _ _ Hl Hd).
  rewrite bind_emit, Hget, bind_lift_Ret, bind_emit.
  simpl heap. simpl trace.
  assert (heap st ⊆ <[fresh (dom (heap st)) := toks]> (heap st))
    as Hsub by apply insert_subseteq, not_elem_of_dom, is_fresh.
  destruct verbose; simpl when.
  - edestruct (print_top_predictions_success V Hok) as (evs & Hp & Hc);
      [|erewrite bind_run_Ret by exact Hp].
    { rewrite length_softmax, Hlen. by apply Hv. }
    eexists _, _. split_and!; [done| |done|].
    + unfold ret. simpl. rewrite <- !app_assoc. simpl. reflexivity.
    + change (calls (Print ?a :: Print ?b :: ModelCall ?c :: SmCall ?d :: ?l))
        with (ModelCall c :: SmCall d :: calls l).
      by rewrite Hc.
  - rewrite bind_ret. eexists _, _. split_and!; [done| |done|].
    + unfold ret. simpl. rewrite <- !app_assoc. simpl. reflexivity.
    + done.
Qed.

End AnyDirection.

(** C10 (the code does not stop on a bad [direction]).  The notebook's
    [exit()] asks the kernel to shut down and returns, so
    [get_directional_prob] returns a probability vector for every value
    of [direction], where a wrong value was meant to end the run: for a
    position inside the token list it returns the softmax of the
    prediction at that position.  With ['forward'] or ['backwards'] the
    model is shown the tokens with the span of the direction masked; with
    any other value the message is printed, [exit()] is called, and the
    model is shown the tokens with nothing masked.  In every case the
    caller's list, and every other object of the heap, is left as it was:
    the function works on a copy. *)
Theorem get_directional_prob_returns_on_every_direction `{G : Globals} (V : nat)
    (tokenized_input : loc) (toks : list string) (i : nat)
    (direction : string) (verbose : bool) (st : state) :
  globals_ok V → (verbose = true → (5 ≤ V)%nat) →
  heap st !! tokenized_input = Some toks → (i < length toks)%nat →
  ∃ logits st' evs,
    get_directional_prob Np.softmax tokenized_input (Z.of_nat i) direction verbose st
    = (Ret (Np.softmax logits), st') ∧
    trace st' = trace st ++ evs ∧
    heap st' !! tokenized_input = Some toks ∧
    heap st ⊆ heap st' ∧
    (direction = "forward" →
     model (convert_tokens_to_ids (masked Forward toks i)) !! i = Some logits ∧
     calls evs = [ModelCall (convert_tokens_to_ids (masked Forward toks i));
                  SmCall logits]) ∧
    (direction = "backwards" →
     model (convert_tokens_to_ids (masked Backwards toks i)) !! i = Some logits ∧
     calls evs = [ModelCall (convert_tokens_to_ids (masked Backwards toks i));
                  SmCall logits]) ∧
    (direction ≠ "forward" → direction ≠ "backwards" →
     model (convert_tokens_to_ids toks) !! i = Some logits ∧
     head evs = Some (Print [PStr "Direction can only be 'forward' or 'backwards'"]) ∧
     calls evs = [ExitCall; ModelCall (convert_tokens_to_ids toks); SmCall logits]).
Proof.
  intros Hok Hv Hl Hi.
  assert (∀ d, direction = direction_name d →
    ∃ logits st' evs,
      get_directional_prob Np.softmax tokenized_input (Z.of_nat i) direction verbose st
      = (Ret (Np.softmax logits), st') ∧
      trace st' = trace st ++ evs ∧
      heap st' !! tokenized_input = Some toks ∧
      heap st ⊆ heap st' ∧
      model (convert_tokens_to_ids (masked d toks i)) !! i = Some logits ∧
      calls evs = [ModelCall (convert_tokens_to_ids (masked d toks i));
                   SmCall logits]) as Hvalid.
  { intros d ->.
    destruct (get_directional_prob_success V Hok d tokenized_input toks i
                verbose st Hv Hl Hi) as (h' & evs & Hrun & Hsub & Hc).
    exists (head_logits d toks i), (State h' (trace st ++ evs)), evs.
    split_and!; [done|done|by eapply lookup_weaken|done| |done].
    pose proof (getitem_head_logits V Hok d toks i Hi) as Hg.
    rewrite getitem_of_nat in Hg. unfold head_logits in *.
    destruct (model (convert_tokens_to_ids (masked d toks i)) !! i); [done|].
    simpl in Hg. discriminate. }
  destruct (decide (direction = "forward"%string)) as [Hf|Hf].
  { destruct (Hvalid Forward Hf) as (logits & st' & evs & ? & ? & ? & ? & ? & ?).
    exists logits, st', evs. split_and!; [done..| | |].
    - done.
    - intros ->. discriminate.
    - done. }
  destruct (decide (direction = "backwards"%string)) as [Hb|Hb].
  { destruct (Hvalid Backwards Hb) as (logits & st' & evs & ? & ? & ? & ? & ? & ?).
    exists logits, st', evs. split_and!; [done..| | |].
    - done.
    - done.
    - done. }
  destruct (get_directional_prob_bad_direction V Hok tokenized_input toks i
              direction verbose st Hv Hl Hi Hf Hb)
    as (logits & h' & evs & Hlog & Hrun & Hsub & Hc).
  exists logits. eexists _, _. split_and!; [exact Hrun|done| |done|done|done|].
  - by eapply lookup_weaken.
  - intros _ _. split_and!; [done|done|].
    change (calls (?a :: ExitCall :: ?l)) with (ExitCall :: calls l).
    by rewrite Hc.
Qed.

Lemma get_directional_prob_returns_on_every_direction_witness :
  ∃ logits st',
    get_directional_prob (G := Toy.globals) Np.softmax 0%nat 1 "sideways" false
      (State {[ 0%nat := ["[CLS]"; "cat"; "[SEP]"]%string ]} [])
    = (Ret (Np.softmax logits), st') ∧
    model (Globals := Toy.globals)
      (convert_tokens_to_ids (G := Toy.globals) ["[CLS]"; "cat"; "[SEP]"]%string)
      !! 1%nat = Some logits ∧
    heap st' !! 0%nat = Some ["[CLS]"; "cat"; "[SEP]"]%string.
Proof.
  destruct (get_directional_prob_returns_on_every_direction (G := Toy.globals) 7
              0%nat ["[CLS]"; "cat"; "[SEP]"]%string 1 "sideways" false
              (State {[ 0%nat := ["[CLS]"; "cat"; "[SEP]"]%string ]} [])
              toy_globals_ok)
    as (logits & st' & evs & Hrun & _ & Hkeep & _ & _ & _ & Hbad).
  - discriminate.
  - reflexivity.
  - simpl. lia.
  - destruct Hbad as (Hlog & _); [discriminate..|].
    exists logits, st'. split_and!; [exact Hrun|exact Hlog|exact Hkeep].
Defined.

Section LoopSuccess.
Context `{G : Globals} (V : nat).
Hypothesis Hok : globals_ok V.
Local Open Scope nat_scope.

Lemma interior_range (n : nat) :
  Py.range 1 (Z.of_nat n - 1) = Z.of_nat <$> interior n.
Proof.
  change 1%Z with (Z.of_nat 1). rewrite range_of_nat. unfold interior.
  do 2 f_equal. lia.
Qed.

Lemma interior_spec (n i : nat) : i ∈ interior n ↔ 1 ≤ i ≤ n - 2 ∧ 2 ≤ n.
Proof. unfold interior. rewrite elem_of_seq. lia. Qed.

Lemma for_each_positions_success l (toks : list string) verbose
    (xs : list nat) acc st :
  (verbose = true → 5 ≤ V) →
  heap st !! l = Some toks → Forall (λ i, i < length toks) xs →
  ∃ h' evs,
    for_each (Z.of_nat <$> xs)
      (sentence_loop_body Np.softmax l (convert_tokens_to_ids toks) verbose)
      acc st
    = (Ret ((acc.1 + sum_R ((λ i, Np.log10 (token_prob Forward toks i)) <$> xs))%R,
            (acc.2 + sum_R ((λ i, Np.log10 (token_prob Backwards toks i)) <$> xs))%R),
       State h' (trace st ++ evs)) ∧
    heap st ⊆ h' ∧
    calls evs = xs ≫= position_calls toks.
Proof.
  intros Hv Hl Hxs. revert acc st Hl.
  induction Hxs as [|i xs Hi _ IH]; intros acc st Hl.
  - exists (heap st), []. simpl. unfold ret, sum_R. simpl.
    rewrite app_nil_r, !Rplus_0_r. by destruct acc, st.
  - rewrite fmap_cons. simpl for_each.
    destruct (sentence_loop_body_success V Hok l toks i verbose acc st)
      as (h1 & evs1 & Hrun1 & Hsub1 & Hc1); [done..|].
    rewrite (bind_run_Ret _ _ _ _ _ Hrun1).
    destruct (IH ((acc.1 + Np.log10 (token_prob Forward toks i))%R,
                  (acc.2 + Np.log10 (token_prob Backwards toks i))%R)
                (State h1 (trace st ++ evs1)))
      as (h2 & evs2 & Hrun2 & Hsub2 & Hc2); [by eapply lookup_weaken|].
    rewrite Hrun2. exists h2, (evs1 ++ evs2). split_and!.
    + simpl. rewrite <- app_assoc. do 2 f_equal.
      unfold sum_R. simpl. f_equal; apply Rplus_assoc.
    + by etrans.
    + rewrite calls_app, Hc1, Hc2. done.
Qed.

Lemma sentence_loop_success l (toks : list string) verbose st :
  (verbose = true → 5 ≤ V) →
  heap st !! l = Some toks →
  ∃ h' evs,
    sentence_loop Np.softmax l (convert_tokens_to_ids toks) verbose st
    = (Ret (log_likelihood Forward toks, log_likelihood Backwards toks),
       State h' (trace st ++ evs)) ∧
    heap st ⊆ h' ∧
    calls evs = interior (length toks) ≫= position_calls toks.
Proof.
  intros Hv Hl. unfold sentence_loop.
  rewrite (bind_deref _ _ _ _ Hl), interior_range.
  destruct (for_each_positions_success l toks verbose
              (interior (length toks)) (0%R, 0%R) st)
    as (h' & evs & Hrun & Hsub & Hc); [done..| |].
  { apply Forall_forall. intros i [? ?]%interior_spec. lia. }
  exists h', evs. split_and!; [|done..].
  rewrite Hrun. unfold log_likelihood. simpl. do 2 f_equal; f_equal; lra.
Qed.

End LoopSuccess.

(** ** The whole of [get_sentence_prob] *)

Section Sentence.
Context `{G : Globals}.

Lemma uniform_sentence_loop_body toks ids verbose i acc :
  uniform Np.softmax toks
    (λ l, sentence_loop_body Np.softmax l ids verbose i acc) (λ _, True).
Proof.
  unfold sentence_loop_body.
  eapply uniform_bind; [apply uniform_get_directional_prob|].
  intros probs_forward [lf ->].
  eapply uniform_bind; [apply uniform_get_directional_prob|].
  intros probs_backwards [lb ->].
  eapply uniform_bind; [by apply (uniform_lift _ _ _ (λ _, True))|].
  intros id_f _.
  eapply uniform_bind.
  { apply (uniform_lift _ _ _ (λ p, p ∈ Np.softmax lf)).
    intros p (j & Hj & _)%getitem_Ret. by eapply list_elem_of_lookup_2. }
  intros p_forward Hpf.
  eapply uniform_bind; [apply uniform_emit; by exists lf|]. intros _ _.
  eapply uniform_bind; [by apply (uniform_lift _ _ _ (λ _, True))|].
  intros id_b _.
  eapply uniform_bind.
  { apply (uniform_lift _ _ _ (λ p, p ∈ Np.softmax lb)).
    intros p (j & Hj & _)%getitem_Ret. by eapply list_elem_of_lookup_2. }
  intros p_backwards Hpb.
  eapply uniform_bind; [apply uniform_emit; by exists lb|]. intros _ _.
  eapply uniform_bind; [|intros _ _; by apply uniform_ret].
  apply uniform_when.
  eapply uniform_bind; [apply uniform_deref|]. intros cur _.
  eapply uniform_bind; [by apply (uniform_lift _ _ _ (λ _, True))|].
  intros word _. apply uniform_print.
Qed.

Lemma uniform_sentence_loop toks ids verbose :
  uniform Np.softmax toks
    (λ l, sentence_loop Np.softmax l ids verbose) (λ _, True).
Proof.
  unfold sentence_loop.
  eapply uniform_bind; [apply uniform_deref|]. intros cur _.
  apply (uniform_for_each _ _ _
           (λ l, sentence_loop_body Np.softmax l ids verbose) (λ _, True));
    [|done].
  intros i acc _. apply uniform_sentence_loop_body.
Qed.

(** [get_sentence_prob] from the point where the special tokens are in
    place. *)
Local Abbreviation scoring l verbose :=
  (toks <~ deref l;
   print [PStr "Processing sentence: "; PTokens toks; PStr "\n"];~
   logs <~ sentence_loop Np.softmax l (convert_tokens_to_ids toks) verbose;
   when verbose (
     print [PStr "Raw forward sentence probability: "; PReal logs.1];~
     print [PStr "Raw backward sentence probability: "; PReal logs.2; PStr "\n"];~
     print [PStr "Average normalized sentence prob: ";
            PReal (0.5 * (logs.1 + logs.2))%R; PStr "\n"]);~
   print [PReal (Np.power10 (0.5 * (logs.1 + logs.2))%R)];~
   ret (Np.power10 (0.5 * (logs.1 + logs.2))%R)).

Lemma get_sentence_prob_empty sentence verbose st :
  tokenize sentence = [] →
  get_sentence_prob sentence verbose st
  = (Raise IndexError,
     State (<[fresh (dom (heap st)) := []]> (heap st)) (trace st)).
Proof.
  intros He. unfold get_sentence_prob. rewrite He, bind_alloc.
  rewrite (bind_deref _ []) by apply lookup_insert_eq. done.
Qed.

Lemma get_sentence_prob_scoring sentence verbose st :
  tokenize sentence ≠ [] →
  get_sentence_prob sentence verbose st
  = scoring (fresh (dom (heap st))) verbose
      (State (<[fresh (dom (heap st)) := with_special_tokens (tokenize sentence)]>
                (heap st)) (trace st)).
Proof.
  intros Hne. unfold get_sentence_prob, with_special_tokens.
  destruct (tokenize sentence) as [|t rest]; [done|].
  rewrite bind_alloc. set (l := fresh (dom (heap st))).
  rewrite (bind_deref l (t :: rest)) by apply lookup_insert_eq.
  change (Py.getitem (t :: rest) 0) with (Ret (A := string) t).
  rewrite bind_lift_Ret.
  set (t1 := if String.eqb t BOS_TOKEN then t :: rest else BOS_TOKEN :: t :: rest).
  assert (∀ K : unit → M R,
    bind (when (negb (String.eqb t BOS_TOKEN))
            (modify l (λ xs, Py.insert xs 0 BOS_TOKEN))) K
      (State (<[l := t :: rest]> (heap st)) (trace st))
    = K tt (State (<[l := t1]> (heap st)) (trace st))) as ->.
  { intros K. unfold t1. destruct (String.eqb t BOS_TOKEN); simpl when.
    - by rewrite bind_ret.
    - rewrite (bind_modify l (t :: rest)) by apply lookup_insert_eq.
      simpl. by rewrite insert_insert_eq. }
  rewrite (bind_deref l t1) by apply lookup_insert_eq.
  rewrite getitem_minus_one.
  destruct (last t1) as [t'|] eqn:Hlast.
  2:{ apply last_None in Hlast. unfold t1 in Hlast.
      by destruct (String.eqb t BOS_TOKEN). }
  simpl of_option. rewrite bind_lift_Ret.
  destruct (String.eqb t' EOS_TOKEN); simpl when.
  - by rewrite bind_ret.
  - rewrite (bind_modify l t1) by apply lookup_insert_eq.
    simpl. by rewrite insert_insert_eq.
Qed.

Lemma uniform_scoring toks verbose :
  uniform Np.softmax toks (λ l, scoring l verbose) (λ _, True).
Proof.
  eapply uniform_bind; [apply uniform_deref|]. intros cur _.
  eapply uniform_bind; [apply uniform_print|]. intros _ _.
  eapply uniform_bind; [apply uniform_sentence_loop|]. intros logs _.
  eapply uniform_bind.
  { apply uniform_when.
    eapply uniform_bind; [apply uniform_print|]. intros _ _.
    eapply uniform_bind; [apply uniform_print|]. intros _ _.
    apply uniform_print. }
  intros _ _.
  eapply uniform_bind; [apply uniform_print|]. intros _ _.
  by apply uniform_ret.
Qed.

(** Outcome and new events of a run are fixed by the sentence and the
    flag, whatever the state; no event is unsafe. *)
Lemma get_sentence_prob_uniform sentence verbose :
  ∃ o evs,
    Forall (ev_safe Np.softmax) evs ∧
    ∀ st, ∃ h', get_sentence_prob sentence verbose st
                = (o, State h' (trace st ++ evs)).
Proof.
  destruct (decide (tokenize sentence = [])) as [He|Hne].
  - exists (Raise IndexError), []. split; [done|]. intros st.
    rewrite (get_sentence_prob_empty _ _ _ He), app_nil_r. by eexists.
  - destruct (uniform_scoring (with_special_tokens (tokenize sentence)) verbose)
      as (o & evs & Hs & _ & Hrun).
    exists o, evs. split; [done|]. intros st.
    rewrite (get_sentence_prob_scoring _ _ _ Hne).
    edestruct Hrun as (h' & -> & _); [|by eexists].
    apply lookup_insert_eq.
Qed.

(** On well-formed oracles a run on a non-empty token list returns; its
    new events are the line naming the sentence, the events of the
    loop, the three summary lines when [verbose], and the result. *)
Lemma get_sentence_prob_run V sentence verbose st :
  globals_ok V → (verbose = true → (5 ≤ V)%nat) →
  tokenize sentence ≠ [] →
  let toks := with_special_tokens (tokenize sentence) in
  let L_f := log_likelihood Forward toks in
  let L_b := log_likelihood Backwards toks in
  let p := Np.power10 (0.5 * (L_f + L_b))%R in
  ∃ h' evs_loop,
    get_sentence_prob sentence verbose st
    = (Ret p,
       State h'
         (trace st ++
          Print [PStr "Processing sentence: "; PTokens toks; PStr "\n"]
          :: evs_loop ++
          (if verbose then
             [Print [PStr "Raw forward sentence probability: "; PReal L_f];
              Print [PStr "Raw backward sentence probability: "; PReal L_b;
                     PStr "\n"];
              Print [PStr "Average normalized sentence prob: ";
                     PReal (0.5 * (L_f + L_b))%R; PStr "\n"]]
           else []) ++
          [Print [PReal p]])) ∧
    calls evs_loop = interior (length toks) ≫= position_calls toks.
Proof.
  intros Hok Hv Hne toks L_f L_b p.
  rewrite (get_sentence_prob_scoring _ _ _ Hne). fold toks.
  set (l := fresh (dom (heap st))).
  rewrite (bind_deref l toks) by apply lookup_insert_eq.
  rewrite bind_print.
  edestruct (sentence_loop_success V Hok l toks verbose)
    as (h' & evs & Hrun & Hsub & Hc); [done| |].
  2:{ rewrite (bind_run_Ret _ _ _ _ _ Hrun). simpl fst. simpl snd.
      exists h', evs. split; [|done].
      destruct verbose; simpl when.
      - rewrite !bind_assoc, bind_print, !bind_assoc, bind_print.
        rewrite !bind_print. unfold ret. simpl.
        rewrite <- !app_assoc. done.
      - rewrite bind_ret, bind_print. unfold ret. simpl.
        rewrite <- !app_assoc. done. }
  apply lookup_insert_eq.
Qed.

Lemma get_sentence_prob_success V sentence verbose st :
  globals_ok V → (verbose = true → (5 ≤ V)%nat) →
  tokenize sentence ≠ [] →
  let toks := with_special_tokens (tokenize sentence) in
  ∃ h' evs,
    get_sentence_prob sentence verbose st
    = (Ret (Np.power10 (0.5 * (log_likelihood Forward toks
                               + log_likelihood Backwards toks))%R),
       State h' (trace st ++ evs)) ∧
    calls evs = interior (length toks) ≫= position_calls toks.
Proof.
  intros Hok Hv Hne toks.
  destruct (get_sentence_prob_run V sentence verbose st Hok Hv Hne)
    as (h' & evs & Hrun & Hc).
  eexists _, _. split; [exact Hrun|].
  change (calls (?e :: ?l)) with (calls l).
  rewrite !calls_app, Hc. fold toks.
  destruct verbose; simpl; by rewrite app_nil_r.
Qed.

End Sentence.

(** ** Reading the trace *)

Section Projections.
Context `{G : Globals}.

Lemma model_inputs_calls evs : model_inputs (calls evs) = model_inputs evs.
Proof.
  induction evs as [|e evs IH]; [done|].
  destruct e; first [exact IH | exact (f_equal (cons _) IH)].
Qed.

Lemma softmax_inputs_calls evs : softmax_inputs (calls evs) = softmax_inputs evs.
Proof.
  induction evs as [|e evs IH]; [done|].
  destruct e; first [exact IH | exact (f_equal (cons _) IH)].
Qed.

Lemma log10_args_calls evs : log10_args (calls evs) = log10_args evs.
Proof.
  induction evs as [|e evs IH]; [done|].
  destruct e; first [exact IH | exact (f_equal (cons _) IH)].
Qed.

Lemma model_inputs_positions toks (xs : list nat) :
  model_inputs (xs ≫= position_calls toks)
  = xs ≫= (λ i, [convert_tokens_to_ids (masked Forward toks i);
                 convert_tokens_to_ids (masked Backwards toks i)]).
Proof.
  induction xs as [|i xs IH]; [done|].
  rewrite !bind_cons. unfold model_inputs in *. rewrite omap_app, IH. done.
Qed.

Lemma softmax_inputs_positions toks (xs : list nat) :
  softmax_inputs (xs ≫= position_calls toks)
  = xs ≫= (λ i, [head_logits Forward toks i; head_logits Backwards toks i]).
Proof.
  induction xs as [|i xs IH]; [done|].
  rewrite !bind_cons. unfold softmax_inputs in *. rewrite omap_app, IH. done.
Qed.

Lemma log10_args_positions toks (xs : list nat) :
  log10_args (xs ≫= position_calls toks)
  = xs ≫= (λ i, [token_prob Forward toks i; token_prob Backwards toks i]).
Proof.
  induction xs as [|i xs IH]; [done|].
  rewrite !bind_cons. unfold log10_args in *. rewrite omap_app, IH. done.
Qed.

Lemma length_bind_pair {A B} (f g : A → B) (xs : list A) :
  length (xs ≫= (λ i, [f i; g i])) = (2 * length xs)%nat.
Proof.
  induction xs as [|x xs IH]; [done|]. rewrite bind_cons, length_app, IH.
  simpl. lia.
Qed.

Lemma length_with_special_tokens toks : toks ≠ [] →
  (2 ≤ length (with_special_tokens toks))%nat.
Proof.
  intros Hne. unfold with_special_tokens.
  destruct toks as [|t rest]; [done|].
  set (t1 := if String.eqb t BOS_TOKEN then t :: rest else BOS_TOKEN :: t :: rest).
  assert (1 ≤ length t1)%nat as H1
    by (unfold t1; destruct (String.eqb t BOS_TOKEN); simpl; lia).
  destruct (last t1) as [t'|] eqn:Hl.
  - destruct (String.eqb t' EOS_TOKEN) eqn:He.
    + apply String.eqb_eq in He as ->.
      unfold t1 in *. destruct (String.eqb t BOS_TOKEN) eqn:Hb.
      * apply String.eqb_eq in Hb as ->.
        destruct rest as [|t2 rest]; [done|]. simpl. lia.
      * simpl. lia.
    + rewrite length_app. simpl. lia.
  - apply last_None in Hl. rewrite Hl in H1. simpl in H1. lia.
Qed.

End Projections.

(** ** The claims about [get_sentence_prob] *)

Section Likelihood.
Context `{G : Globals} (V : nat).
Hypothesis Hok : globals_ok V.



End Likelihood.




(** C2 fails as stated: on the sentence "the cat" the model is shown
    [[CLS] [MASK] [MASK] [SEP]], where two tokens are hidden at once;
    this is not the sentence with a single token replaced, at any
    position. *)
Lemma single_mask_counterexample :
  ∃ p st',
    get_sentence_prob (G := Toy.globals) "the cat" false Toy.start = (Ret p, st') ∧
    with_special_tokens (tokenize (Globals := Toy.globals) "the cat")
    = ["[CLS]"; "the"; "cat"; "[SEP]"]%string ∧
    convert_tokens_to_ids (G := Toy.globals)
      ["[CLS]"; "[MASK]"; "[MASK]"; "[SEP]"]%string
    ∈ model_inputs (trace st') ∧
    ∀ i : nat,
      convert_tokens_to_ids (G := Toy.globals)
        ["[CLS]"; "[MASK]"; "[MASK]"; "[SEP]"]%string
      ≠ convert_tokens_to_ids (G := Toy.globals)
          (masked_single ["[CLS]"; "the"; "cat"; "[SEP]"]%string i).
Proof.
  destruct (get_sentence_prob_success (G := Toy.globals) 7 "the cat" false
              Toy.start toy_globals_ok)
    as (h' & evs & Hrun & Hc); [done|discriminate|].
  eexists _, _. split_and!; [exact Hrun|reflexivity|..].
  - simpl trace. rewrite <- model_inputs_calls, Hc, model_inputs_positions.
    vm_compute. apply list_elem_of_In. simpl. tauto.
  - intros i. destruct i as [|[|[|[|i]]]]; vm_compute; discriminate.
Qed.

(** C2, amended.  The probabilities entering the score are obtained by
    masking a span of tokens, not a single one: for each interior
    position [i], in increasing order, the model is shown the tokenized
    sentence once with the positions [i .. n-2] replaced by [[MASK]]
    (forward) and once with the positions [1 .. i] replaced (backwards),
    every other token left intact; the probabilities passed to the
    logarithm are those of the original token, read from the prediction at
    position [i] of these two inputs. *)
Theorem get_sentence_prob_masks_spans `{G : Globals} (V : nat)
    (sentence : string) (verbose : bool) (st : state) :
  globals_ok V → (verbose = true → (5 ≤ V)%nat) →
  tokenize sentence ≠ [] →
  let toks := with_special_tokens (tokenize sentence) in
  let n := length toks in
  ∃ p st' evs,
    get_sentence_prob sentence verbose st = (Ret p, st') ∧
    trace st' = trace st ++ evs ∧
    model_inputs evs
    = interior n ≫= (λ i, [convert_tokens_to_ids (masked Forward toks i);
                           convert_tokens_to_ids (masked Backwards toks i)]) ∧
    log10_args evs
    = interior n ≫= (λ i, [token_prob Forward toks i;
                           token_prob Backwards toks i]) ∧
    (∀ (i j : nat) t, toks !! j = Some t →
       masked Forward toks i !! j
       = Some (if bool_decide (i ≤ j ≤ n - 2 ∧ 2 ≤ n)%nat then MASK_TOKEN else t) ∧
       masked Backwards toks i !! j
       = Some (if bool_decide (1 ≤ j ≤ i)%nat then MASK_TOKEN else t)).
Proof.
  intros Hok Hv Hne toks n.
  destruct (get_sentence_prob_success V sentence verbose st Hok Hv Hne)
    as (h' & evs & Hrun & Hc).
  fold toks in Hrun, Hc. fold n in Hc.
  eexists _, _, evs. split_and!; [exact Hrun|done|..].
  - by rewrite <- model_inputs_calls, Hc, model_inputs_positions.
  - by rewrite <- log10_args_calls, Hc, log10_args_positions.
  - intros i j t Ht. split.
    + rewrite (masked_lookup Forward _ _ _ _ Ht). f_equal.
      fold n. repeat case_bool_decide; try done; lia.
    + by rewrite (masked_lookup Backwards _ _ _ _ Ht).
Qed.

Lemma get_sentence_prob_masks_spans_witness :
  ∃ p st' evs,
    get_sentence_prob (G := Toy.globals) "the cat sat" false Toy.start = (Ret p, st') ∧
    trace st' = evs ∧
    model_inputs evs
    = [[0; 2; 2; 2; 1]; [0; 2; 4; 5; 1];
       [0; 3; 2; 2; 1]; [0; 2; 2; 5; 1];
       [0; 3; 4; 2; 1]; [0; 2; 2; 2; 1]]%nat.
Proof.
  destruct (get_sentence_prob_masks_spans (G := Toy.globals) 7 "the cat sat"
              false Toy.start toy_globals_ok)
    as (p & st' & evs & Hrun & Ht & Hm & _); [discriminate..|].
  exists p, st', evs. split_and!; [exact Hrun|exact Ht|].
  rewrite Hm. reflexivity.
Defined.

(** C3. On a tokenized input of length [n] (special tokens in place) the
    loop visits the positions [1 .. n-2] and no other; for each of them it
    evaluates the model and the softmax exactly twice, first on the
    forward and then on the backwards masking, and takes two logarithms;
    the first and the last token are masked in none of the inputs. *)
Theorem get_sentence_prob_visits_interior `{G : Globals} (V : nat)
    (sentence : string) (verbose : bool) (st : state) :
  globals_ok V → (verbose = true → (5 ≤ V)%nat) →
  tokenize sentence ≠ [] →
  let toks := with_special_tokens (tokenize sentence) in
  let n := length toks in
  ∃ p st' evs,
    get_sentence_prob sentence verbose st = (Ret p, st') ∧
    trace st' = trace st ++ evs ∧
    calls evs = interior n ≫= position_calls toks ∧
    (2 ≤ n)%nat ∧
    (∀ i : nat, i ∈ interior n ↔ (1 ≤ i ≤ n - 2)%nat) ∧
    length (model_inputs evs) = (2 * (n - 2))%nat ∧
    length (softmax_inputs evs) = (2 * (n - 2))%nat ∧
    length (log10_args evs) = (2 * (n - 2))%nat ∧
    (∀ d (i : nat), i ∈ interior n →
       masked d toks i !! 0%nat = toks !! 0%nat ∧
       masked d toks i !! (n - 1)%nat = toks !! (n - 1)%nat).
Proof.
  intros Hok Hv Hne toks n.
  destruct (get_sentence_prob_success V sentence verbose st Hok Hv Hne)
    as (h' & evs & Hrun & Hc).
  fold toks in Hrun, Hc. fold n in Hc.
  assert (2 ≤ n)%nat as Hn by (by apply length_with_special_tokens).
  assert (length (interior n) = (n - 2)%nat) as Hlen by apply length_seq.
  eexists _, _, evs. split_and!; [exact Hrun|done|done|done|..].
  - intros i. rewrite interior_spec. lia.
  - by rewrite <- model_inputs_calls, Hc, model_inputs_positions,
      length_bind_pair, Hlen.
  - by rewrite <- softmax_inputs_calls, Hc, softmax_inputs_positions,
      length_bind_pair, Hlen.
  - by rewrite <- log10_args_calls, Hc, log10_args_positions,
      length_bind_pair, Hlen.
  - intros d i [Hi _]%interior_spec.
    destruct (lookup_lt_is_Some_2 toks 0) as [t0 Ht0]; [fold n; lia|].
    destruct (lookup_lt_is_Some_2 toks (n - 1)) as [t1 Ht1]; [fold n; lia|].
    rewrite (masked_lookup d _ _ _ _ Ht0), (masked_lookup d _ _ _ _ Ht1).
    rewrite Ht0, Ht1. fold n.
    destruct d; rewrite !bool_decide_eq_false_2 by lia; done.
Qed.

Lemma get_sentence_prob_visits_interior_witness :
  ∃ p st' evs,
    get_sentence_prob (G := Toy.globals) "the cat sat" true Toy.start = (Ret p, st') ∧
    trace st' = evs ∧
    length (model_inputs evs) = 6%nat ∧
    length (softmax_inputs evs) = 6%nat ∧
    length (log10_args evs) = 6%nat.
Proof.
  destruct (get_sentence_prob_visits_interior (G := Toy.globals) 7 "the cat sat"
              true Toy.start toy_globals_ok)
    as (p & st' & evs & Hrun & Ht & _ & _ & _ & Hm & Hs & Hl & _).
  - intros _. lia.
  - discriminate.
  - exists p, st', evs. split_and!; [exact Hrun|exact Ht|exact Hm|exact Hs|exact Hl].
Defined.

(** C4. For each direction, the log-probability the loop accumulates is
    the sum, over the interior positions, of the log10 of the probability
    the model gives to the original token at that position.  These two
    sums are what a verbose run of [get_sentence_prob] prints as the raw
    forward and backward sentence probabilities. *)
Theorem sentence_loop_accumulates_log_probs `{G : Globals} (V : nat)
    (tokenized_input : loc) (toks : list string) (verbose : bool) (st : state) :
  globals_ok V → (verbose = true → (5 ≤ V)%nat) →
  heap st !! tokenized_input = Some toks →
  let sum_log d ts :=
    sum_R ((λ i, Np.log10 (token_prob d ts i)) <$> interior (length ts)) in
  (∃ st',
     sentence_loop Np.softmax tokenized_input (convert_tokens_to_ids toks) verbose st
     = (Ret (sum_log Forward toks, sum_log Backwards toks), st')) ∧
  (∀ sentence st0, (5 ≤ V)%nat → tokenize sentence ≠ [] →
     let ts := with_special_tokens (tokenize sentence) in
     ∃ p st1,
       get_sentence_prob sentence true st0 = (Ret p, st1) ∧
       Print [PStr "Raw forward sentence probability: ";
              PReal (sum_log Forward ts)] ∈ trace st1 ∧
       Print [PStr "Raw backward sentence probability: ";
              PReal (sum_log Backwards ts); PStr "\n"] ∈ trace st1).
Proof.
  intros Hok Hv Hl sum_log. split.
  - destruct (sentence_loop_success V Hok tokenized_input toks verbose st Hv Hl)
      as (h' & evs & Hrun & _).
    by eexists.
  - intros sentence st0 HV Hne ts.
    destruct (get_sentence_prob_run V sentence true st0 Hok (λ _, HV) Hne)
      as (h' & evs & Hrun & _).
    eexists _, _. split; [exact Hrun|]. simpl trace. fold ts.
    split; apply list_elem_of_In, in_or_app; right; right;
      apply in_or_app; right; simpl; auto.
Qed.

Lemma sentence_loop_accumulates_log_probs_witness :
  ∃ st',
    sentence_loop (G := Toy.globals) Np.softmax 0%nat
      (convert_tokens_to_ids (G := Toy.globals) ["[CLS]"; "cat"; "sat"; "[SEP]"]%string)
      false (State {[ 0%nat := ["[CLS]"; "cat"; "sat"; "[SEP]"]%string ]} [])
    = (Ret (sum_R ((λ i, Np.log10 (token_prob (G := Toy.globals) Forward
                                     ["[CLS]"; "cat"; "sat"; "[SEP]"]%string i))
                     <$> [1; 2]%nat),
            sum_R ((λ i, Np.log10 (token_prob (G := Toy.globals) Backwards
                                     ["[CLS]"; "cat"; "sat"; "[SEP]"]%string i))
                     <$> [1; 2]%nat)),
       st').
Proof.
  destruct (sentence_loop_accumulates_log_probs (G := Toy.globals) 7 0%nat
              ["[CLS]"; "cat"; "sat"; "[SEP]"]%string false
              (State {[ 0%nat := ["[CLS]"; "cat"; "sat"; "[SEP]"]%string ]} [])
              toy_globals_ok) as [Hloop _].
  - discriminate.
  - reflexivity.
  - exact Hloop.
Defined.

(** C5. The probability of the token at position [i] is read in two
    steps: the softmax is applied to the vector the prediction head gives
    at position [i] of the masked input, and the result is indexed with
    the vocabulary id of the token; it is [exp x / sum of exp] for the
    logit [x] of that id.  These are the two numbers whose logarithms one
    round of the loop adds to its sums. *)
Theorem token_prob_read_from_softmax `{G : Globals} (V : nat)
    (tokenized_input : loc) (toks : list string) (i : nat) (t : string)
    (verbose : bool) (st : state) :
  globals_ok V → (verbose = true → (5 ≤ V)%nat) →
  heap st !! tokenized_input = Some toks → toks !! i = Some t →
  (∀ d, ∃ logits x st',
     model (convert_tokens_to_ids (masked d toks i)) !! i = Some logits ∧
     get_directional_prob Np.softmax tokenized_input (Z.of_nat i)
       (direction_name d) verbose st
     = (Ret (Np.softmax logits), st') ∧
     logits !! convert_token_to_id t = Some x ∧
     Py.getitem (Np.softmax logits) (Z.of_nat (convert_token_to_id t))
     = Ret (token_prob d toks i) ∧
     token_prob d toks i = (exp x / Np.sum_exp logits)%R) ∧
  (∀ acc, ∃ st' evs,
     sentence_loop_body Np.softmax tokenized_input (convert_tokens_to_ids toks)
       verbose (Z.of_nat i) acc st
     = (Ret ((acc.1 + Np.log10 (token_prob Forward toks i))%R,
             (acc.2 + Np.log10 (token_prob Backwards toks i))%R), st') ∧
     trace st' = trace st ++ evs ∧
     softmax_inputs evs = [head_logits Forward toks i; head_logits Backwards toks i] ∧
     log10_args evs = [token_prob Forward toks i; token_prob Backwards toks i]).
Proof.
  intros Hok Hv Hl Ht.
  assert (i < length toks)%nat as Hi by (by eapply lookup_lt_Some).
  split.
  - intros d.
    destruct (get_directional_prob_success V Hok d tokenized_input toks i
                verbose st Hv Hl Hi) as (h' & evs & Hrun & _ & _).
    pose proof (getitem_head_logits V Hok d toks i Hi) as Hlog.
    rewrite getitem_of_nat in Hlog.
    destruct (model (convert_tokens_to_ids (masked d toks i)) !! i)
      as [logits|] eqn:Hm; simpl in Hlog; [|done].
    injection Hlog as Hlog.
    pose proof (getitem_token_prob V Hok d toks i t Ht) as Hp.
    rewrite <- Hlog in Hp, Hrun.
    pose proof Hp as Hp'. rewrite getitem_of_nat in Hp'.
    destruct (Np.softmax logits !! convert_token_to_id t) as [p|] eqn:Hs;
      simpl in Hp'; [|done].
    injection Hp' as Hp'.
    apply softmax_lookup in Hs as (x & Hx & ->).
    by exists logits, x, (State h' (trace st ++ evs)).
  - intros acc.
    destruct (sentence_loop_body_success V Hok tokenized_input toks i verbose
                acc st Hv Hl Hi) as (h' & evs & Hrun & _ & Hc).
    exists (State h' (trace st ++ evs)), evs. split_and!; [done..| |].
    + by rewrite <- softmax_inputs_calls, Hc.
    + by rewrite <- log10_args_calls, Hc.
Qed.

Lemma token_prob_read_from_softmax_witness :
  ∃ logits x st',
    model (Globals := Toy.globals)
      (convert_tokens_to_ids (G := Toy.globals)
         (masked Forward ["[CLS]"; "cat"; "sat"; "[SEP]"]%string 1)) !! 1%nat
    = Some logits ∧
    get_directional_prob (G := Toy.globals) Np.softmax 0%nat 1 "forward" true
      (State {[ 0%nat := ["[CLS]"; "cat"; "sat"; "[SEP]"]%string ]} [])
    = (Ret (Np.softmax logits), st') ∧
    logits !! 4%nat = Some x ∧
    token_prob (G := Toy.globals) Forward ["[CLS]"; "cat"; "sat"; "[SEP]"]%string 1
    = (exp x / Np.sum_exp logits)%R.
Proof.
  destruct (token_prob_read_from_softmax (G := Toy.globals) 7 0%nat
              ["[CLS]"; "cat"; "sat"; "[SEP]"]%string 1 "cat" true
              (State {[ 0%nat := ["[CLS]"; "cat"; "sat"; "[SEP]"]%string ]} [])
              toy_globals_ok) as [Hd _].
  - intros _. lia.
  - reflexivity.
  - reflexivity.
  - destruct (Hd Forward) as (logits & x & st' & Hm & Hrun & Hx & _ & Hp).
    exists logits, x, st'. split_and!; [exact Hm|exact Hrun|exact Hx|exact Hp].
Defined.

(** C6. In every run of [get_sentence_prob], on every sentence and
    whatever the model answers, each number passed to [np.log10] is a
    component of a softmax output and is therefore strictly positive, and
    the sum every softmax divides by is strictly positive: no logarithm of
    zero is taken and no division by zero is made. *)
Theorem get_sentence_prob_log_arguments_positive `{G : Globals}
    (sentence : string) (verbose : bool) (st : state) :
  ∃ o st' evs,
    get_sentence_prob sentence verbose st = (o, st') ∧
    trace st' = trace st ++ evs ∧
    (∀ x, Log10Call x ∈ evs → (∃ v, x ∈ Np.softmax v) ∧ (0 < x)%R) ∧
    (∀ v x, SmCall v ∈ evs → x ∈ v → (0 < Np.sum_exp v)%R).
Proof.
  destruct (get_sentence_prob_uniform sentence verbose) as (o & evs & Hs & Hrun).
  destruct (Hrun st) as (h' & Heq).
  exists o, (State h' (trace st ++ evs)), evs. split_and!; [done..| |].
  - intros x Hx. rewrite Forall_forall in Hs.
    destruct (Hs _ Hx) as [v Hv]. split; [by exists v|by eapply softmax_pos].
  - intros v x _ Hx. apply sum_exp_pos. intros ->. by apply elem_of_nil in Hx.
Qed.

(** C7. With the model and the tokenizer fixed, two runs of
    [get_sentence_prob] on the same sentence (and flag) end in the same
    way, with the same returned probability and the same printed lines
    and oracle calls, from whatever states they start. *)
Theorem get_sentence_prob_deterministic `{G : Globals}
    (sentence : string) (verbose : bool) (st1 st2 : state) :
  (get_sentence_prob sentence verbose st1).1
  = (get_sentence_prob sentence verbose st2).1 ∧
  ∃ evs,
    trace (get_sentence_prob sentence verbose st1).2 = trace st1 ++ evs ∧
    trace (get_sentence_prob sentence verbose st2).2 = trace st2 ++ evs.
Proof.
  destruct (get_sentence_prob_uniform sentence verbose) as (o & evs & _ & Hrun).
  destruct (Hrun st1) as (h1 & ->). destruct (Hrun st2) as (h2 & ->).
  split; [done|]. by exists evs.
Qed.

(** * Part III: the rest of the notebooks *)

(** ** Notebook 3: where the target word occurs *)

Section Matches.
Local Open Scope nat_scope.
Implicit Types target inputs : list nat.

Lemma filter_ext_in {A} (P1 P2 : A → Prop)
    `{!∀ x, Decision (P1 x), !∀ x, Decision (P2 x)} (l : list A) :
  Forall (λ x, P1 x ↔ P2 x) l → filter P1 l = filter P2 l.
Proof.
  induction 1 as [|x l Hx _ IH]; [done|].
  rewrite !filter_cons, IH.
  destruct (decide (P1 x)), (decide (P2 x)); tauto.
Qed.

Lemma filter_all {A} (P : A → Prop) `{!∀ x, Decision (P x)} (l : list A) :
  Forall P l → filter P l = l.
Proof.
  induction 1 as [|x l Hx _ IH]; [done|].
  by rewrite filter_cons_True, IH.
Qed.

Lemma StronglySorted_filter {A} (Rel : relation A) (P : A → Prop)
    `{!∀ x, Decision (P x)} (l : list A) :
  StronglySorted Rel l → StronglySorted Rel (filter P l).
Proof.
  induction 1 as [|x l _ IH Hall]; [constructor|].
  rewrite filter_cons. case_decide; [|done].
  constructor; [done|].
  apply Forall_forall. intros y [_ Hy]%list_elem_of_filter.
  rewrite Forall_forall in Hall. by apply Hall.
Qed.

Lemma seq_sorted (s n : nat) : StronglySorted lt (seq s n).
Proof.
  revert s. induction n as [|n IH]; intros s; simpl; constructor; [apply IH|].
  apply Forall_forall. intros k [Hk _]%elem_of_seq. lia.
Qed.

Lemma getslice_window {A} (xs : list A) (i n : nat) :
  i ≤ length xs →
  PySeq.getslice xs (Z.of_nat i) (Z.of_nat i + Z.of_nat n) = take n (drop i xs).
Proof.
  intros Hi. unfold PySeq.getslice, Py.clip.
  destruct (Z.ltb_spec (Z.of_nat i) 0) as [?|_]; [lia|].
  destruct (Z.ltb_spec (Z.of_nat i + Z.of_nat n) 0) as [?|_]; [lia|].
  rewrite Nat2Z.id, (Nat.min_l i) by lia.
  destruct (decide (i + n ≤ length xs)) as [Hle|Hgt].
  - f_equal. lia.
  - rewrite !take_ge; [done|rewrite length_drop; lia..].
Qed.

Lemma matches_unfold target inputs :
  matches target inputs
  = (λ i : nat, bool_decide (target = take (length target) (drop i inputs)))
      <$> seq 0 (length inputs + 1 - length target).
Proof.
  unfold matches. change 0%Z with (Z.of_nat 0). rewrite range_of_nat.
  rewrite <- list_fmap_compose.
  replace (Z.to_nat (Z.of_nat (length inputs) - Z.of_nat (length target) + 1
                     - Z.of_nat 0))
    with (length inputs + 1 - length target) by lia.
  apply list_fmap_ext. intros k i Hi. simpl.
  apply lookup_seq in Hi as [-> Hi]. simpl in *.
  by rewrite getslice_window by lia.
Qed.

Lemma enumerate_filter_true (bs : list bool) (s : nat) :
  fst <$> filter (λ jv, jv.2 = true) (zip (seq s (length bs)) bs)
  = filter (λ j, bs !! (j - s) = Some true) (seq s (length bs)).
Proof.
  revert s. induction bs as [|b bs IH]; intros s; [done|].
  simpl. rewrite !filter_cons. simpl. rewrite Nat.sub_diag. simpl.
  assert (filter (λ j, (b :: bs) !! (j - s) = Some true) (seq (S s) (length bs))
          = filter (λ j, bs !! (j - S s) = Some true) (seq (S s) (length bs)))
    as Htail.
  { apply filter_ext_in. apply Forall_forall. intros j [Hj _]%elem_of_seq.
    replace (j - s) with (S (j - S s)) by lia. done. }
  rewrite Htail, <- IH.
  destruct b; repeat case_decide; try done; simplify_eq.
Qed.

Lemma matches_id_unfold target inputs :
  matches_id target inputs
  = filter (λ j, target = take (length target) (drop j inputs))
      (seq 0 (length inputs + 1 - length target)).
Proof.
  unfold matches_id, PySeq.enumerate. rewrite enumerate_filter_true.
  rewrite matches_unfold, length_fmap, length_seq.
  apply filter_ext_in. apply Forall_forall. intros j [_ Hj]%elem_of_seq.
  rewrite Nat.sub_0_r, list_lookup_fmap, lookup_seq_lt by lia. simpl.
  split.
  - intros [= Hb]. by apply bool_decide_eq_true in Hb.
  - intros Hb. by rewrite bool_decide_eq_true_2.
Qed.

Lemma occurs_at target inputs (j : nat) :
  j + length target ≤ length inputs ∧
  target = take (length target) (drop j inputs)
  ↔ ∃ pre post, inputs = pre ++ target ++ post ∧ length pre = j.
Proof.
  split.
  - intros [Hj Ht]. exists (take j inputs), (drop (length target) (drop j inputs)).
    split; [|rewrite length_take; lia].
    rewrite Ht at 1. by rewrite !take_drop.
  - intros (pre & post & -> & <-). split.
    + rewrite !length_app. lia.
    + by rewrite drop_app_length, take_app_length.
Qed.

Lemma matches_id_elem target inputs (j : nat) :
  j ∈ matches_id target inputs ↔
  ∃ pre post, inputs = pre ++ target ++ post ∧ length pre = j.
Proof.
  rewrite matches_id_unfold, list_elem_of_filter, elem_of_seq, <- occurs_at.
  split.
  - intros [Ht [_ Hj]]. split; [lia|done].
  - intros [Hj Ht]. split; [done|lia].
Qed.

Lemma matches_id_empty_target inputs :
  matches_id [] inputs = seq 0 (length inputs + 1).
Proof.
  rewrite matches_id_unfold. simpl. rewrite Nat.sub_0_r.
  apply filter_all. by apply Forall_forall.
Qed.

Lemma print_matches_in_range (embeddings : list (list R)) (ids : list nat) st :
  Forall (λ j, j < length embeddings) ids →
  print_matches embeddings ids st
  = (Ret tt,
     State (heap st)
       (trace st ++ omap (λ j, (λ v, Print [PReals v]) <$> embeddings !! j) ids)).
Proof.
  unfold print_matches. intros Hall. revert st.
  induction Hall as [|j ids Hj _ IH]; intros st; simpl.
  - unfold ret. rewrite app_nil_r. by destruct st.
  - destruct (lookup_lt_is_Some_2 embeddings j Hj) as [v Hv].
    rewrite bind_assoc, getitem_of_nat, Hv. simpl of_option.
    rewrite bind_lift_Ret, bind_print. rewrite IH. simpl.
    by rewrite <- app_assoc.
Qed.

End Matches.

(** X1. [matches_id] lists exactly the offsets at which [target_ids]
    occurs in [inputs_list] as a run of consecutive ids, each offset once
    and in increasing order. *)
Theorem matches_id_lists_occurrences (target_ids inputs_list : list nat) :
  (∀ j : nat, j ∈ matches_id target_ids inputs_list ↔
              ∃ pre post, inputs_list = pre ++ target_ids ++ post ∧ length pre = j) ∧
  StronglySorted lt (matches_id target_ids inputs_list).
Proof.
  split; [apply matches_id_elem|].
  rewrite matches_id_unfold. apply StronglySorted_filter, seq_sorted.
Qed.

(** X2. Two edge cases of the search.  A target with no ids (the tokenizer
    gave nothing) matches at every offset, the offset one past the last
    input id included; a target longer than the input matches nowhere,
    and nothing is raised. *)
Theorem matches_id_edge_cases (target_ids inputs_list : list nat) :
  matches_id [] inputs_list = seq 0 (length inputs_list + 1) ∧
  ((length inputs_list < length target_ids)%nat →
   matches_id target_ids inputs_list = []).
Proof.
  split; [apply matches_id_empty_target|].
  intros Hlt. rewrite matches_id_unfold.
  by replace (length inputs_list + 1 - length target_ids)%nat with 0%nat by lia.
Qed.

Lemma matches_id_edge_cases_witness :
  matches_id [] [101; 2924; 102]%nat = [0; 1; 2; 3]%nat ∧
  matches_id [7; 8; 9; 10]%nat [101; 2924; 102]%nat = [].
Proof.
  destruct (matches_id_edge_cases [7; 8; 9; 10]%nat [101; 2924; 102]%nat)
    as [Hempty Hlong].
  split; [exact Hempty|]. apply Hlong. simpl. lia.
Defined.

(** X3. With a target of at least one id and one embedding per input id,
    the loop over the matches never indexes out of range: it prints the
    embedding at each match, in order, and ends normally.  With an empty
    target the last offset is one past the end, and the loop ends in
    IndexError after it has printed every embedding. *)
Theorem print_matches_total_for_nonempty_target
    (target_ids inputs_list : list nat) (embeddings : list (list R)) (st : state) :
  length embeddings = length inputs_list →
  (target_ids ≠ [] →
   print_matches embeddings (matches_id target_ids inputs_list) st
   = (Ret tt,
      State (heap st)
        (trace st ++
         omap (λ j, (λ v, Print [PReals v]) <$> embeddings !! j)
           (matches_id target_ids inputs_list))) ∧
   Forall (λ j, j < length embeddings)%nat (matches_id target_ids inputs_list)) ∧
  print_matches embeddings (matches_id [] inputs_list) st
  = (Raise IndexError,
     State (heap st) (trace st ++ ((λ v, Print [PReals v]) <$> embeddings))).
Proof.
  intros Hlen. split.
  - intros Hne.
    assert (Forall (λ j, j < length embeddings)%nat
              (matches_id target_ids inputs_list)) as Hall.
    { apply Forall_forall. intros j Hj.
      apply matches_id_elem in Hj as (pre & post & -> & <-).
      rewrite Hlen, !length_app. destruct target_ids; [done|]. simpl. lia. }
    split; [|done]. by apply print_matches_in_range.
  - rewrite matches_id_empty_target.
    rewrite Nat.add_1_r, seq_S, <- Hlen. simpl.
    unfold print_matches.
    assert (∀ ids st0, Forall (λ j, j < length embeddings)%nat ids →
      for_each (ids ++ [length embeddings])
        (λ (m : nat) (_ : ()),
           v <~ lift (Py.getitem embeddings (Z.of_nat m)); print [PReals v]) ()
        st0
      = (Raise IndexError,
         State (heap st0)
           (trace st0 ++ omap (λ j, (λ v, Print [PReals v]) <$> embeddings !! j) ids)))
      as Hgen.
    { intros ids st0 Hall. revert st0.
      induction Hall as [|j ids Hj _ IH]; intros st0; simpl.
      - rewrite bind_assoc, getitem_of_nat.
        rewrite lookup_ge_None_2 by lia. simpl.
        rewrite app_nil_r. by destruct st0.
      - destruct (lookup_lt_is_Some_2 embeddings j Hj) as [v Hv].
        rewrite bind_assoc, getitem_of_nat, Hv. simpl of_option.
        rewrite bind_lift_Ret, bind_print, IH. simpl. by rewrite <- app_assoc. }
    rewrite Hgen.
    + do 3 f_equal. clear.
      assert (∀ pre, omap (λ j, (λ v, Print [PReals v]) <$> (pre ++ embeddings) !! j)
                       (seq (length pre) (length embeddings))
                     = (λ v, Print [PReals v]) <$> embeddings) as Hall.
      { induction embeddings as [|v vs IH]; intros pre; simpl; [done|].
        rewrite lookup_app_r, Nat.sub_diag by lia. simpl. f_equal.
        specialize (IH (pre ++ [v])).
        rewrite length_app, <- app_assoc in IH. simpl in IH.
        by rewrite Nat.add_1_r in IH. }
      apply (Hall []).
    + apply Forall_forall. intros j [_ Hj]%elem_of_seq. lia.
Qed.

Lemma print_matches_total_for_nonempty_target_witness :
  print_matches [[1; 2]; [3; 4]; [5; 6]]%R (matches_id [7]%nat [5; 7; 9]%nat) Toy.start
  = (Ret tt, State ∅ [Print [PReals [3; 4]%R]]).
Proof.
  destruct (print_matches_total_for_nonempty_target [7]%nat [5; 7; 9]%nat
              [[1; 2]; [3; 4]; [5; 6]]%R Toy.start eq_refl) as [Hrun _].
  destruct Hrun as [Hrun _]; [discriminate|]. exact Hrun.
Defined.

(** ** Notebook 1: forming the word categories *)

Section Categories.
Context `{G : Globals}.
Local Open Scope nat_scope.
Implicit Types (labels : list Z) (tokens : list (list string)).

Lemma where_eq_spec labels (cl : Z) (s j : nat) :
  j ∈ where_eq labels cl s ↔ s ≤ j ∧ labels !! (j - s) = Some cl.
Proof.
  revert s. induction labels as [|x labels IH]; intros s; simpl.
  - split; [by intros ?%elem_of_nil|by intros [_ ?]].
  - assert (j ∈ where_eq labels cl (S s) ↔ s < j ∧ (x :: labels) !! (j - s) = Some cl)
      as Htail.
    { rewrite IH. split.
      - intros [Hs Hj]. split; [lia|].
        by replace (j - s) with (S (j - S s)) by lia.
      - intros [Hs Hj]. split; [lia|].
        by replace (j - s) with (S (j - S s)) in Hj by lia. }
    destruct (Z.eqb_spec x cl) as [->|Hne].
    + rewrite elem_of_cons, Htail. split.
      * intros [->|[Hs Hj]]; [|split; [lia|done]].
        split; [lia|]. by rewrite Nat.sub_diag.
      * intros [Hs Hj].
        destruct (decide (j = s)) as [->|?]; [by left|right].
        split; [lia|done].
    + rewrite Htail. split.
      * intros [Hs Hj]. split; [lia|done].
      * intros [Hs Hj].
        destruct (decide (j = s)) as [->|?]; [|split; [lia|done]].
        rewrite Nat.sub_diag in Hj. simpl in Hj. by simplify_eq.
Qed.

Lemma sum_lists_Ret tokens (idx : list nat) :
  Forall (λ i, i < length tokens) idx →
  ∃ ms, PySeq.sum_lists tokens idx = Ret ms ∧
        ∀ t, t ∈ ms ↔ ∃ i ts, i ∈ idx ∧ tokens !! i = Some ts ∧ t ∈ ts.
Proof.
  induction 1 as [|i idx Hi _ (ms & Hms & Hin)]; simpl.
  - exists []. split; [done|]. intros t. split; [by intros ?%elem_of_nil|].
    by intros (? & ? & ?%elem_of_nil & _).
  - destruct (lookup_lt_is_Some_2 tokens i Hi) as [ts Hts].
    rewrite getitem_of_nat, Hts, Hms. simpl. eexists. split; [done|].
    intros t. rewrite elem_of_app, Hin. split.
    + intros [Ht|(j & ts' & Hj & Hts' & Ht)].
      * exists i, ts. split_and!; [by left|done..].
      * exists j, ts'. split_and!; [by right|done..].
    + intros (j & ts' & [->|Hj]%elem_of_cons & Hts' & Ht).
      * left. by simplify_eq.
      * right. eauto.
Qed.

Lemma sum_lists_Raise tokens (idx : list nat) :
  Exists (λ i, length tokens ≤ i) idx →
  PySeq.sum_lists tokens idx = Raise IndexError.
Proof.
  induction idx as [|i idx IH]; intros Hex; [by apply Exists_nil in Hex|].
  simpl. rewrite getitem_of_nat.
  destruct (tokens !! i) as [ts|] eqn:Hts; simpl; [|done].
  apply Exists_cons in Hex as [Hi|Hex].
  - apply lookup_lt_Some in Hts. lia.
  - by rewrite IH.
Qed.

Lemma sum_lists_outcome tokens (idx : list nat) :
  (∃ ms, PySeq.sum_lists tokens idx = Ret ms) ∨
  PySeq.sum_lists tokens idx = Raise IndexError.
Proof.
  destruct (decide (Forall (λ i, i < length tokens) idx)) as [Hall|Hex].
  - left. destruct (sum_lists_Ret tokens idx Hall) as (ms & -> & _). eauto.
  - right. apply sum_lists_Raise. apply not_Forall_Exists in Hex; [|apply _].
    eapply Exists_impl; [exact Hex|]. simpl. lia.
Qed.

(** The members gathered for one cluster. *)
Local Abbreviation gather labels tokens cl :=
  (PySeq.sum_lists tokens (where_eq labels cl 0)).

Local Abbreviation category_of labels tokens cl :=
  (match gather labels tokens cl with
   | Ret ms => list_to_set (C := gset string) ms
   | Raise _ => ∅
   end).

Local Abbreviation body labels tokens :=
  (λ (cl : Z) (word_categories : gmap Z (gset string)),
     members <~ lift (gather labels tokens cl);
     print [PStr ("Category " +:+ pretty cl +:+ ":")];~
     print [PStr (PyStr.join ", "
                    (elements (list_to_set (C := gset string) members)) +:+ "\n")];~
     ret (<[cl := list_to_set (C := gset string) members]> word_categories)).

Lemma categories_loop_Ret labels tokens (cls : list Z) wc st :
  Forall (λ cl, ∃ ms, gather labels tokens cl = Ret ms) cls →
  ∃ evs,
    for_each cls (body labels tokens) wc st
    = (Ret (foldl (λ d cl, <[cl := category_of labels tokens cl]> d) wc cls),
       State (heap st) (trace st ++ evs)) ∧
    length evs = 2 * length cls.
Proof.
  intros Hall. revert wc st.
  induction Hall as [|cl cls [ms Hms] _ IH]; intros wc st; simpl.
  - exists []. unfold ret. rewrite app_nil_r. by destruct st.
  - rewrite bind_assoc, Hms, bind_lift_Ret.
    rewrite !bind_assoc, bind_print, !bind_assoc, bind_print, bind_ret.
    edestruct IH as (evs & -> & Hlen).
    eexists (_ :: _ :: evs). simpl. split.
    + by rewrite <- !app_assoc.
    + simpl. lia.
Qed.

Lemma categories_loop_Raise labels tokens (cls : list Z) wc st :
  Exists (λ cl, gather labels tokens cl = Raise IndexError) cls →
  (for_each cls (body labels tokens) wc st).1 = Raise IndexError.
Proof.
  revert wc st. induction cls as [|cl cls IH]; intros wc st Hex;
    [by apply Exists_nil in Hex|].
  simpl. rewrite bind_assoc.
  destruct (sum_lists_outcome tokens (where_eq labels cl 0)) as [[ms Hms]|Hr].
  - rewrite Hms, bind_lift_Ret.
    rewrite !bind_assoc, bind_print, !bind_assoc, bind_print, bind_ret.
    apply IH. apply Exists_cons in Hex as [Hcl|Hex]; [congruence|done].
  - by rewrite Hr.
Qed.

Lemma foldl_insert_lookup (f : Z → gset string) (cls : list Z)
    (wc : gmap Z (gset string)) (cl : Z) :
  foldl (λ d c, <[c := f c]> d) wc cls !! cl
  = if decide (cl ∈ cls) then Some (f cl) else wc !! cl.
Proof.
  revert wc. induction cls as [|c cls IH]; intros wc; simpl; [done|].
  rewrite IH. destruct (decide (cl ∈ cls)) as [Hin|Hnin].
  - rewrite decide_True; [done|by right].
  - destruct (decide (c = cl)) as [->|Hne].
    + rewrite decide_True by (by left). apply lookup_insert_eq.
    + rewrite decide_False by (intros [?|?]%elem_of_cons; done).
      by apply lookup_insert_ne.
Qed.

Lemma elem_of_range (k cl : Z) : cl ∈ Py.range 0 k ↔ (0 ≤ cl < k)%Z.
Proof.
  unfold Py.range. rewrite list_elem_of_fmap. split.
  - intros (j & -> & [_ Hj]%elem_of_seq). lia.
  - intros Hcl. exists (Z.to_nat cl). split; [lia|]. apply elem_of_seq. lia.
Qed.

Lemma word_categories_cell_Ret labels tokens (k : Z) st :
  (∀ (i : nat) cl, labels !! i = Some cl → (0 ≤ cl < k)%Z → i < length tokens) →
  ∃ wc evs,
    word_categories_cell labels tokens k st
    = (Ret wc, State (heap st) (trace st ++ evs)) ∧
    length evs = 2 * Z.to_nat k ∧
    ∀ cl,
      if decide (0 ≤ cl < k)%Z then
        ∃ cat, wc !! cl = Some cat ∧
               ∀ t, t ∈ cat ↔ ∃ (i : nat) ts,
                      labels !! i = Some cl ∧ tokens !! i = Some ts ∧ t ∈ ts
      else wc !! cl = None.
Proof.
  intros Hcover.
  assert (∀ cl, (0 ≤ cl < k)%Z →
            Forall (λ i, i < length tokens) (where_eq labels cl 0)) as Hidx.
  { intros cl Hcl. apply Forall_forall. intros i [_ Hi]%where_eq_spec.
    rewrite Nat.sub_0_r in Hi. eauto. }
  destruct (categories_loop_Ret labels tokens (Py.range 0 k) ∅ st)
    as (evs & Hrun & Hlen).
  { apply Forall_forall. intros cl Hcl%elem_of_range.
    destruct (sum_lists_Ret tokens _ (Hidx cl Hcl)) as (ms & Hms & _). eauto. }
  eexists _, evs. split_and!; [exact Hrun| |].
  - rewrite Hlen. unfold Py.range. rewrite length_fmap, length_seq. do 2 f_equal. lia.
  - intros cl. rewrite foldl_insert_lookup.
    destruct (decide (0 ≤ cl < k)%Z) as [Hcl|Hcl].
    + rewrite decide_True by (by apply elem_of_range).
      destruct (sum_lists_Ret tokens _ (Hidx cl Hcl)) as (ms & Hms & Hin).
      rewrite Hms. eexists. split; [done|]. intros t.
      rewrite elem_of_list_to_set, Hin. split.
      * intros (i & ts & [_ Hi]%where_eq_spec & Hts & Ht).
        rewrite Nat.sub_0_r in Hi. eauto.
      * intros (i & ts & Hi & Hts & Ht). exists i, ts. split_and!; [|done..].
        apply where_eq_spec. rewrite Nat.sub_0_r. split; [lia|done].
    + rewrite decide_False by (by rewrite elem_of_range). done.
Qed.

End Categories.

(** X4. When every sentence whose cluster label is one of [0 .. k-1] has
    its list of tokens, the cell returns a dict whose keys are exactly
    [0 .. k-1]: category [cl] holds a token if and only if the token is in
    the list of some sentence labelled [cl].  So no token of a labelled
    sentence is lost, a cluster without sentences gives an empty
    category, and sentences with a label outside [0 .. k-1] are left out.
    Two lines are printed per category and the heap is not touched. *)
Theorem word_categories_membership
    (labels : list Z) (all_high_tokens : list (list string)) (k : Z) (st : state) :
  (∀ (i : nat) cl, labels !! i = Some cl → (0 ≤ cl < k)%Z →
                   (i < length all_high_tokens)%nat) →
  ∃ word_categories evs,
    word_categories_cell labels all_high_tokens k st
    = (Ret word_categories, State (heap st) (trace st ++ evs)) ∧
    length evs = (2 * Z.to_nat k)%nat ∧
    ∀ cl,
      if decide (0 ≤ cl < k)%Z then
        ∃ cat, word_categories !! cl = Some cat ∧
               ∀ t, t ∈ cat ↔ ∃ (i : nat) ts,
                      labels !! i = Some cl ∧ all_high_tokens !! i = Some ts ∧ t ∈ ts
      else word_categories !! cl = None.
Proof. apply word_categories_cell_Ret. Qed.

Lemma word_categories_membership_witness :
  ∃ word_categories evs cat,
    word_categories_cell [1; 0; 1; 7]%Z
      [["black"; "big"]; ["chicago"]; ["big"; "fat"]]%string 2 Toy.start
    = (Ret word_categories, State ∅ evs) ∧
    word_categories !! 1%Z = Some cat ∧
    word_categories !! 7%Z = None ∧
    ("fat" ∈ cat ∧ "chicago" ∉ cat)%string.
Proof.
  destruct (word_categories_membership [1; 0; 1; 7]%Z
              [["black"; "big"]; ["chicago"]; ["big"; "fat"]]%string 2 Toy.start)
    as (wc & evs & Hrun & _ & Hcat).
  - intros i cl Hi Hcl. destruct i as [|[|[|[|i]]]]; simplify_eq/=; lia.
  - pose proof (Hcat 7%Z) as H7. simpl in H7.
    specialize (Hcat 1%Z). simpl in Hcat. destruct Hcat as (cat & Hwc & Hin).
    exists wc, evs, cat. split_and!; [exact Hrun|exact Hwc|exact H7| |].
    + apply Hin. exists 2%nat, ["big"; "fat"]%string.
      split_and!; [reflexivity..|]. apply elem_of_cons; right; apply elem_of_cons; by left.
    + intros (i & ts & Hi & Hts & Ht)%Hin.
      destruct i as [|[|[|[|i]]]]; simplify_eq/=.
      * apply elem_of_cons in Ht as [?|Ht]; [done|].
        apply elem_of_cons in Ht as [?|Ht]; [done|]. by apply elem_of_nil in Ht.
      * apply elem_of_cons in Ht as [?|Ht]; [done|].
        apply elem_of_cons in Ht as [?|Ht]; [done|]. by apply elem_of_nil in Ht.
Defined.

(** X5. When some sentence with a label in [0 .. k-1] has no list of
    tokens ([estimator.labels_] is longer than [all_high_tokens]), the
    cell ends in IndexError. *)
Theorem word_categories_missing_tokens
    (labels : list Z) (all_high_tokens : list (list string)) (k : Z) (st : state)
    (i : nat) (cl : Z) :
  labels !! i = Some cl → (0 ≤ cl < k)%Z → (length all_high_tokens ≤ i)%nat →
  (word_categories_cell labels all_high_tokens k st).1 = Raise IndexError.
Proof.
  intros Hi Hcl Hlen. apply categories_loop_Raise.
  apply Exists_exists. exists cl. split; [by apply elem_of_range|].
  apply sum_lists_Raise. apply Exists_exists. exists i. split; [|done].
  apply where_eq_spec. rewrite Nat.sub_0_r. split; [lia|done].
Qed.

Lemma word_categories_missing_tokens_witness :
  (word_categories_cell [0; 1; 0]%Z
     [["black"]; ["chicago"]]%string 2 Toy.start).1 = Raise IndexError.
Proof.
  apply (word_categories_missing_tokens [0; 1; 0]%Z
           [["black"]; ["chicago"]]%string 2 Toy.start 2 0%Z).
  - reflexivity.
  - lia.
  - simpl. lia.
Defined.

(** ** Notebook 1: the best predictions and the tokens above the threshold *)

Section BestPredictions.
Context `{G : Globals}.
Hypothesis Hpart : argpartition_contract.
Hypothesis Hsort : argsort_contract.
Local Open Scope nat_scope.

(** The positions [sorted_indexes] and the values [probs[sorted_indexes]]
    for [1 <= k <= len(probs)]. *)
Lemma sorted_top_indexes_top_k (probs : list R) (k : nat) :
  1 ≤ k ≤ length probs →
  ∃ sorted vals,
    sorted_top_indexes probs (Z.of_nat k) = Ret sorted ∧
    Np.take_idx probs sorted = Ret vals ∧
    length sorted = k ∧ NoDup sorted ∧
    Forall2 (λ j x, probs !! j = Some x) sorted vals ∧
    (∀ p q x y, p ≤ q → vals !! p = Some x → vals !! q = Some y → (y <= x)%R) ∧
    (∀ j y, j ∉ sorted → probs !! j = Some y → Forall (λ x, (y <= x)%R) vals).
Proof.
  intros [Hk1 Hk].
  destruct (sorted_top_indexes_spec Hpart Hsort probs k)
    as (part & sorted & _ & Hperm & Hprop & Hrun & Hsp & Hdesc); [lia..|].
  assert (cut (length probs) k = length probs - k) as Hcut.
  { unfold cut. case_decide; lia. }
  rewrite Hcut in *.
  assert (length part = length probs) as Hlen by (by rewrite Hperm, length_seq).
  assert (Forall (λ j, j < length probs) sorted) as Hrange.
  { apply Forall_forall. intros j Hj. rewrite Hsp in Hj.
    assert (j ∈ part) as Hj'
      by (eapply elem_of_submseteq; [exact Hj|apply submseteq_drop]).
    rewrite Hperm in Hj'. apply elem_of_seq in Hj'. lia. }
  destruct (take_idx_defined probs sorted Hrange) as [vals Hvals].
  pose proof Hvals as Hf2%take_idx_Ret.
  exists sorted, vals. split_and!; [done|done| | |done| |].
  - rewrite Hsp, length_drop. lia.
  - rewrite Hsp. eapply sublist_NoDup; [|apply sublist_drop].
    rewrite Hperm. apply NoDup_seq.
  - intros p q x y Hpq Hx Hy.
    destruct (Forall2_lookup_r _ _ _ _ _ Hf2 Hx) as (i & Hi & Hix).
    destruct (Forall2_lookup_r _ _ _ _ _ Hf2 Hy) as (j & Hj & Hjy).
    by eapply (Hdesc p q i j).
  - intros j y Hj Hy. apply Forall_forall. intros x Hx.
    apply list_elem_of_lookup in Hx as [p0 Hx].
    destruct (Forall2_lookup_r _ _ _ _ _ Hf2 Hx) as (i & Hi0 & Hix).
    assert (i ∈ sorted) as Hi by (by eapply list_elem_of_lookup_2).
    rewrite Hsp in Hi, Hj.
    apply list_elem_of_lookup in Hi as [p Hp]. rewrite lookup_drop in Hp.
    assert (j ∈ part) as [q Hq]%list_elem_of_lookup.
    { rewrite Hperm. apply elem_of_seq. apply lookup_lt_Some in Hy. lia. }
    assert (q < length probs - k) as Hqc.
    { destruct (decide (q < length probs - k)) as [|Hge]; [done|].
      exfalso. apply Hj. apply list_elem_of_lookup.
      exists (q - (length probs - k)). rewrite lookup_drop.
      by replace (length probs - k + (q - (length probs - k))) with q by lia. }
    destruct (lookup_lt_is_Some_2 part (length probs - k)) as [jk Hjk]; [lia|].
    destruct (lookup_lt_is_Some_2 probs jk) as [xk Hxk].
    { assert (jk ∈ part) as Hin by (by eapply list_elem_of_lookup_2).
      rewrite Hperm in Hin. apply elem_of_seq in Hin. lia. }
    destruct (Hprop _ _ _ _ _ Hq Hjk Hy Hxk) as [Hlow _].
    destruct (Hprop _ _ _ _ _ Hp Hjk Hix Hxk) as [_ Hhigh].
    specialize (Hlow Hqc).
    destruct (decide (p = 0)) as [->|Hp0].
    + rewrite Nat.add_0_r in Hp. by simplify_eq.
    + etrans; [exact Hlow|]. apply Hhigh. lia.
Qed.

End BestPredictions.

Section HighTokens.
Local Open Scope R_scope.

(** Positive values above a threshold: their number times the threshold
    stays below the sum of all values. *)
Lemma where_gt_below_sum (xs : list R) (thres : R) (s : nat) :
  xs ≠ [] → Forall (λ x, 0 < x) xs →
  INR (length (Np.where_gt xs thres s)) * thres < sum_R xs.
Proof.
  intros Hne Hpos. revert s.
  induction Hpos as [|x xs Hx Hpos IH]; intros s; [done|].
  simpl. destruct (decide (xs = [])) as [->|Hxs].
  - simpl. destruct (Rlt_dec thres x); simpl; lra.
  - specialize (IH Hxs (S s)).
    destruct (Rlt_dec thres x) as [Hlt|_]; [|lra].
    change (length (s :: Np.where_gt xs thres (S s)))
      with (S (length (Np.where_gt xs thres (S s)))).
    rewrite S_INR. lra.
Qed.

Lemma high_indexes_softmax (logits : list R) (thres : R) :
  INR (length (Np.where_gt (Np.softmax logits) thres 0)) * thres < 1.
Proof.
  destruct (decide (logits = [])) as [->|Hne].
  - simpl. lra.
  - rewrite <- (softmax_sum logits Hne). apply where_gt_below_sum.
    + unfold Np.softmax. by destruct logits.
    + apply Forall_forall. apply softmax_pos.
Qed.

Lemma high_indexes_softmax_100 (logits : list R) :
  (length (Np.where_gt (Np.softmax logits) 0.01 0) < 100)%nat.
Proof.
  apply INR_lt. pose proof (high_indexes_softmax logits 0.01) as Hb.
  replace (INR 100) with 100 by (simpl; lra). lra.
Qed.

End HighTokens.

Lemma omap_all_Some {A B} (f : A → option B) (d : B) (l : list A) :
  Forall (λ x, is_Some (f x)) l → omap f l = (λ x, default d (f x)) <$> l.
Proof.
  induction 1 as [|x l [v Hv] _ IH]; simpl; [done|].
  rewrite Hv. simpl. by f_equal.
Qed.

Section HighTokensCell.
Context `{G : Globals}.
Hypothesis Hpart : argpartition_contract.
Hypothesis Hsort : argsort_contract.
Local Open Scope nat_scope.

Local Abbreviation high_of logits :=
  (convert_ids_to_tokens (Np.where_gt (Np.softmax logits) 0.01 0)).

Local Abbreviation cell_body sentence_list :=
  (λ (row : list (list R) * nat) (acc : Z * list (list string)),
     print [PStr "Sentence:"];~
     s <~ lift (Py.getitem sentence_list acc.1);
     print [PStr s];~
     logits <~ lift (Py.getitem row.1 (Z.of_nat row.2));
     emit (SmCall logits);~
     preds <~ get_top_predictions (Np.softmax logits) 5 0.01%R;
     ret ((acc.1 + 1)%Z, acc.2 ++ [preds.2])).

Lemma high_tokens_loop (sentence_list : list string)
    (pairs : list (list (list R) * nat)) (a : nat) (done : list (list string)) st :
  a + length pairs ≤ length sentence_list →
  Forall (λ rm, ∃ logits, rm.1 !! rm.2 = Some logits ∧ 5 ≤ length logits) pairs →
  ∃ evs,
    for_each pairs (cell_body sentence_list) (Z.of_nat a, done) st
    = (Ret (Z.of_nat (a + length pairs),
            done ++ ((λ rm, high_of (default [] (rm.1 !! rm.2))) <$> pairs)),
       State (heap st) (trace st ++ evs)) ∧
    length evs = length pairs * 5 ∧
    softmax_inputs evs = omap (λ rm, rm.1 !! rm.2) pairs ∧
    ∀ i s, i < length pairs → sentence_list !! (a + i) = Some s →
           evs !! (i * 5 + 1) = Some (Print [PStr s]).
Proof.
  intros Hlen Hall. revert a done st Hlen.
  induction Hall as [|[row m] pairs (logits & Hrow & Hk) _ IH];
    intros a done st Hlen; simpl in *.
  - exists []. rewrite Nat.add_0_r, !app_nil_r. split_and!; [by destruct st|done..|].
    intros i s Hi. lia.
  - destruct (lookup_lt_is_Some_2 sentence_list a) as [s Hs]; [lia|].
    rewrite !bind_assoc, bind_print, !bind_assoc.
    rewrite getitem_of_nat, Hs. simpl. rewrite bind_lift_Ret.
    rewrite !bind_assoc, bind_print, !bind_assoc.
    rewrite getitem_of_nat, Hrow. simpl. rewrite bind_lift_Ret.
    rewrite !bind_assoc, bind_emit, !bind_assoc.
    destruct (get_top_predictions_run Hpart Hsort (Np.softmax logits) 5 0.01%R
                (State (heap st)
                   (((trace st ++ [Print [PStr "Sentence:"]]) ++ [Print [PStr s]])
                    ++ [SmCall logits])))
      as (sorted & vals & _ & Hrun); [rewrite length_softmax; lia..|].
    change (Z.of_nat 5) with 5%Z in Hrun.
    erewrite bind_run_Ret by exact Hrun. rewrite bind_ret. simpl.
    replace (Z.of_nat a + 1)%Z with (Z.of_nat (S a)) by lia.
    edestruct (IH (S a)) as (evs & -> & Hlen' & Hsm & Hpr); [lia|].
    eexists (_ :: _ :: _ :: _ :: _ :: evs). split_and!.
    + simpl. rewrite <- !app_assoc. simpl.
      replace (a + S (length pairs)) with (S (a + length pairs)) by lia.
      reflexivity.
    + simpl. lia.
    + simpl. by rewrite Hsm.
    + intros i s' Hi Hs'. destruct i as [|i].
      * rewrite Nat.add_0_r in Hs'. simpl. by simplify_eq.
      * replace (S i * 5 + 1) with (5 + (i * 5 + 1)) by lia. simpl.
        apply Hpr; [lia|]. by replace (S a + i) with (a + S i) by lia.
Qed.

End HighTokensCell.

(** X6. With numpy's contracts for [argpartition] and [argsort] and
    [1 <= k <= len(probs)], [get_top_predictions] returns: the first
    component names [k] distinct positions, the printed values are the
    probabilities at these positions in non-increasing order, no position
    left out has a larger probability than a printed one, and the second
    component names exactly the positions whose probability is above the
    threshold.  The call prints two lines and changes nothing else. *)
Theorem get_top_predictions_k_best `{G : Globals}
    (probs : list R) (k : nat) (thres : R) (st : state) :
  argpartition_contract → argsort_contract →
  (1 ≤ k ≤ length probs)%nat →
  ∃ sorted vals,
    get_top_predictions probs (Z.of_nat k) thres st
    = (Ret (convert_ids_to_tokens sorted,
            convert_ids_to_tokens (Np.where_gt probs thres 0)),
       State (heap st)
         (trace st ++
          [Print [PStr "Ordered top predicted tokens: ";
                  PTokens (convert_ids_to_tokens sorted)];
           Print [PStr "Ordered top predicted values: "; PReals vals;
                  PStr "\n"]])) ∧
    length sorted = k ∧ NoDup sorted ∧
    Forall2 (λ j x, probs !! j = Some x) sorted vals ∧
    (∀ p q x y, (p ≤ q)%nat → vals !! p = Some x → vals !! q = Some y → (y <= x)%R) ∧
    (∀ j y, j ∉ sorted → probs !! j = Some y → Forall (λ x, (y <= x)%R) vals) ∧
    (∀ j, j ∈ Np.where_gt probs thres 0 ↔ ∃ x, probs !! j = Some x ∧ (thres < x)%R).
Proof.
  intros Hpart Hsort Hk.
  destruct (sorted_top_indexes_top_k Hpart Hsort probs k Hk)
    as (sorted & vals & Hrun & Hvals & Hlen & Hnd & Hf2 & Hdesc & Hdom).
  exists sorted, vals. split_and!; try done.
  - unfold get_top_predictions.
    rewrite Hrun, bind_lift_Ret, bind_print, Hvals, bind_lift_Ret, bind_print.
    unfold ret. simpl. by rewrite <- app_assoc.
  - intros j. rewrite where_gt_spec, Nat.sub_0_r. split.
    + by intros [_ ?].
    + intros ?. split; [lia|done].
Qed.

Lemma get_top_predictions_k_best_witness :
  ∃ sorted vals st',
    get_top_predictions (G := Toy.globals) [0.1; 0.6; 0.3]%R 2 0.2%R Toy.start
    = (Ret (convert_ids_to_tokens (G := Toy.globals) sorted,
            convert_ids_to_tokens (G := Toy.globals)
              (Np.where_gt [0.1; 0.6; 0.3]%R 0.2%R 0)), st') ∧
    length sorted = 2%nat ∧
    Forall2 (λ j x, [0.1; 0.6; 0.3]%R !! j = Some x) sorted vals.
Proof.
  destruct (get_top_predictions_k_best (G := Toy.globals)
              [0.1; 0.6; 0.3]%R 2 0.2%R Toy.start
              toy_argpartition_contract toy_argsort_contract)
    as (sorted & vals & Hrun & Hlen & _ & Hf2 & _); [simpl; lia|].
  exists sorted, vals. eexists. split_and!; [exact Hrun|exact Hlen|exact Hf2].
Defined.

(** X7. [print_top_predictions] under the same conditions: it returns
    after printing two lines, the tokens of [k] distinct positions and
    their probabilities in non-increasing order, and no position left out
    has a larger probability than a printed one.  It calls neither the
    model nor the softmax. *)
Theorem print_top_predictions_k_best `{G : Globals}
    (probs : list R) (k : nat) (st : state) :
  argpartition_contract → argsort_contract →
  (1 ≤ k ≤ length probs)%nat →
  ∃ sorted vals,
    print_top_predictions probs (Z.of_nat k) st
    = (Ret tt,
       State (heap st)
         (trace st ++
          [Print [PStr "Ordered top predicted tokens: ";
                  PTokens (convert_ids_to_tokens sorted)];
           Print [PStr "Ordered top predicted values: "; PReals vals]])) ∧
    length sorted = k ∧ NoDup sorted ∧
    Forall2 (λ j x, probs !! j = Some x) sorted vals ∧
    (∀ p q x y, (p ≤ q)%nat → vals !! p = Some x → vals !! q = Some y → (y <= x)%R) ∧
    (∀ j y, j ∉ sorted → probs !! j = Some y → Forall (λ x, (y <= x)%R) vals).
Proof.
  intros Hpart Hsort Hk.
  destruct (sorted_top_indexes_top_k Hpart Hsort probs k Hk)
    as (sorted & vals & Hrun & Hvals & Hlen & Hnd & Hf2 & Hdesc & Hdom).
  exists sorted, vals. split_and!; try done.
  unfold print_top_predictions.
  rewrite Hrun, bind_lift_Ret, bind_print, Hvals, bind_lift_Ret.
  unfold print, emit. simpl. by rewrite <- app_assoc.
Qed.

Lemma print_top_predictions_k_best_witness :
  ∃ sorted vals st',
    print_top_predictions (G := Toy.globals) [0.1; 0.6; 0.3]%R 2 Toy.start
    = (Ret tt, st') ∧
    length sorted = 2%nat ∧
    Forall2 (λ j x, [0.1; 0.6; 0.3]%R !! j = Some x) sorted vals.
Proof.
  destruct (print_top_predictions_k_best (G := Toy.globals)
              [0.1; 0.6; 0.3]%R 2 Toy.start
              toy_argpartition_contract toy_argsort_contract)
    as (sorted & vals & Hrun & Hlen & _ & Hf2 & _); [simpl; lia|].
  exists sorted, vals. eexists. split_and!; [exact Hrun|exact Hlen|exact Hf2].
Defined.

(** X8. On the output of the softmax, the tokens above the threshold are
    few: whenever [get_top_predictions(sm(logits), k, thres)] returns,
    the number of high tokens times the threshold is below 1.  With the
    default threshold 0.01 a sentence gets fewer than 100 tokens. *)
Theorem get_top_predictions_high_tokens_bounded `{G : Globals}
    (logits : list R) (k : Z) (thres : R) (st st' : state)
    (top_tokens high_tokens : list string) :
  get_top_predictions (Np.softmax logits) k thres st
  = (Ret (top_tokens, high_tokens), st') →
  (INR (length high_tokens) * thres < 1)%R ∧
  (thres = 0.01%R → (length high_tokens < 100)%nat).
Proof.
  intros Hrun. unfold get_top_predictions in Hrun.
  destruct (sorted_top_indexes (Np.softmax logits) k) as [sorted|e] eqn:Hs;
    [|by rewrite bind_lift_Raise in Hrun].
  rewrite bind_lift_Ret, bind_print in Hrun.
  destruct (Np.take_idx (Np.softmax logits) sorted) as [vals|e] eqn:Hv;
    [|by rewrite bind_lift_Raise in Hrun].
  rewrite bind_lift_Ret, bind_print in Hrun. unfold ret in Hrun.
  injection Hrun as _ <- _.
  unfold convert_ids_to_tokens. rewrite length_fmap. split.
  - apply high_indexes_softmax.
  - intros ->. apply high_indexes_softmax_100.
Qed.

Lemma get_top_predictions_high_tokens_bounded_witness :
  ∃ top_tokens high_tokens st',
    get_top_predictions (G := Toy.globals) (Np.softmax [0; 0]%R) 1 0.01%R Toy.start
    = (Ret (top_tokens, high_tokens), st') ∧
    (length high_tokens < 100)%nat.
Proof.
  destruct (get_top_predictions_run (G := Toy.globals)
              toy_argpartition_contract toy_argsort_contract
              (Np.softmax [0; 0]%R) 1 0.01%R Toy.start)
    as (sorted & vals & _ & Hrun); [simpl; lia..|].
  change (Z.of_nat 1) with 1%Z in Hrun.
  eexists _, _, _. split; [exact Hrun|].
  by apply (get_top_predictions_high_tokens_bounded (G := Toy.globals)
              [0; 0]%R 1 0.01%R Toy.start _ _ _ Hrun).
Defined.

(** X9. The cell that collects the high tokens: when there is a sentence
    to print for every pair of [zip(last_hidden_states[0], mask_positions)]
    and every row has at least 5 logits at its mask position, the cell
    returns with [i] the number of pairs (the shorter of the two lists)
    and one entry of [all_high_tokens] per pair, in order: the tokens
    whose softmax probability at the mask position is above 0.01, fewer
    than 100 of them.  The softmax is called once per pair, on the logits
    at the mask position, and sentence [i] is printed in round [i]. *)
Theorem high_tokens_cell_collects `{G : Globals}
    (sentence_list : list string) (hidden : list (list (list R)))
    (mask_pos : list nat) (st : state) :
  argpartition_contract → argsort_contract →
  (length hidden `min` length mask_pos ≤ length sentence_list)%nat →
  (∀ (i : nat) row m, hidden !! i = Some row → mask_pos !! i = Some m →
      ∃ logits, row !! m = Some logits ∧ (5 ≤ length logits)%nat) →
  ∃ all_high_tokens evs,
    high_tokens_cell sentence_list hidden mask_pos st
    = (Ret (Z.of_nat (length hidden `min` length mask_pos), all_high_tokens),
       State (heap st) (trace st ++ evs)) ∧
    length all_high_tokens = (length hidden `min` length mask_pos)%nat ∧
    (∀ (i : nat) row m logits,
       hidden !! i = Some row → mask_pos !! i = Some m → row !! m = Some logits →
       ∃ high_tokens,
         all_high_tokens !! i = Some high_tokens ∧
         high_tokens
         = convert_ids_to_tokens (Np.where_gt (Np.softmax logits) 0.01 0) ∧
         (length high_tokens < 100)%nat ∧
         softmax_inputs evs !! i = Some logits ∧
         ∀ s, sentence_list !! i = Some s →
              evs !! (5 * i + 1)%nat = Some (Print [PStr s])) ∧
    length (softmax_inputs evs) = (length hidden `min` length mask_pos)%nat.
Proof.
  intros Hpart Hsort Hlen Hrows.
  destruct (high_tokens_loop Hpart Hsort sentence_list (zip hidden mask_pos) 0 [] st)
    as (evs & Hrun & Hevs & Hsm & Hpr).
  { by rewrite length_zip. }
  { apply Forall_forall. intros [row m] [i Hi]%list_elem_of_lookup.
    apply lookup_zip_with_Some in Hi as (row' & m' & [= <- <-] & Hrow & Hm).
    simpl. eauto. }
  assert (omap (λ rm : list (list R) * nat, rm.1 !! rm.2) (zip hidden mask_pos)
          = (λ rm, default [] (rm.1 !! rm.2)) <$> zip hidden mask_pos) as Hom.
  { apply omap_all_Some, Forall_forall.
    intros [row m] [i Hi]%list_elem_of_lookup.
    apply lookup_zip_with_Some in Hi as (row' & m' & [= <- <-] & Hrow & Hm).
    destruct (Hrows _ _ _ Hrow Hm) as (? & ? & _). simpl. eauto. }
  rewrite Hom in Hsm. clear Hom.
  rewrite length_zip in *. simpl in Hrun.
  eexists _, evs. split_and!; [exact Hrun| | |].
  - by rewrite length_fmap, length_zip.
  - intros i row m logits Hrow Hm Hlog.
    assert (zip hidden mask_pos !! i = Some (row, m)) as Hz.
    { apply lookup_zip_with_Some. eauto. }
    eexists. split_and!.
    + rewrite list_lookup_fmap, Hz. simpl. by rewrite Hlog.
    + done.
    + unfold convert_ids_to_tokens. rewrite length_fmap.
      apply high_indexes_softmax_100.
    + rewrite Hsm, list_lookup_fmap, Hz. simpl. by rewrite Hlog.
    + intros s Hs. replace (5 * i)%nat with (i * 5)%nat by lia. apply Hpr; [|done].
      apply lookup_lt_Some in Hrow, Hm. lia.
  - by rewrite Hsm, length_fmap, length_zip.
Qed.

Lemma high_tokens_cell_collects_witness :
  ∃ all_high_tokens st',
    high_tokens_cell (G := Toy.globals) ["a [MASK]"; "b [MASK]"]%string
      [[[0; 0; 0; 0; 0; 0; 0]; [9; 0; 0; 0; 0; 0; 0]]]%R [1%nat; 0%nat] Toy.start
    = (Ret (1%Z, all_high_tokens), st') ∧
    length all_high_tokens = 1%nat.
Proof.
  destruct (high_tokens_cell_collects (G := Toy.globals)
              ["a [MASK]"; "b [MASK]"]%string
              [[[0; 0; 0; 0; 0; 0; 0]; [9; 0; 0; 0; 0; 0; 0]]]%R [1%nat; 0%nat]
              Toy.start toy_argpartition_contract toy_argsort_contract)
    as (all & evs & Hrun & Hlen & _).
  - simpl. lia.
  - intros i row m Hrow Hm. destruct i as [|i]; [|done].
    simpl in Hrow, Hm. simplify_eq. eexists. split; [reflexivity|]. simpl. lia.
  - exists all. eexists. split; [exact Hrun|exact Hlen].
Defined.

(** ** Notebook 1: the mask positions and the padded batch *)

Section MaskPositions.
Local Open Scope nat_scope.
Implicit Types (s : list nat) (input_ids : list (list nat)).

Lemma index_Ret s x p :
  Py.index s x = Ret p ↔ s !! p = Some x ∧ ∀ q, q < p → s !! q ≠ Some x.
Proof.
  revert p. induction s as [|y s IH]; intros p; simpl.
  - split; [done|]. by intros [? _].
  - destruct (Nat.eqb_spec y x) as [->|Hne].
    + split.
      * intros [= <-]. split; [done|]. intros q Hq. lia.
      * intros [Hp Hfirst]. destruct p as [|p]; [done|].
        by destruct (Hfirst 0); [lia|].
    + destruct (Py.index s x) as [p'|e]; simpl.
      * split.
        -- intros [= <-]. destruct (proj1 (IH p') eq_refl) as [Hp Hfirst].
           split; [done|]. intros [|q] Hq; simpl; [congruence|].
           apply Hfirst. lia.
        -- intros [Hp Hfirst]. destruct p as [|p]; simpl in Hp; [congruence|].
           assert (Ret p' = Ret p) as [= ->]; [|done].
           apply IH. split; [done|]. intros q Hq. apply (Hfirst (S q)). lia.
      * split; [done|]. intros [Hp Hfirst].
        destruct p as [|p]; simpl in Hp; [congruence|].
        assert (Raise (A := nat) e = Ret p) as Heq; [|done].
        apply IH. split; [done|]. intros q Hq. apply (Hfirst (S q)). lia.
Qed.

Lemma index_Raise s x : x ∉ s → Py.index s x = Raise ValueError.
Proof.
  induction s as [|y s IH]; simpl; [done|]. intros Hx.
  destruct (Nat.eqb_spec y x) as [->|Hne]; [by destruct Hx; left|].
  rewrite IH; [done|]. intros ?. apply Hx. by right.
Qed.

Lemma mask_positions_Ret input_ids tok_MASK mp :
  mask_positions input_ids tok_MASK = Ret mp ↔
  Forall2 (λ s p, Py.index s tok_MASK = Ret p) input_ids mp.
Proof.
  revert mp. induction input_ids as [|s l IH]; intros mp; simpl.
  - split; [intros [= <-]; constructor|by intros ->%Forall2_nil_inv_l].
  - destruct (Py.index s tok_MASK) as [p|e] eqn:Hp; simpl.
    + destruct (mask_positions l tok_MASK) as [ps|e]; simpl.
      * split.
        -- intros [= <-]. constructor; [done|]. by apply IH.
        -- intros (p' & ps' & Hp' & Hps & ->)%Forall2_cons_inv_l.
           apply IH in Hps. congruence.
      * split; [done|].
        intros (p' & ps' & Hp' & Hps & ->)%Forall2_cons_inv_l. by apply IH in Hps.
    + split; [done|].
      intros (p' & ps' & Hp' & Hps & ->)%Forall2_cons_inv_l. congruence.
Qed.

Lemma mask_positions_Raise input_ids tok_MASK :
  Exists (λ s, tok_MASK ∉ s) input_ids →
  mask_positions input_ids tok_MASK = Raise ValueError.
Proof.
  induction input_ids as [|s l IH]; intros Hex; [by apply Exists_nil in Hex|].
  simpl. destruct (decide (tok_MASK ∈ s)) as [Hin|Hnin].
  - destruct (index_defined s tok_MASK Hin) as [p ->]. simpl.
    apply Exists_cons in Hex as [?|Hex]; [done|]. by rewrite IH.
  - by rewrite index_Raise.
Qed.

Lemma padding_cell_parts input_ids tok_MASK mp padded att :
  padding_cell input_ids tok_MASK = Ret (mp, padded, att) →
  mask_positions input_ids tok_MASK = Ret mp ∧
  ∃ m, max_len input_ids = Ret m ∧
       padded = (λ s, s ++ replicate (m - length s) 0) <$> input_ids ∧
       att = attention_mask padded.
Proof.
  intros Hrun. split; [|by eapply padding_cell_Ret].
  unfold padding_cell, padded_input in Hrun.
  destruct (mask_positions input_ids tok_MASK) as [mp'|]; simpl in Hrun; [|done].
  destruct (max_len input_ids) as [m|]; simpl in Hrun; [|done].
  by simplify_eq.
Qed.

End MaskPositions.

(** X10. The padding cell runs to its end exactly on a non-empty batch in
    which every sentence holds the mask id.  On an empty batch ([max] of
    nothing) and on a batch with a sentence without the mask id
    ([s.index(tok_MASK)]) it ends in ValueError, and in no other error. *)
Theorem padding_cell_outcome (input_ids : list (list nat)) (tok_MASK : nat) :
  ((∃ r, padding_cell input_ids tok_MASK = Ret r) ↔
   input_ids ≠ [] ∧ Forall (λ s, tok_MASK ∈ s) input_ids) ∧
  (padding_cell input_ids tok_MASK = Raise ValueError ↔
   input_ids = [] ∨ Exists (λ s, tok_MASK ∉ s) input_ids) ∧
  (∀ e, padding_cell input_ids tok_MASK = Raise e → e = ValueError).
Proof.
  destruct (decide (input_ids = [])) as [->|Hne].
  { split_and!.
    - split; [by intros [? ?]|by intros [? _]].
    - split; [by left|done].
    - by intros e [= <-]. }
  destruct (decide (Forall (λ s, tok_MASK ∈ s) input_ids)) as [Hall|Hex].
  - destruct (padding_cell_defined input_ids tok_MASK Hne Hall) as [r Hr].
    rewrite Hr. split_and!.
    + split; [done|eauto].
    + split; [done|].
      intros [?|Hex]; [done|]. exfalso.
      apply Exists_exists in Hex as (s & Hs & Hnin).
      by eapply Hnin, Forall_forall.
    + done.
  - apply not_Forall_Exists in Hex; [|apply _].
    unfold padding_cell. rewrite (mask_positions_Raise _ _ Hex). simpl.
    split_and!.
    + split; [by intros [? ?]|].
      intros [_ Hall]. exfalso.
      apply Exists_exists in Hex as (s & Hs & Hnin).
      by eapply Hnin, Forall_forall.
    + split; [by right|done].
    + by intros e [= <-].
Qed.

(** X11. When the padding cell has run, there is one mask position per
    sentence, and position [r] points at the first mask id of sentence
    [r]: the padded row holds [tok_MASK] there and at no earlier place,
    the position is inside the unpadded sentence, and, when the mask id is
    not 0, the attention mask is 1 there. *)
Theorem mask_positions_point_at_mask
    (input_ids : list (list nat)) (tok_MASK : nat) mp padded att :
  padding_cell input_ids tok_MASK = Ret (mp, padded, att) →
  length mp = length input_ids ∧
  ∀ (r p : nat) s,
    mp !! r = Some p → input_ids !! r = Some s →
    (p < length s)%nat ∧
    entry padded r p = Some tok_MASK ∧
    (∀ q, (q < p)%nat → entry padded r q ≠ Some tok_MASK) ∧
    (tok_MASK ≠ 0%nat → entry att r p = Some 1%nat).
Proof.
  intros (Hmp & m & Hm & -> & ->)%padding_cell_parts.
  apply mask_positions_Ret in Hmp.
  split; [symmetry; by eapply Forall2_length|].
  intros r p s Hp Hs.
  destruct (Forall2_lookup_l _ _ _ _ _ Hmp Hs) as (p' & Hp' & Hidx).
  rewrite Hp in Hp'. injection Hp' as <-.
  apply index_Ret in Hidx as [Hsp Hfirst].
  pose proof (lookup_lt_Some _ _ _ Hsp) as Hlt.
  assert (∀ q, (q < length s)%nat →
            entry ((λ s, s ++ replicate (m - length s) 0%nat) <$> input_ids) r q
            = s !! q) as Hentry.
  { intros q Hq. unfold entry. rewrite list_lookup_fmap, Hs. simpl.
    by rewrite lookup_app_l. }
  split_and!.
  - done.
  - by rewrite Hentry.
  - intros q Hq. rewrite Hentry by lia. by apply Hfirst.
  - intros Hne. unfold entry, attention_mask.
    rewrite !list_lookup_fmap, Hs. simpl.
    erewrite where_nonzero_lookup by (rewrite lookup_app_l; done).
    by rewrite decide_False.
Qed.

Lemma mask_positions_point_at_mask_witness :
  length [2; 1]%nat = length [[101; 7; 103; 102]; [101; 103; 102]]%nat ∧
  ∀ (r p : nat) s,
    [2; 1]%nat !! r = Some p →
    [[101; 7; 103; 102]; [101; 103; 102]]%nat !! r = Some s →
    (p < length s)%nat ∧
    entry [[101; 7; 103; 102]; [101; 103; 102; 0]]%nat r p = Some 103%nat ∧
    (∀ q, (q < p)%nat →
          entry [[101; 7; 103; 102]; [101; 103; 102; 0]]%nat r q ≠ Some 103%nat) ∧
    (103%nat ≠ 0%nat → entry [[1; 1; 1; 1]; [1; 1; 1; 0]]%nat r p = Some 1%nat).
Proof.
  apply (mask_positions_point_at_mask
           [[101; 7; 103; 102]; [101; 103; 102]]%nat 103%nat).
  reflexivity.
Defined.

(** ** Notebook 1: placing the [MASK] tokens *)

Section Strings.
Implicit Types (s t : string) (c : Ascii.ascii).

Lemma append_cons c s t : String c s +:+ t = String c (s +:+ t).
Proof. reflexivity. Qed.

Lemma append_empty_l s : EmptyString +:+ s = s.
Proof. reflexivity. Qed.

Lemma append_empty_r s : s +:+ EmptyString = s.
Proof. induction s as [|c s IH]; [done|]. by rewrite append_cons, IH. Qed.

Lemma append_assoc s t u : (s +:+ t) +:+ u = s +:+ t +:+ u.
Proof. induction s as [|c s IH]; [done|]. by rewrite !append_cons, IH. Qed.

Lemma eqb_false c d : c ≠ d → Ascii.eqb c d = false.
Proof. intros Hne. by apply Ascii.eqb_neq. Qed.

Lemma split_cons_sep sep s :
  PyStr.split sep (String sep s) = EmptyString :: PyStr.split sep s.
Proof. simpl. by rewrite Ascii.eqb_refl. Qed.

Lemma split_not_nil sep s : PyStr.split sep s ≠ [].
Proof.
  destruct s as [|c s]; simpl; [done|].
  destruct (Ascii.eqb c sep); [done|]. by destruct (PyStr.split sep s).
Qed.

Lemma split_cons_other sep c s piece pieces :
  c ≠ sep → PyStr.split sep s = piece :: pieces →
  PyStr.split sep (String c s) = String c piece :: pieces.
Proof. intros Hc Hs. simpl. by rewrite eqb_false, Hs. Qed.

(** A prefix without the separator stays in front of the first piece. *)
Lemma split_prefix sep a s piece pieces :
  Text.mem sep a = false → PyStr.split sep s = piece :: pieces →
  PyStr.split sep (a +:+ s) = (a +:+ piece) :: pieces.
Proof.
  intros Ha Hs. induction a as [|c a IH]; [done|].
  simpl in Ha. apply orb_false_iff in Ha as [Hc Ha].
  rewrite !append_cons. apply split_cons_other; [|by apply IH].
  by apply Ascii.eqb_neq.
Qed.

Lemma split_no_sep sep a :
  Text.mem sep a = false → PyStr.split sep a = [a].
Proof.
  intros Ha. rewrite <- (append_empty_r a) at 1.
  rewrite (split_prefix sep a EmptyString EmptyString []); [|done..].
  by rewrite append_empty_r.
Qed.

Lemma mem_underscores c n :
  c ≠ Re.underscore → Text.mem c (Re.underscores n) = false.
Proof.
  intros Hc. induction n as [|n IH]; [done|]. cbn [Re.underscores Text.mem].
  rewrite IH, orb_false_r. apply Ascii.eqb_neq. congruence.
Qed.

Lemma mem_append c s t : Text.mem c (s +:+ t) = Text.mem c s || Text.mem c t.
Proof.
  induction s as [|d s IH]; [done|]. rewrite append_cons. simpl.
  by rewrite IH, orb_assoc.
Qed.

Lemma count_append c s t :
  Text.count c (s +:+ t) = (Text.count c s + Text.count c t)%nat.
Proof.
  induction s as [|d s IH]; [done|]. rewrite append_cons. simpl.
  rewrite IH. lia.
Qed.

Lemma count_no_mem c s : Text.mem c s = false → Text.count c s = 0%nat.
Proof.
  induction s as [|d s IH]; [done|]. simpl.
  intros [-> Hs]%orb_false_iff. by rewrite IH.
Qed.

End Strings.

Section Blanks.
Implicit Types (s t text : string) (c : Ascii.ascii) (st : Re.scan).

Lemma newline_not_word : Re.is_word PyStr.newline = false.
Proof. reflexivity. Qed.

Lemma underscore_word : Re.is_word Re.underscore = true.
Proof. reflexivity. Qed.

(** One step of the scan on a character that is not an underscore. *)
Lemma sub_from_other st c s :
  c ≠ Re.underscore →
  Re.sub_from st (String c s)
  = match st with
    | Re.Out _ => EmptyString
    | Re.Run n => if Re.is_word c then Re.underscores n else MASK_TOKEN
    end +:+ String c (Re.sub_from (Re.Out (Re.is_word c)) s).
Proof.
  intros Hc. simpl. rewrite (eqb_false _ _ Hc).
  destruct st as [pw|n]; simpl; [done|]. by destruct (Re.is_word c).
Qed.

(** One step of the scan on an underscore. *)
Lemma sub_from_underscore st s :
  Re.sub_from st (String Re.underscore s)
  = match st with
    | Re.Out false => Re.sub_from (Re.Run 1) s
    | Re.Out true => String Re.underscore (Re.sub_from (Re.Out true) s)
    | Re.Run n => Re.sub_from (Re.Run (S n)) s
    end.
Proof. by destruct st as [[|]|n]. Qed.

Lemma underscores_S n :
  Re.underscores (S n) = String Re.underscore (Re.underscores n).
Proof. reflexivity. Qed.

(** The scan goes through a run of underscores without output when it
    is at a word boundary, and copies it when it is inside a word. *)
Lemma sub_from_run n m s :
  Re.sub_from (Re.Run m) (Re.underscores n +:+ s) = Re.sub_from (Re.Run (m + n)) s.
Proof.
  revert m. induction n as [|n IH]; intros m.
  - change (Re.underscores 0) with EmptyString.
    by rewrite append_empty_l, Nat.add_0_r.
  - rewrite underscores_S, append_cons, sub_from_underscore, IH.
    do 2 f_equal. lia.
Qed.

Lemma sub_from_inside n s :
  Re.sub_from (Re.Out true) (Re.underscores n +:+ s)
  = Re.underscores n +:+ Re.sub_from (Re.Out true) s.
Proof.
  induction n as [|n IH]; [done|].
  by rewrite underscores_S, !append_cons, sub_from_underscore, IH.
Qed.

(** Before a character that is not an underscore, or at the end of the
    text, the scan outside a run does not depend on what came before. *)
Lemma sub_from_Out pw s :
  Text.first s ≠ Some Re.underscore →
  Re.sub_from (Re.Out pw) s = Re.sub_blanks s.
Proof.
  destruct s as [|c s]; [done|]. intros Hc.
  assert (c ≠ Re.underscore) as Hne by (intros ->; by apply Hc).
  unfold Re.sub_blanks. by rewrite !sub_from_other.
Qed.

(** The scan of a text that does not end in an underscore, followed by
    more text. *)
Lemma sub_from_append st s t :
  s ≠ EmptyString → Text.last s ≠ Some Re.underscore →
  Re.sub_from st (s +:+ t)
  = Re.sub_from st s
    +:+ Re.sub_from (Re.Out (Text.is_alnum (Text.last s))) t.
Proof.
  intros Hne Hlast. revert st.
  induction s as [|c s IH]; intros st; [done|].
  destruct (decide (s = EmptyString)) as [->|Hs].
  - simpl in Hlast. assert (c ≠ Re.underscore) as Hc by congruence.
    rewrite append_cons, append_empty_l, !sub_from_other by done.
    rewrite append_assoc, append_cons. simpl.
    rewrite (eqb_false _ _ Hc). simpl. by rewrite andb_true_r.
  - assert (Text.last (String c s) = Text.last s) as Hl.
    { simpl. by destruct s. }
    rewrite Hl in *. specialize (IH Hs Hlast).
    rewrite append_cons. simpl.
    destruct st as [pw|n].
    + destruct (Ascii.eqb c Re.underscore && negb pw); [by rewrite IH|].
      by rewrite IH, append_cons.
    + destruct (Ascii.eqb c Re.underscore); [by rewrite IH|].
      destruct (Re.is_word c); by rewrite IH, append_assoc, append_cons.
Qed.

Lemma sub_blanks_append s t :
  Text.last s ≠ Some Re.underscore →
  Re.sub_blanks (s +:+ t)
  = Re.sub_blanks s +:+ Re.sub_from (Re.Out (Text.is_alnum (Text.last s))) t.
Proof.
  intros Hlast. destruct (decide (s = EmptyString)) as [->|Hs]; [done|].
  by apply sub_from_append.
Qed.

Lemma sub_from_closed st : 
  Text.mem PyStr.newline (Re.sub_from st EmptyString) = false.
Proof. by destruct st. Qed.

(** Substituting and then splitting into lines is substituting in every
    line, the first one from the state of the scan. *)
Lemma split_sub_from st text line lines :
  PyStr.split PyStr.newline text = line :: lines →
  PyStr.split PyStr.newline (Re.sub_from st text)
  = Re.sub_from st line :: (Re.sub_blanks <$> lines).
Proof.
  revert st line lines. induction text as [|c text IH]; intros st line lines.
  - intros [= <- <-]. simpl. by destruct st.
  - destruct (decide (c = PyStr.newline)) as [->|Hc].
    + rewrite split_cons_sep. intros [= <- <-].
      destruct (PyStr.split PyStr.newline text) as [|l0 ls] eqn:Hsp;
        [by apply split_not_nil in Hsp|].
      rewrite sub_from_other by done. rewrite newline_not_word.
      assert (∀ a, Text.mem PyStr.newline a = false →
                PyStr.split PyStr.newline
                  (a +:+ String PyStr.newline (Re.sub_from (Re.Out false) text))
                = a :: (Re.sub_blanks <$> l0 :: ls)) as Hgo.
      { intros a Ha.
        erewrite split_prefix; [|done|rewrite split_cons_sep; reflexivity].
        rewrite append_empty_r. f_equal. by apply IH. }
      destruct st as [pw|n]; by rewrite Hgo.
    + destruct (PyStr.split PyStr.newline text) as [|l0 ls] eqn:Hsp;
        [by apply split_not_nil in Hsp|].
      rewrite (split_cons_other _ _ _ _ _ Hc Hsp). intros [= <- <-].
      destruct (decide (c = Re.underscore)) as [->|Hu].
      * rewrite !sub_from_underscore.
        destruct st as [[|]|n]; [|by apply IH..].
        apply split_cons_other; [done|]. by apply IH.
      * rewrite !sub_from_other by done.
        assert (∀ a, Text.mem PyStr.newline a = false →
                  PyStr.split PyStr.newline
                    (a +:+ String c (Re.sub_from (Re.Out (Re.is_word c)) text))
                  = (a +:+ String c (Re.sub_from (Re.Out (Re.is_word c)) l0))
                      :: (Re.sub_blanks <$> ls)) as Hgo.
        { intros a Ha. apply split_prefix; [done|].
          apply split_cons_other; [done|]. by apply IH. }
        destruct st as [pw|n]; [by apply Hgo|].
        destruct (Re.is_word c); apply Hgo; [|done].
        apply mem_underscores. done.
Qed.

Lemma split_pieces sep s :
  Forall (λ piece, Text.mem sep piece = false) (PyStr.split sep s) ∧
  length (PyStr.split sep s) = S (Text.count sep s) ∧
  PyStr.join (String sep EmptyString) (PyStr.split sep s) = s.
Proof.
  induction s as [|c s (Hall & Hlen & Hjoin)]; [by repeat constructor|].
  pose proof (split_not_nil sep s) as Hne.
  simpl. destruct (Ascii.eqb_spec c sep) as [->|Hc].
  - split_and!.
    + by constructor.
    + simpl. by rewrite Hlen.
    + destruct (PyStr.split sep s) as [|l0 ls]; [done|].
      change (PyStr.join (String sep EmptyString) (EmptyString :: l0 :: ls))
        with (EmptyString +:+ String sep EmptyString
              +:+ PyStr.join (String sep EmptyString) (l0 :: ls)).
      by rewrite Hjoin.
  - destruct (PyStr.split sep s) as [|l0 ls]; [done|].
    apply Forall_cons in Hall as [Hl0 Hall]. split_and!.
    + constructor; [|done]. simpl. rewrite Hl0, orb_false_r.
      by apply Ascii.eqb_neq.
    + simpl in Hlen |- *. lia.
    + rewrite <- Hjoin. by destruct ls.
Qed.

Lemma count_newline_sub_from st text :
  Text.count PyStr.newline (Re.sub_from st text) = Text.count PyStr.newline text.
Proof.
  revert st. induction text as [|c text IH]; intros st; [by destruct st|].
  destruct (decide (c = Re.underscore)) as [->|Hu].
  - rewrite sub_from_underscore.
    assert (Text.count PyStr.newline (String Re.underscore text)
            = Text.count PyStr.newline text) as -> by reflexivity.
    destruct st as [[|]|n]; [|by rewrite IH..].
    assert (∀ u, Text.count PyStr.newline (String Re.underscore u)
                 = Text.count PyStr.newline u) as -> by reflexivity.
    by rewrite IH.
  - rewrite sub_from_other by done.
    rewrite count_append. simpl. rewrite IH.
    destruct st as [pw|n]; [done|].
    destruct (Re.is_word c); [|done].
    rewrite count_no_mem; [done|]. by apply mem_underscores.
Qed.

End Blanks.

(** X12. What the regular expression does to one run of underscores.
    Take a run that is maximal (the text before it does not end in an
    underscore, the text after it does not begin with one).  If a letter
    or a digit stands next to it, on either side, the run stays as it is;
    in every other case (next to spaces, punctuation or the ends of the
    text) the whole run becomes one [[MASK]].  The text before and the
    text after are substituted independently. *)
Theorem sub_blanks_one_run (s t : string) (n : nat) :
  Text.last s ≠ Some Re.underscore → Text.first t ≠ Some Re.underscore →
  Re.sub_blanks (s +:+ Re.underscores (S n) +:+ t)
  = Re.sub_blanks s
    +:+ (if Text.is_alnum (Text.last s) || Text.is_alnum (Text.first t)
         then Re.underscores (S n) else MASK_TOKEN)
    +:+ Re.sub_blanks t.
Proof.
  intros Hs Ht. rewrite sub_blanks_append by done. f_equal.
  destruct (Text.is_alnum (Text.last s)); simpl orb.
  - rewrite sub_from_inside. f_equal. by apply sub_from_Out.
  - rewrite underscores_S, append_cons, sub_from_underscore, sub_from_run.
    rewrite <- underscores_S.
    destruct t as [|c t]; [done|].
    assert (c ≠ Re.underscore) as Hc by (simpl in Ht; congruence).
    rewrite sub_from_other by done. simpl Text.is_alnum.
    rewrite (eqb_false _ _ Hc), andb_true_r.
    unfold Re.sub_blanks. rewrite (sub_from_other (Re.Out false)) by done.
    by destruct (Re.is_word c).
Qed.

Lemma sub_blanks_one_run_witness :
  Re.sub_blanks "The _____ device" = "The [MASK] device"%string.
Proof.
  apply (sub_blanks_one_run "The " " device" 4); vm_compute; discriminate.
Defined.

(** X13. A text without underscores is left as it is. *)
Theorem sub_blanks_without_underscore (text : string) :
  Text.mem Re.underscore text = false → Re.sub_blanks text = text.
Proof.
  intros Hno. unfold Re.sub_blanks.
  assert (∀ pw, Re.sub_from (Re.Out pw) text = text) as Hall; [|apply Hall].
  induction text as [|c text IH]; intros pw; [done|].
  cbn [Text.mem] in Hno. apply orb_false_iff in Hno as [Hc Hno].
  apply Ascii.eqb_neq in Hc.
  rewrite sub_from_other by done.
  by rewrite (IH Hno).
Qed.

Lemma sub_blanks_without_underscore_witness :
  Re.sub_blanks "a fat cat" = "a fat cat"%string.
Proof. apply (sub_blanks_without_underscore "a fat cat"). reflexivity. Defined.

(** X14. The blanks are placed line by line: substituting in the whole
    text and splitting at the newlines gives the same sentences as
    splitting first and substituting in every line.  No match of the
    regular expression goes across a newline. *)
Theorem sentences_line_by_line (text_sentences : string) :
  sentences text_sentences
  = Re.sub_blanks <$> PyStr.split PyStr.newline text_sentences.
Proof.
  unfold sentences, Re.sub_blanks.
  destruct (PyStr.split PyStr.newline text_sentences) as [|line lines] eqn:Hsp;
    [by apply split_not_nil in Hsp|].
  by apply split_sub_from.
Qed.

(** X15. Splitting loses nothing: there is one sentence more than there
    are newlines in the text, no sentence holds a newline, and the
    sentences joined by newlines are the substituted text. *)
Theorem sentences_split_round_trip (text_sentences : string) :
  length (sentences text_sentences)
  = S (Text.count PyStr.newline text_sentences) ∧
  Forall (λ s, Text.mem PyStr.newline s = false) (sentences text_sentences) ∧
  PyStr.join (String PyStr.newline EmptyString) (sentences text_sentences)
  = Re.sub_blanks text_sentences.
Proof.
  unfold sentences.
  destruct (split_pieces PyStr.newline (Re.sub_blanks text_sentences))
    as (Hall & Hlen & Hjoin).
  split_and!; [|done..].
  rewrite Hlen. unfold Re.sub_blanks. by rewrite count_newline_sub_from.
Qed.

(** ** Notebook 2: more on [get_sentence_prob] *)

Section Range.
Local Open Scope R_scope.

Lemma exp_le_sum_exp v x : x ∈ v → exp x <= Np.sum_exp v.
Proof.
  induction 1 as [x v|x y v _ IH]; simpl.
  - pose proof (sum_exp_nonneg v). lra.
  - pose proof (exp_pos y). lra.
Qed.

(** No component of a softmax output is above one. *)
Lemma softmax_le_1 v p : p ∈ Np.softmax v → p <= 1.
Proof.
  intros [j Hj]%list_elem_of_lookup.
  apply softmax_lookup in Hj as (x & Hx & ->).
  assert (x ∈ v) as Hin by (by eapply list_elem_of_lookup_2).
  pose proof (exp_le_sum_exp v x Hin) as Hle.
  assert (0 < Np.sum_exp v) as Hpos.
  { apply sum_exp_pos. intros ->. by apply elem_of_nil in Hin. }
  apply Rmult_le_reg_r with (Np.sum_exp v); [done|].
  unfold Rdiv. rewrite Rmult_assoc, Rinv_l by lra. lra.
Qed.

Lemma log10_nonpos x : 0 < x → x <= 1 → Np.log10 x <= 0.
Proof.
  intros Hx Hle. unfold Np.log10.
  assert (ln x <= 0).
  { rewrite <- ln_1. destruct Hle as [Hlt| ->]; [|lra].
    left. by apply ln_increasing. }
  pose proof ln_10_pos.
  apply Rmult_le_reg_r with (ln 10); [done|].
  unfold Rdiv. rewrite Rmult_assoc, Rinv_l by lra. lra.
Qed.

Lemma power10_le_1 x : x <= 0 → Np.power10 x <= 1.
Proof.
  intros Hx. rewrite <- power10_0. unfold Np.power10.
  destruct Hx as [Hlt| ->]; [|lra]. left.
  apply exp_increasing. pose proof ln_10_pos. nra.
Qed.

Lemma sum_R_nonpos (xs : list R) : Forall (λ x, x <= 0) xs → sum_R xs <= 0.
Proof. induction 1 as [|x xs Hx _ IH]; simpl; lra. Qed.

End Range.

Section SentenceRange.
Context `{G : Globals} (V : nat).
Hypothesis Hok : globals_ok V.
Local Open Scope nat_scope.

Lemma token_prob_le_1 d (toks : list string) i :
  i < length toks → (token_prob d toks i <= 1)%R.
Proof.
  intros Hi. destruct (lookup_lt_is_Some_2 toks i Hi) as [t Ht].
  pose proof (getitem_token_prob V Hok d toks i t Ht) as Hg.
  rewrite getitem_of_nat in Hg.
  destruct (Np.softmax (head_logits d toks i) !! convert_token_to_id t)
    as [p|] eqn:Hp; simpl in Hg; [|done].
  injection Hg as <-. eapply softmax_le_1. by eapply list_elem_of_lookup_2.
Qed.

Lemma log_likelihood_nonpos d (toks : list string) :
  (log_likelihood d toks <= 0)%R.
Proof.
  unfold log_likelihood. apply sum_R_nonpos, Forall_fmap, Forall_forall.
  intros i [Hi Hn]%interior_spec. simpl.
  apply log10_nonpos; [apply (token_prob_pos V Hok)|apply token_prob_le_1]; lia.
Qed.

End SentenceRange.

Section SpecialTokens.
Context `{G : Globals}.
Local Open Scope nat_scope.

Lemma with_special_tokens_shape (toks : list string) :
  toks ≠ [] →
  ∃ pre post,
    with_special_tokens toks = pre ++ toks ++ post ∧
    pre = (if bool_decide (head toks = Some BOS_TOKEN) then [] else [BOS_TOKEN]) ∧
    post = (if bool_decide (last (pre ++ toks) = Some EOS_TOKEN)
            then [] else [EOS_TOKEN]) ∧
    head (with_special_tokens toks) = Some BOS_TOKEN ∧
    last (with_special_tokens toks) = Some EOS_TOKEN.
Proof.
  intros Hne. unfold with_special_tokens.
  destruct toks as [|t rest]; [done|]. simpl head.
  set (t1 := if String.eqb t BOS_TOKEN then t :: rest else BOS_TOKEN :: t :: rest).
  set (pre := if bool_decide (Some t = Some BOS_TOKEN) then [] else [BOS_TOKEN]).
  assert (t1 = pre ++ t :: rest ∧ head t1 = Some BOS_TOKEN) as [Ht1 Hhead].
  { unfold t1, pre. destruct (String.eqb_spec t BOS_TOKEN) as [->|Hne'].
    - by rewrite bool_decide_eq_true_2.
    - rewrite bool_decide_eq_false_2; [done|]. congruence. }
  assert (t1 ≠ []) as Hne1 by (rewrite Ht1; by destruct pre).
  exists pre. rewrite <- Ht1.
  destruct (last t1) as [t'|] eqn:Hlast; [|by apply last_None in Hlast].
  destruct (String.eqb_spec t' EOS_TOKEN) as [->|Hne'].
  - exists []. split_and!; [|done| |done..].
    + by rewrite app_nil_r.
    + by rewrite bool_decide_eq_true_2.
  - exists [EOS_TOKEN]. split_and!; [|done| | |].
    + rewrite Ht1. by rewrite <- app_assoc.
    + rewrite bool_decide_eq_false_2; [done|]. congruence.
    + by destruct t1.
    + by rewrite last_snoc.
Qed.

End SpecialTokens.

Section QuietRun.
Context `{G : Globals} (V : nat).
Hypothesis Hok : globals_ok V.
Local Open Scope nat_scope.

Lemma get_directional_prob_quiet d l (toks : list string) i st :
  heap st !! l = Some toks → i < length toks →
  ∃ h',
    get_directional_prob Np.softmax l (Z.of_nat i) (direction_name d) false st
    = (Ret (Np.softmax (head_logits d toks i)),
       State h' (trace st ++
                 [ModelCall (convert_tokens_to_ids (masked d toks i));
                  SmCall (head_logits d toks i)])) ∧
    heap st ⊆ h'.
Proof.
  intros Hl Hi.
  rewrite (gdp_to_predict _ _ _ _ _ _ _ Hl) by (by destruct d).
  rewrite shown_masked by done.
  rewrite bind_emit, (getitem_head_logits V Hok), bind_lift_Ret, bind_emit by done.
  simpl heap. simpl trace. simpl when. rewrite bind_ret.
  eexists. split.
  - unfold ret. rewrite app_nil_r, <- !app_assoc. done.
  - apply insert_subseteq, not_elem_of_dom, is_fresh.
Qed.

Lemma sentence_loop_body_quiet l (toks : list string) i acc st :
  heap st !! l = Some toks → i < length toks →
  ∃ h',
    sentence_loop_body Np.softmax l (convert_tokens_to_ids toks) false
      (Z.of_nat i) acc st
    = (Ret ((acc.1 + Np.log10 (token_prob Forward toks i))%R,
            (acc.2 + Np.log10 (token_prob Backwards toks i))%R),
       State h' (trace st ++ position_calls toks i)) ∧
    heap st ⊆ h'.
Proof.
  intros Hl Hi. unfold sentence_loop_body.
  destruct (lookup_lt_is_Some_2 toks i Hi) as [t Ht].
  destruct (get_directional_prob_quiet Forward l toks i st)
    as (h1 & Hrun1 & Hsub1); [done..|].
  change "forward"%string with (direction_name Forward).
  rewrite (bind_run_Ret _ _ _ _ _ Hrun1).
  edestruct (get_directional_prob_quiet Backwards l toks i)
    as (h2 & Hrun2 & Hsub2); [|done|].
  2:{ change "backwards"%string with (direction_name Backwards).
      rewrite (bind_run_Ret _ _ _ _ _ Hrun2).
      assert (Py.getitem (convert_tokens_to_ids toks) (Z.of_nat i)
              = Ret (convert_token_to_id t)) as Hid.
      { rewrite getitem_of_nat. unfold convert_tokens_to_ids.
        by rewrite list_lookup_fmap, Ht. }
      rewrite Hid, bind_lift_Ret.
      rewrite (getitem_token_prob V Hok Forward toks i t Ht), bind_lift_Ret, bind_emit.
      rewrite bind_lift_Ret.
      rewrite (getitem_token_prob V Hok Backwards toks i t Ht), bind_lift_Ret, bind_emit.
      simpl heap. simpl trace. simpl when. rewrite bind_ret.
      exists h2. split; [|by etrans].
      unfold ret, position_calls. simpl. rewrite <- !app_assoc. done. }
  simpl. by eapply lookup_weaken.
Qed.

Lemma for_each_positions_quiet l (toks : list string) (xs : list nat) acc st :
  heap st !! l = Some toks → Forall (λ i, i < length toks) xs →
  ∃ h',
    for_each (Z.of_nat <$> xs)
      (sentence_loop_body Np.softmax l (convert_tokens_to_ids toks) false)
      acc st
    = (Ret ((acc.1 + sum_R ((λ i, Np.log10 (token_prob Forward toks i)) <$> xs))%R,
            (acc.2 + sum_R ((λ i, Np.log10 (token_prob Backwards toks i)) <$> xs))%R),
       State h' (trace st ++ (xs ≫= position_calls toks))) ∧
    heap st ⊆ h'.
Proof.
  intros Hl Hxs. revert acc st Hl.
  induction Hxs as [|i xs Hi _ IH]; intros acc st Hl.
  - exists (heap st). simpl. unfold ret, sum_R. simpl.
    rewrite app_nil_r, !Rplus_0_r. by destruct acc, st.
  - rewrite fmap_cons. simpl for_each.
    destruct (sentence_loop_body_quiet l toks i acc st)
      as (h1 & Hrun1 & Hsub1); [done..|].
    rewrite (bind_run_Ret _ _ _ _ _ Hrun1).
    edestruct (IH ((acc.1 + Np.log10 (token_prob Forward toks i))%R,
                   (acc.2 + Np.log10 (token_prob Backwards toks i))%R))
      as (h2 & Hrun2 & Hsub2); [|rewrite Hrun2].
    { simpl. by eapply lookup_weaken. }
    exists h2. split; [|by etrans].
    simpl. rewrite <- !app_assoc. do 2 f_equal.
    unfold sum_R. simpl. f_equal; apply Rplus_assoc.
Qed.

(** The whole trace of a run without [verbose]. *)
Lemma get_sentence_prob_quiet sentence st :
  tokenize sentence ≠ [] →
  let toks := with_special_tokens (tokenize sentence) in
  let p := Np.power10 (0.5 * (log_likelihood Forward toks
                              + log_likelihood Backwards toks))%R in
  ∃ h',
    get_sentence_prob sentence false st
    = (Ret p,
       State h'
         (trace st ++
          Print [PStr "Processing sentence: "; PTokens toks; PStr "\n"]
          :: (interior (length toks) ≫= position_calls toks)
          ++ [Print [PReal p]])).
Proof.
  intros Hne toks p.
  rewrite (get_sentence_prob_scoring _ _ _ Hne). fold toks.
  set (l := fresh (dom (heap st))).
  rewrite (bind_deref l toks) by apply lookup_insert_eq.
  rewrite bind_print. unfold sentence_loop.
  rewrite bind_assoc, (bind_deref l toks) by apply lookup_insert_eq.
  rewrite (interior_range).
  edestruct (for_each_positions_quiet l toks (interior (length toks)) (0%R, 0%R))
    as (h' & Hrun & _); [| |rewrite (bind_run_Ret _ _ _ _ _ Hrun)].
  { apply lookup_insert_eq. }
  { apply Forall_forall. intros i [? ?]%interior_spec. lia. }
  simpl when. rewrite bind_ret, bind_print. unfold ret. simpl.
  exists h'. rewrite <- !app_assoc. simpl.
  unfold p, log_likelihood. do 3 f_equal.
  - do 2 f_equal; f_equal; lra.
  - do 3 f_equal. do 3 f_equal; f_equal; lra.
Qed.

End QuietRun.

(** X16. On a sentence the tokenizer gives no token for,
    [get_sentence_prob] ends in IndexError at [tokenized_input[0]]:
    nothing has been printed and no model, softmax or logarithm has been
    called. *)
Theorem get_sentence_prob_no_token `{G : Globals}
    (sentence : string) (verbose : bool) (st : state) :
  tokenize sentence = [] →
  (get_sentence_prob sentence verbose st).1 = Raise IndexError ∧
  trace (get_sentence_prob sentence verbose st).2 = trace st.
Proof. intros He. by rewrite (get_sentence_prob_empty _ _ _ He). Qed.

Lemma get_sentence_prob_no_token_witness :
  (get_sentence_prob (G := Toy.globals) " " true Toy.start).1 = Raise IndexError ∧
  trace (get_sentence_prob (G := Toy.globals) " " true Toy.start).2 = [].
Proof.
  apply (get_sentence_prob_no_token (G := Toy.globals) " " true Toy.start).
  reflexivity.
Defined.

(** X17. The value [get_sentence_prob] returns lies between 0 and 1: ten
    to a power that is a sum of logarithms of softmax components, none of
    them above 1.  (In exact arithmetic the value is never 0; the bound is
    stated closed, as the floating-point code can underflow to 0.) *)
Theorem get_sentence_prob_in_unit_interval `{G : Globals} (V : nat)
    (sentence : string) (verbose : bool) (st : state) :
  globals_ok V → (verbose = true → (5 ≤ V)%nat) →
  tokenize sentence ≠ [] →
  let toks := with_special_tokens (tokenize sentence) in
  ∃ p st',
    get_sentence_prob sentence verbose st = (Ret p, st') ∧
    (0 <= p <= 1)%R ∧
    (log_likelihood Forward toks <= 0)%R ∧
    (log_likelihood Backwards toks <= 0)%R.
Proof.
  intros Hok Hv Hne toks.
  destruct (get_sentence_prob_success V sentence verbose st Hok Hv Hne)
    as (h' & evs & Hrun & _).
  pose proof (log_likelihood_nonpos V Hok Forward toks) as Hf.
  pose proof (log_likelihood_nonpos V Hok Backwards toks) as Hb.
  eexists _, _. split_and!; [exact Hrun| | |exact Hf|exact Hb].
  - left. apply power10_pos.
  - apply power10_le_1. unfold toks in *. lra.
Qed.

Lemma get_sentence_prob_in_unit_interval_witness :
  ∃ p st',
    get_sentence_prob (G := Toy.globals) "the cat sat" false Toy.start = (Ret p, st') ∧
    (0 <= p <= 1)%R.
Proof.
  destruct (get_sentence_prob_in_unit_interval (G := Toy.globals) 7
              "the cat sat" false Toy.start toy_globals_ok)
    as (p & st' & Hrun & Hp & _); [done|done|].
  exists p, st'. split; [exact Hrun|exact Hp].
Defined.

(** X18. [verbose] only adds printed lines.  With and without it the
    same value is returned and the same calls to the model, the softmax
    and [np.log10] are made, in the same order.  Without it the run
    leaves exactly this trace: the line with the token list, the six
    calls of every interior position, and the line with the result. *)
Theorem get_sentence_prob_verbose_only_prints `{G : Globals} (V : nat)
    (sentence : string) (st : state) :
  globals_ok V → (5 ≤ V)%nat → tokenize sentence ≠ [] →
  let toks := with_special_tokens (tokenize sentence) in
  ∃ p quiet_st loud_st loud_evs,
    get_sentence_prob sentence false st = (Ret p, quiet_st) ∧
    get_sentence_prob sentence true st = (Ret p, loud_st) ∧
    trace quiet_st
    = trace st ++
      Print [PStr "Processing sentence: "; PTokens toks; PStr "\n"]
      :: (interior (length toks) ≫= position_calls toks) ++ [Print [PReal p]] ∧
    trace loud_st = trace st ++ loud_evs ∧
    calls loud_evs = interior (length toks) ≫= position_calls toks.
Proof.
  intros Hok HV Hne toks.
  destruct (get_sentence_prob_quiet V Hok sentence st Hne) as (h1 & Hr1).
  destruct (get_sentence_prob_success V sentence true st Hok) as (h2 & evs2 & Hr2 & Hc2);
    [done|done|].
  eexists _, _, _, evs2. split_and!; [exact Hr1|exact Hr2|done|done|exact Hc2].
Qed.

Lemma get_sentence_prob_verbose_only_prints_witness :
  ∃ p quiet_st loud_st,
    get_sentence_prob (G := Toy.globals) "the cat" false Toy.start = (Ret p, quiet_st) ∧
    get_sentence_prob (G := Toy.globals) "the cat" true Toy.start = (Ret p, loud_st) ∧
    length (trace quiet_st) = 14%nat.
Proof.
  destruct (get_sentence_prob_verbose_only_prints (G := Toy.globals) 7
              "the cat" Toy.start toy_globals_ok)
    as (p & st1 & st2 & evs & Hr1 & Hr2 & Ht & _); [lia|done|].
  exists p, st1, st2. split_and!; [exact Hr1|exact Hr2|].
  rewrite Ht. reflexivity.
Defined.

(** X19. The special tokens are put in place once.  The token list
    [get_sentence_prob] prints and scores is the tokenizer's output with
    [[CLS]] put in front unless it is there already, and [[SEP]] put
    behind unless it is there already; it begins with [[CLS]], ends with
    [[SEP]] and has at least two tokens.  The model is called twice for
    every token between the two ends. *)
Theorem get_sentence_prob_special_tokens `{G : Globals} (V : nat)
    (sentence : string) (verbose : bool) (st : state) :
  globals_ok V → (verbose = true → (5 ≤ V)%nat) →
  tokenize sentence ≠ [] →
  ∃ p st' toks pre post evs,
    get_sentence_prob sentence verbose st = (Ret p, st') ∧
    trace st'
    = trace st ++
      Print [PStr "Processing sentence: "; PTokens toks; PStr "\n"] :: evs ∧
    toks = pre ++ tokenize sentence ++ post ∧
    pre = (if bool_decide (head (tokenize sentence) = Some BOS_TOKEN)
           then [] else [BOS_TOKEN]) ∧
    post = (if bool_decide (last (pre ++ tokenize sentence) = Some EOS_TOKEN)
            then [] else [EOS_TOKEN]) ∧
    head toks = Some BOS_TOKEN ∧ last toks = Some EOS_TOKEN ∧
    (2 ≤ length toks)%nat ∧
    length (model_inputs evs) = (2 * (length toks - 2))%nat.
Proof.
  intros Hok Hv Hne.
  destruct (get_sentence_prob_run V sentence verbose st Hok Hv Hne)
    as (h' & evs & Hrun & Hc).
  destruct (with_special_tokens_shape (tokenize sentence) Hne)
    as (pre & post & Hshape & Hpre & Hpost & Hhead & Hlast).
  set (toks := with_special_tokens (tokenize sentence)) in *.
  eexists _, _, toks, pre, post, _.
  split_and!; [exact Hrun|done|done|done|done|done|done|..].
  - destruct toks as [|a [|b rest]]; simpl in *; [done| |lia].
    injection Hhead as ->. by injection Hlast.
  - rewrite <- model_inputs_calls.
    change (calls (?a ++ ?b)) with (filter (λ e, is_print e = false) (a ++ b)).
    rewrite !filter_app. fold (calls evs). rewrite Hc.
    assert (∀ l, model_inputs (calls l) = model_inputs l) as Hmc
      by apply model_inputs_calls.
    unfold model_inputs. rewrite !omap_app.
    fold (model_inputs (interior (length toks) ≫= position_calls toks)).
    rewrite model_inputs_positions, length_app, length_app, length_bind_pair.
    unfold interior. rewrite length_seq.
    destruct verbose; simpl; lia.
Qed.

Lemma get_sentence_prob_special_tokens_witness :
  ∃ p st' toks,
    get_sentence_prob (G := Toy.globals) "[CLS] the cat" false Toy.start
    = (Ret p, st') ∧
    toks = ["[CLS]"; "the"; "cat"; "[SEP]"]%string ∧
    head (trace st')
    = Some (Print [PStr "Processing sentence: "; PTokens toks; PStr "\n"]).
Proof.
  destruct (get_sentence_prob_special_tokens (G := Toy.globals) 7
              "[CLS] the cat" false Toy.start toy_globals_ok)
    as (p & st' & toks & pre & post & evs & Hrun & Ht & Htoks & Hpre & Hpost & _);
    [done|done|].
  exists p, st', toks. split_and!; [exact Hrun| |by rewrite Ht].
  rewrite Htoks, Hpost, Hpre. reflexivity.
Defined.

(** X20. A sentence of special tokens only ([[CLS]], [[SEP]] or both)
    has nothing to score: [get_sentence_prob] returns 1 and calls neither
    the model nor the softmax nor [np.log10]. *)
Theorem get_sentence_prob_nothing_to_score `{G : Globals} (V : nat)
    (sentence : string) (verbose : bool) (st : state) :
  globals_ok V → (verbose = true → (5 ≤ V)%nat) →
  tokenize sentence = [BOS_TOKEN] ∨ tokenize sentence = [EOS_TOKEN] ∨
  tokenize sentence = [BOS_TOKEN; EOS_TOKEN] →
  ∃ st' evs,
    get_sentence_prob sentence verbose st = (Ret 1%R, st') ∧
    trace st' = trace st ++ evs ∧
    calls evs = [].
Proof.
  intros Hok Hv Htok.
  assert (tokenize sentence ≠ [] ∧
          with_special_tokens (tokenize sentence) = [BOS_TOKEN; EOS_TOKEN])
    as [Hne Htoks].
  { destruct Htok as [->|[->| ->]]; by split. }
  destruct (get_sentence_prob_success V sentence verbose st Hok Hv Hne)
    as (h' & evs & Hrun & Hc).
  rewrite Htoks in Hrun, Hc.
  exists (State h' (trace st ++ evs)), evs. split_and!; [|done..].
  rewrite Hrun. do 2 f_equal.
  unfold log_likelihood. simpl. rewrite <- power10_0. f_equal. lra.
Qed.

Lemma get_sentence_prob_nothing_to_score_witness :
  ∃ st', get_sentence_prob (G := Toy.globals) "[CLS]" true Toy.start
         = (Ret 1%R, st').
Proof.
  destruct (get_sentence_prob_nothing_to_score (G := Toy.globals) 7
              "[CLS]" true Toy.start toy_globals_ok)
    as (st' & evs & Hrun & _); [simpl; lia|by left|].
  exists st'. exact Hrun.
Defined.

(** X21. A sentence of one ordinary token [t]: both directions mask the
    same single position, so the model is asked the same question twice,
    on [[CLS] [MASK] [SEP]]; the two numbers passed to [np.log10] are the
    same, the probability [p] the softmax gives to [t] at the masked
    position, and the value returned is ten to the power
    [0.5 * (log10 p + log10 p)]. *)
Theorem get_sentence_prob_one_token `{G : Globals} (V : nat)
    (sentence : string) (t : string) (verbose : bool) (st : state) :
  globals_ok V → (verbose = true → (5 ≤ V)%nat) →
  tokenize sentence = [t] → t ≠ BOS_TOKEN → t ≠ EOS_TOKEN →
  let ids := convert_tokens_to_ids [BOS_TOKEN; MASK_TOKEN; EOS_TOKEN] in
  ∃ p st' evs,
    Np.softmax (default [] (model ids !! 1%nat)) !! convert_token_to_id t = Some p ∧
    get_sentence_prob sentence verbose st
    = (Ret (Np.power10 (0.5 * (Np.log10 p + Np.log10 p))%R), st') ∧
    trace st' = trace st ++ evs ∧
    model_inputs evs = [ids; ids] ∧
    log10_args evs = [p; p].
Proof.
  intros Hok Hv Htok Hb He ids.
  set (toks := [BOS_TOKEN; t; EOS_TOKEN]).
  assert (tokenize sentence ≠ []) as Hne by (by rewrite Htok).
  assert (with_special_tokens (tokenize sentence) = toks) as Htoks.
  { rewrite Htok. unfold with_special_tokens.
    destruct (String.eqb_spec t BOS_TOKEN) as [?|_]; [done|]. simpl.
    by destruct (String.eqb_spec t EOS_TOKEN). }
  assert (masked Forward toks 1 = [BOS_TOKEN; MASK_TOKEN; EOS_TOKEN]) as HF
    by reflexivity.
  assert (masked Backwards toks 1 = [BOS_TOKEN; MASK_TOKEN; EOS_TOKEN]) as HB
    by reflexivity.
  assert (token_prob Backwards toks 1 = token_prob Forward toks 1) as Hsame.
  { unfold token_prob, head_logits. by rewrite HF, HB. }
  assert (Np.softmax (default [] (model ids !! 1%nat)) !! convert_token_to_id t
          = Some (token_prob Forward toks 1)) as Hp.
  { pose proof (getitem_token_prob V Hok Forward toks 1 t eq_refl) as Hg.
    rewrite getitem_of_nat in Hg. unfold head_logits in Hg. rewrite HF in Hg.
    fold ids in Hg.
    destruct (Np.softmax (default [] (model ids !! 1%nat)) !! convert_token_to_id t)
      as [p|]; simpl in Hg; [|done].
    by injection Hg as ->. }
  destruct (get_sentence_prob_success V sentence verbose st Hok Hv Hne)
    as (h' & evs & Hrun & Hc).
  rewrite Htoks in Hrun, Hc.
  exists (token_prob Forward toks 1), (State h' (trace st ++ evs)), evs.
  split_and!; [done| |done| |].
  - rewrite Hrun. do 3 f_equal.
    unfold log_likelihood. simpl. rewrite Hsame. lra.
  - rewrite <- model_inputs_calls, Hc. reflexivity.
  - rewrite <- log10_args_calls, Hc. simpl. by rewrite Hsame.
Qed.

Lemma get_sentence_prob_one_token_witness :
  ∃ p st',
    get_sentence_prob (G := Toy.globals) "cat" false Toy.start
    = (Ret (Np.power10 (0.5 * (Np.log10 p + Np.log10 p))%R), st').
Proof.
  destruct (get_sentence_prob_one_token (G := Toy.globals) 7
              "cat" "cat" false Toy.start toy_globals_ok)
    as (p & st' & evs & _ & Hrun & _); [done|reflexivity|done|done|].
  exists p, st'. exact Hrun.
Defined.

(** ** Notebook 1: the embeddings of the masked words *)

Section Embeddings.
Context `{G : Globals}.
Local Open Scope nat_scope.
Implicit Types (pairs : list (list (list R) * nat)).

Lemma rows_at_Ret pairs :
  Forall (λ lhm, lhm.2 < length lhm.1) pairs →
  ∃ es, rows_at pairs = Ret es ∧
        length es = length pairs ∧
        ∀ r lhm, pairs !! r = Some lhm → es !! r = lhm.1 !! lhm.2 ∧ is_Some (es !! r).
Proof.
  induction 1 as [|[lh m] pairs Hm _ (es & Hes & Hlen & Hat)]; simpl in *.
  - exists []. split_and!; [done..|]. intros r lhm Hr. done.
  - destruct (lookup_lt_is_Some_2 lh m Hm) as [e He].
    rewrite getitem_of_nat, He, Hes. simpl.
    exists (e :: es). split_and!; [done|simpl; lia|].
    intros [|r] lhm Hr; simpl in *.
    + injection Hr as <-. simpl. rewrite He. eauto.
    + by apply Hat.
Qed.

Lemma rows_at_Raise pairs :
  Exists (λ lhm, length lhm.1 ≤ lhm.2) pairs →
  rows_at pairs = Raise IndexError.
Proof.
  induction pairs as [|[lh m] pairs IH]; intros Hex; [by apply Exists_nil in Hex|].
  simpl. rewrite getitem_of_nat.
  destruct (lh !! m) as [e|] eqn:He; simpl; [|done].
  apply Exists_cons in Hex as [Hm|Hex].
  - apply lookup_lt_Some in He. simpl in Hm. lia.
  - by rewrite IH.
Qed.

End Embeddings.

(** X22. The cell that collects the embeddings returns exactly when
    every mask position lies inside its row of hidden states; it then
    gives one embedding per pair of [zip], the vector at the mask
    position of the row.  When some position lies outside its row the
    cell ends in IndexError. *)
Theorem embeddings_cell_outcome
    (hidden : list (list (list R))) (mask_pos : list nat) :
  ((∀ (r : nat) lh m, hidden !! r = Some lh → mask_pos !! r = Some m →
                      (m < length lh)%nat) →
   ∃ embeddings,
     embeddings_cell hidden mask_pos = Ret embeddings ∧
     length embeddings = (length hidden `min` length mask_pos)%nat ∧
     ∀ (r : nat) lh m, hidden !! r = Some lh → mask_pos !! r = Some m →
                       embeddings !! r = lh !! m) ∧
  ((∃ (r : nat) lh m, hidden !! r = Some lh ∧ mask_pos !! r = Some m ∧
                      (length lh ≤ m)%nat) →
   embeddings_cell hidden mask_pos = Raise IndexError).
Proof.
  split.
  - intros Hin. destruct (rows_at_Ret (zip hidden mask_pos)) as (es & Hes & Hlen & Hat).
    { apply Forall_forall. intros [lh m] [r Hr]%list_elem_of_lookup.
      apply lookup_zip_with_Some in Hr as (lh' & m' & [= <- <-] & Hlh & Hm).
      simpl. eauto. }
    exists es. split_and!; [done|by rewrite Hlen, length_zip|].
    intros r lh m Hlh Hm.
    apply (Hat r (lh, m)). apply lookup_zip_with_Some. eauto.
  - intros (r & lh & m & Hlh & Hm & Hout). apply rows_at_Raise.
    apply Exists_exists. exists (lh, m). split; [|done].
    apply list_elem_of_lookup. exists r. apply lookup_zip_with_Some. eauto.
Qed.

Lemma embeddings_cell_outcome_witness :
  (∃ embeddings, embeddings_cell [[[1]; [2]]; [[3]]]%R [1; 0; 5]%nat = Ret embeddings) ∧
  embeddings_cell [[[1]; [2]]; [[3]]]%R [1; 2]%nat = Raise IndexError.
Proof.
  split.
  - destruct (proj1 (embeddings_cell_outcome [[[1]; [2]]; [[3]]]%R [1; 0; 5]%nat))
      as (es & Hes & _); [|by exists es].
    intros [|[|r]] lh m Hlh Hm; simplify_eq/=; lia.
  - apply (proj2 (embeddings_cell_outcome [[[1]; [2]]; [[3]]]%R [1; 2]%nat)).
    exists 1%nat, [[3]]%R, 2%nat. split_and!; [reflexivity..|simpl; lia].
Defined.

(** X23. After the padding cell, the embeddings can always be read:
    when the model returns, for every padded row, one vector per position
    of the row, every mask position lies inside its row of hidden states,
    so the embeddings cell returns one embedding per sentence, the vector
    at the place of the first mask id of the sentence. *)
Theorem embeddings_cell_after_padding
    (input_ids : list (list nat)) (tok_MASK : nat) mp padded att
    (hidden : list (list (list R))) :
  padding_cell input_ids tok_MASK = Ret (mp, padded, att) →
  Forall2 (λ row lh, length lh = length row) padded hidden →
  ∃ embeddings,
    embeddings_cell hidden mp = Ret embeddings ∧
    length embeddings = length input_ids ∧
    ∀ (r : nat) lh m, hidden !! r = Some lh → mp !! r = Some m →
      embeddings !! r = lh !! m ∧ is_Some (lh !! m) ∧
      entry padded r m = Some tok_MASK.
Proof.
  intros Hrun Hshape.
  pose proof Hrun as (Hmp & mx & Hmx & -> & ->)%padding_cell_parts.
  apply mask_positions_Ret in Hmp.
  pose proof (Forall2_length _ _ _ Hmp) as Hlen1.
  pose proof (Forall2_length _ _ _ Hshape) as Hlen2.
  rewrite length_fmap in Hlen2.
  assert (∀ (r : nat) lh m, hidden !! r = Some lh → mp !! r = Some m →
            (m < length lh)%nat ∧
            entry ((λ s, s ++ replicate (mx - length s) 0%nat) <$> input_ids) r m
            = Some tok_MASK) as Hin.
  { intros r lh m Hlh Hm.
    destruct (Forall2_lookup_r _ _ _ _ _ Hmp Hm) as (s & Hs & Hidx).
    apply index_Ret in Hidx as [Hsm _].
    pose proof (lookup_lt_Some _ _ _ Hsm) as Hlt.
    destruct (Forall2_lookup_r _ _ _ _ _ Hshape Hlh) as (row & Hrow & Hlr).
    rewrite list_lookup_fmap, Hs in Hrow. simpl in Hrow. injection Hrow as <-.
    rewrite length_app in Hlr. split; [lia|].
    unfold entry. rewrite list_lookup_fmap, Hs. simpl. by rewrite lookup_app_l. }
  destruct (rows_at_Ret (zip hidden mp)) as (es & Hes & Hlen & Hat).
  { apply Forall_forall. intros [lh m] [r Hr]%list_elem_of_lookup.
    apply lookup_zip_with_Some in Hr as (lh' & m' & [= <- <-] & Hlh & Hm).
    simpl. by eapply Hin. }
  exists es. split_and!; [done| |].
  - rewrite Hlen, length_zip. lia.
  - intros r lh m Hlh Hm. destruct (Hin r lh m Hlh Hm) as [Hlt Hentry].
    split_and!; [|by apply lookup_lt_is_Some_2|done].
    apply (Hat r (lh, m)). apply lookup_zip_with_Some. eauto.
Qed.

Lemma embeddings_cell_after_padding_witness :
  ∃ embeddings,
    embeddings_cell
      [[[1]; [2]; [3]; [4]]; [[5]; [6]; [7]; [8]]]%R [2; 1]%nat = Ret embeddings ∧
    length embeddings = 2%nat.
Proof.
  destruct (embeddings_cell_after_padding
              [[101; 7; 103; 102]; [101; 103; 102]]%nat 103%nat [2; 1]%nat
              [[101; 7; 103; 102]; [101; 103; 102; 0]]%nat
              [[1; 1; 1; 1]; [1; 1; 1; 0]]%nat
              [[[1]; [2]; [3]; [4]]; [[5]; [6]; [7]; [8]]]%R)
    as (es & Hes & Hlen & _).
  - reflexivity.
  - repeat constructor.
  - exists es. split; [exact Hes|exact Hlen].
Defined.
